(** * go-gsmarena: proxy pool, dedup store and error handler

    A shallow embedding of the crawler's three stateful parts:
    - [proxy_pool.go]: [ProxyManager] with [fetchProxies], [formatProxy],
      [GetProxy], [asyncRefresh], [RemoveProxy];
    - [storage.go]: [BoltStorage] with [IsVisited], [MarkVisited], [Close];
    - [main.go]: the [OnError] handler registered by [setupCallbacks], and the
      handler of the three-stage variant registered by [setupErrorHandler].

    Go strings are byte strings and are modelled by [string]; Go [int] is
    modelled by [Z] with its 64-bit wrap-around written out; slices are lists;
    the bbolt bucket is a [gmap].  The supplier endpoint, the clock and the
    goroutines started with [go] are made explicit in a [World]. *)

From Stdlib Require Import ZArith NArith Ascii String Lia Bool.
From stdpp Require Import base option list gmap strings.

Local Open Scope Z_scope.

(** ** The functions of Go's [strings] package used by the sources *)

Module strings.

Definition LF : ascii := "010"%char.
Definition CR : ascii := "013"%char.

Definition code (c : ascii) : N := N_of_ascii c.

(** The ASCII white space of [strings.TrimSpace]'s fast path:
    tab, line feed, vertical tab, form feed, carriage return, space. *)
Definition asciiSpace (c : ascii) : bool :=
  match code c with
  | 9 | 10 | 11 | 12 | 13 | 32 => true
  | _ => false
  end%N.

(** UTF-8 encodings of the remaining runes of [unicode.IsSpace]:
    U+0085 and U+00A0 take two bytes. *)
Definition space2 (c0 c1 : ascii) : bool :=
  (code c0 =? 194)%N && ((code c1 =? 133)%N || (code c1 =? 160)%N).

(** U+1680, U+2000..U+200A, U+2028, U+2029, U+202F, U+205F and U+3000
    take three bytes. *)
Definition space3 (c0 c1 c2 : ascii) : bool :=
  ((code c0 =? 225)%N && (code c1 =? 154)%N && (code c2 =? 128)%N)
  || ((code c0 =? 226)%N && (code c1 =? 128)%N &&
      (((128 <=? code c2)%N && (code c2 <=? 138)%N)
       || (code c2 =? 168)%N || (code c2 =? 169)%N || (code c2 =? 175)%N))
  || ((code c0 =? 226)%N && (code c1 =? 129)%N && (code c2 =? 159)%N)
  || ((code c0 =? 227)%N && (code c1 =? 128)%N && (code c2 =? 128)%N).

(** [TrimLeftFunc s unicode.IsSpace]: runes are decoded from the front and
    dropped while they are white space; a byte that starts no white-space
    encoding (any other rune, or invalid UTF-8) stops the scan. *)
Fixpoint TrimLeft (s : string) : string :=
  match s with
  | EmptyString => s
  | String c0 s1 =>
      if asciiSpace c0 then TrimLeft s1
      else match s1 with
           | EmptyString => s
           | String c1 s2 =>
               if space2 c0 c1 then TrimLeft s2
               else match s2 with
                    | EmptyString => s
                    | String c2 s3 =>
                        if space3 c0 c1 c2 then TrimLeft s3 else s
                    end
           end
  end.

(** [TrimRightFunc s unicode.IsSpace]: the longest suffix made of
    white-space runes is dropped.  The encodings above are pairwise
    neither prefixes nor suffixes of each other, so a suffix is peeled rune
    by rune from the back exactly when it decodes to white space from the
    front. *)
Fixpoint TrimRight (s : string) : string :=
  match s with
  | EmptyString => EmptyString
  | String c s' =>
      match TrimLeft s with
      | EmptyString => EmptyString
      | _ => String c (TrimRight s')
      end
  end.

Definition TrimSpace (s : string) : string := TrimRight (TrimLeft s).

Definition HasPrefix (s prefix : string) : bool := String.prefix prefix s.

(** [strings.Contains s substr]: [substr] occurs at some offset of [s]. *)
Fixpoint Contains (s substr : string) : bool :=
  HasPrefix s substr
  || match s with
     | EmptyString => false
     | String _ s' => Contains s' substr
     end.

(** [strings.ReplaceAll s old new] for a one-byte [old], the only form the
    sources use (deleting every carriage return of a line). *)
Fixpoint ReplaceAll (s : string) (old : ascii) (new : string) : string :=
  match s with
  | EmptyString => EmptyString
  | String c s' =>
      if Ascii.eqb c old then new +:+ ReplaceAll s' old new
      else String c (ReplaceAll s' old new)
  end.

(** [strings.Split s sep] for a one-byte separator ([Split(body, "\n")]):
    the pieces between the separators, so [n] separators give [n+1]
    pieces and the empty string gives one empty piece. *)
Fixpoint Split (s : string) (sep : ascii) : list string :=
  match s with
  | EmptyString => [EmptyString]
  | String c s' =>
      if Ascii.eqb c sep then EmptyString :: Split s' sep
      else match Split s' sep with
           | piece :: pieces => String c piece :: pieces
           | [] => [String c EmptyString]
           end
  end.

End strings.

(** ** Go's [int], slices and the outside world *)

Definition MaxInt : Z := 2 ^ 63 - 1.

(** Two's-complement wrap-around of a 64-bit [int]. *)
Definition wrap_int (z : Z) : Z := (z + 2 ^ 63) mod 2 ^ 64 - 2 ^ 63.
Definition int_add (a b : Z) : Z := wrap_int (a + b).

(** [len(s)] of a slice. *)
Definition len {A} (s : list A) : Z := Z.of_nat (length s).

(** [s[i]]: [None] stands for the run-time panic "index out of range". *)
Definition index {A} (s : list A) (i : Z) : option A :=
  if (i <? 0) || (len s <=? i) then None else s !! Z.to_nat i.

(** What one [client.Get(pm.apiURL)] followed by [io.ReadAll(resp.Body)]
    can give. *)
Inductive BodyRead :=
| ReadOK (body : string)
| ReadFailed (cause : string).

Inductive Reply :=
| GetError (cause : string)
| GetResponse (StatusCode : Z) (Body : BodyRead).

(** The [error] values built by [proxy_pool.go]. *)
Inductive error :=
| ErrRequest (cause : string)          (* "请求代理 API 失败: %w" *)
| ErrStatus (code : Z)                 (* "代理 API 返回非 200 状态码: %d" *)
| ErrReadBody (cause : string)         (* "读取代理 API 响应失败: %w" *)
| ErrRefreshFailed (cause : error)     (* "无可用代理且刷新失败: %w" *)
| ErrStillEmpty                        (* "刷新后仍无可用代理" *)
| ErrNoProxy                           (* "无可用代理" *)
| ErrParseURL (raw : string).          (* "解析代理 URL 失败: %w" *)

(** The lines written with [log.Printf] / [fmt.Println] by [proxy_pool.go]. *)
Inductive LogLine :=
| LogFetching (apiURL : string)
| LogBody (body : string)
| LogPoolUpdated (n : Z)
| LogInit
| LogInitFailed (e : error)
| LogInitOK (n : Z)
| LogEmptyPool
| LogAsyncRefill
| LogAsyncFailed (e : error)
| LogRemoved (proxyURL : string) (remaining : Z)
| LogNotInPool (proxyURL : string)
(* the lines of the [OnError] handlers of [main.go] *)
| LogError (requestURL : string) (statusCode : Z) (err : option string) (proxyURL : string)
| LogNetworkError (err : option string)
| Log404 (requestURL : string)
| LogBlocked (statusCode : Z)
| LogTransport
| LogOther (err : option string)
| LogRetryFailed (requestURL err : string)
| LogRetried (requestURL : string).

Inductive Event :=
| EvGet (apiURL : string)      (* a GET was sent to the supplier *)
| EvGoAsyncRefresh             (* [go pm.asyncRefresh()] *)
| EvRetry (requestURL : string)  (* [r.Request.Retry()] *)
| EvLog (l : LogLine).

(** The supplier answers its [k]-th request with [supplier k]; [calls] counts
    the requests sent so far and [trace] lists what happened, oldest first. *)
Record World := mkWorld {
  supplier : nat -> Reply;
  calls : nat;
  trace : list Event
}.

Definition emit (e : Event) (w : World) : World :=
  mkWorld (supplier w) (calls w) (trace w ++ [e]).

(** ** [ProxyManager] *)

Record ProxyManager := mkProxyManager {
  apiURL : string;
  minThreshold : Z;
  proxies : list string;
  currentIndex : Z;
  isRefreshing : bool
}.

Definition set_pool (newProxies : list string) (idx : Z) (pm : ProxyManager) :=
  mkProxyManager (apiURL pm) (minThreshold pm) newProxies idx (isRefreshing pm).
Definition set_currentIndex (idx : Z) (pm : ProxyManager) :=
  mkProxyManager (apiURL pm) (minThreshold pm) (proxies pm) idx (isRefreshing pm).
Definition set_isRefreshing (b : bool) (pm : ProxyManager) :=
  mkProxyManager (apiURL pm) (minThreshold pm) (proxies pm) (currentIndex pm) b.

(** Methods of [*ProxyManager] run in a state monad over the receiver and the
    world. *)
Record St := mkSt { pm : ProxyManager; world : World }.

Definition M (A : Type) : Type := St -> A * St.

Definition ret {A} (a : A) : M A := fun s => (a, s).
Definition bind {A B} (m : M A) (k : A -> M B) : M B :=
  fun s => let (a, s') := m s in k a s'.

Declare Scope go_scope.
Delimit Scope go_scope with go.
Notation "x <- m ;; k" := (bind m (fun x => k))
  (at level 100, m at next level, k at level 200, right associativity) : go_scope.
Notation "m ;;; k" := (bind m (fun _ => k))
  (at level 100, k at level 200, right associativity) : go_scope.
Local Open Scope go_scope.

Definition self : M ProxyManager := fun s => (pm s, s).
Definition update (f : ProxyManager -> ProxyManager) : M unit :=
  fun s => (tt, mkSt (f (pm s)) (world s)).
Definition event (e : Event) : M unit :=
  fun s => (tt, mkSt (pm s) (emit e (world s))).
Definition log (l : LogLine) : M unit := event (EvLog l).

(** [client.Get]: the request is sent (and counted), the reply received. *)
Definition send_Get (url : string) : M nat :=
  fun s => let w := world s in
           (calls w, mkSt (pm s) (mkWorld (supplier w) (S (calls w)) (trace w ++ [EvGet url]))).
Definition recv_Get (k : nat) : M Reply :=
  fun s => (supplier (world s) k, s).

(** [formatProxy]. *)
Definition formatProxy (raw : string) : string :=
  let raw := strings.TrimSpace raw in
  if strings.HasPrefix raw "http://" || strings.HasPrefix raw "https://"
  then raw
  else "http://" +:+ raw.

(** The body of the [for _, line := range rawProxies] loop of
    [fetchProxies], as a step on the accumulated [newProxies]. *)
Definition fetch_line (newProxies : list string) (line : string) : list string :=
  let line := strings.TrimSpace line in
  let line := strings.ReplaceAll line strings.CR EmptyString in
  if String.eqb line EmptyString then newProxies
  else
    let proxy := formatProxy line in
    if negb (String.eqb proxy EmptyString) then newProxies ++ [proxy] else newProxies.

Definition parseProxies (body : string) : list string :=
  let rawProxies := strings.Split body strings.LF in
  fold_left fetch_line rawProxies [].

(** The part of [fetchProxies] that runs once [client.Get] has returned. *)
Definition fetchProxies_reply (reply : Reply) : M (option error) :=
  match reply with
  | GetError cause => ret (Some (ErrRequest cause))
  | GetResponse StatusCode Body =>
      if negb (StatusCode =? 200) then ret (Some (ErrStatus StatusCode))
      else
        match Body with
        | ReadFailed cause => ret (Some (ErrReadBody cause))
        | ReadOK body =>
            log (LogBody body) ;;;
            let newProxies := parseProxies body in
            update (set_pool newProxies 0) ;;;
            log (LogPoolUpdated (len newProxies)) ;;;
            ret None
        end
  end.

(** [fetchProxies] up to the moment the GET has been sent, and from the
    moment its reply is there; [client.Get] blocks in between. *)
Definition fetchProxies_send : M nat :=
  p <- self ;;
  log (LogFetching (apiURL p)) ;;;
  send_Get (apiURL p).

Definition fetchProxies_recv (k : nat) : M (option error) :=
  reply <- recv_Get k ;;
  fetchProxies_reply reply.

Definition fetchProxies : M (option error) :=
  k <- fetchProxies_send ;;
  fetchProxies_recv k.

(** [asyncRefresh] once [refreshLock] is held and [isRefreshing] was found
    false: up to the GET, and from its reply to the deferred reset of
    [isRefreshing]. *)
Definition asyncRefresh_send : M nat :=
  update (set_isRefreshing true) ;;;
  log LogAsyncRefill ;;;
  fetchProxies_send.

Definition asyncRefresh_recv (k : nat) : M unit :=
  err <- fetchProxies_recv k ;;
  match err with
  | Some e => log (LogAsyncFailed e)
  | None => ret tt
  end ;;;
  update (set_isRefreshing false).

(** [asyncRefresh] run from [refreshLock.Lock()] to the deferred
    [refreshLock.Unlock()] without another goroutine in between. *)
Definition asyncRefresh : M unit :=
  p <- self ;;
  if isRefreshing p then ret tt
  else
    k <- asyncRefresh_send ;;
    asyncRefresh_recv k.

(** Index of the first element equal to [proxyURL], as found by the
    [for i, proxy := range pm.proxies] loop of [RemoveProxy]. *)
Fixpoint find_proxy (proxyURL : string) (i : nat) (ps : list string) : option nat :=
  match ps with
  | [] => None
  | proxy :: rest =>
      if String.eqb proxy proxyURL then Some i
      else find_proxy proxyURL (S i) rest
  end.

Definition RemoveProxy (proxyURL : string) : M unit :=
  p <- self ;;
  match find_proxy proxyURL 0 (proxies p) with
  | Some i =>
      let shrunk := take i (proxies p) ++ drop (S i) (proxies p) in
      update (set_pool shrunk (currentIndex p)) ;;;
      log (LogRemoved proxyURL (len shrunk)) ;;;
      (if (currentIndex p >=? len shrunk) && (len shrunk >? 0)
       then update (set_currentIndex 0) else ret tt) ;;;
      (if len shrunk <? minThreshold p
       then event EvGoAsyncRefresh else ret tt)
  | None => log (LogNotInPool proxyURL)
  end.

Definition NewProxyManager (apiURL : string) (minThreshold : Z) : M unit :=
  update (fun _ => mkProxyManager apiURL minThreshold [] 0 false) ;;;
  log LogInit ;;;
  err <- fetchProxies ;;
  match err with
  | Some e => log (LogInitFailed e)
  | None => p <- self ;; log (LogInitOK (len (proxies p)))
  end.

(** ** [net/url] *)

Module url.

(** [stringContainsCTLByte]. *)
Fixpoint containsCTL (s : string) : bool :=
  match s with
  | EmptyString => false
  | String c s' =>
      (strings.code c <? 32)%N || (strings.code c =? 127)%N || containsCTL s'
  end.

Definition isLetter (c : ascii) : bool :=
  let n := strings.code c in
  ((97 <=? n) && (n <=? 122) || (65 <=? n) && (n <=? 90))%N.

Definition isSchemeExtra (c : ascii) : bool :=
  let n := strings.code c in
  ((48 <=? n) && (n <=? 57) || (n =? 43) || (n =? 45) || (n =? 46))%N.

(** [getScheme]: [inl] is the error "missing protocol scheme", [inr] the
    pair of the scheme and what follows its colon.  [seen] holds the
    bytes [rawURL[:i]] already scanned. *)
Fixpoint getScheme_from (rawURL seen rest : string) : unit + string * string :=
  match rest with
  | EmptyString => inr (EmptyString, rawURL)
  | String c rest' =>
      if isLetter c then getScheme_from rawURL (seen +:+ String c EmptyString) rest'
      else if isSchemeExtra c then
        if String.eqb seen EmptyString then inr (EmptyString, rawURL)
        else getScheme_from rawURL (seen +:+ String c EmptyString) rest'
      else if Ascii.eqb c ":" then
        if String.eqb seen EmptyString then inl tt else inr (seen, rest')
      else inr (EmptyString, rawURL)
  end.

Definition getScheme (rawURL : string) : unit + string * string :=
  getScheme_from rawURL EmptyString rawURL.

(** [strings.ToLower] on the bytes a scheme can hold (ASCII). *)
Definition lower (c : ascii) : ascii :=
  let n := strings.code c in
  if ((65 <=? n) && (n <=? 90))%N then ascii_of_N (n + 32) else c.

Fixpoint ToLower (s : string) : string :=
  match s with
  | EmptyString => EmptyString
  | String c s' => String (lower c) (ToLower s')
  end.

(** [strings.Cut(rawURL, "#")]: the text before the first [#] and the
    fragment after it (empty when there is none). *)
Fixpoint cutFragment (s : string) : string * string :=
  match s with
  | EmptyString => (EmptyString, EmptyString)
  | String c s' =>
      if Ascii.eqb c "#" then (EmptyString, s')
      else let (u, frag) := cutFragment s' in (String c u, frag)
  end.

Section Parse.
(** The fields of [url.URL] other than [Scheme], and the rest of the
    parser that fills them from the lower-cased scheme, the text after
    the scheme and the fragment; it fails on what [net/url] rejects
    (bad host, bad escape, bad port, ...). *)
Variable Tail : Type.
Variable parseTail : string -> string -> string -> option Tail.

Record URL := mkURL { Scheme : string; tail : Tail }.

Definition Parse (rawURL : string) : option URL :=
  let (u, frag) := cutFragment rawURL in
  if containsCTL u then None
  else
    match getScheme u with
    | inl _ => None
    | inr (scheme, rest) =>
        let scheme := ToLower scheme in
        match parseTail scheme rest frag with
        | Some t => Some (mkURL scheme t)
        | None => None
        end
    end.
End Parse.

Arguments Scheme {Tail} _.
Arguments tail {Tail} _.
Arguments Parse {Tail} parseTail rawURL.

End url.

(** ** [GetProxy] *)

Section GetProxy.
Context {Tail : Type} (parseTail : string -> string -> string -> option Tail).

(** What a call of [GetProxy] ends with: the two results of the Go
    function, or the panic of an out-of-range [pm.proxies[pm.currentIndex]]. *)
Inductive GetProxyResult :=
| Proxy (u : url.URL Tail)
| Failed (e : error)
| Panicked.

(** The end of [GetProxy]: [url.Parse(proxyStr)] and the two [return]s that
    follow it. *)
Definition parsed (proxyStr : string) : GetProxyResult :=
  match url.Parse parseTail proxyStr with
  | Some proxyURL => Proxy proxyURL
  | None => Failed (ErrParseURL proxyStr)
  end.

(** From "使用 Round-Robin 算法选择代理" on: the part of [GetProxy] under
    the write lock, and the parse of the selected address. *)
Definition GetProxy_select : M GetProxyResult :=
  p <- self ;;
  if len (proxies p) =? 0 then ret (Failed ErrNoProxy)
  else
    match index (proxies p) (currentIndex p) with
    | None => ret Panicked
    | Some proxyStr =>
        update (set_currentIndex
                  (Z.rem (int_add (currentIndex p) 1) (len (proxies p)))) ;;;
        ret (parsed proxyStr)
    end.

Definition GetProxy : M GetProxyResult :=
  p <- self ;;
  let proxyCount := len (proxies p) in
  r <- (if proxyCount =? 0 then
          log LogEmptyPool ;;;
          err <- fetchProxies ;;
          match err with
          | Some e => ret (inl (ErrRefreshFailed e))
          | None =>
              p <- self ;;
              let proxyCount := len (proxies p) in
              if proxyCount =? 0 then ret (inl ErrStillEmpty)
              else ret (inr proxyCount)
          end
        else ret (inr proxyCount)) ;;
  match r with
  | inl e => ret (Failed e)
  | inr proxyCount =>
      (if proxyCount <? minThreshold p
       then event EvGoAsyncRefresh else ret tt) ;;;
      GetProxy_select
  end.

(** [n] consecutive calls of [GetProxy], results in call order. *)
Fixpoint GetProxy_times (n : nat) : M (list GetProxyResult) :=
  match n with
  | O => ret []
  | S n' => r <- GetProxy ;; rs <- GetProxy_times n' ;; ret (r :: rs)
  end.
End GetProxy.

Arguments Proxy {Tail} u.
Arguments Failed {Tail} e.
Arguments Panicked {Tail}.

(** ** Goroutines running [asyncRefresh]

    Every [go pm.asyncRefresh()] starts a goroutine; the goroutines are
    interleaved at the points where [asyncRefresh] can block: at
    [refreshLock.Lock()] and inside [client.Get]. *)

Module Refresh.

Inductive pc :=
| AtLock                 (* started, before [refreshLock.Lock()] *)
| AtCheck                (* holds [refreshLock], before [if pm.isRefreshing] *)
| InFlight (k : nat)     (* holds [refreshLock], its GET number [k] is out *)
| Returned (fetched : bool).

Record Sys := mkSys {
  st : St;
  refreshLock : bool;          (* [true]: locked *)
  goroutines : list pc
}.

Inductive action :=
| Trigger                (* some caller executes [go pm.asyncRefresh()] *)
| Run (i : nat).         (* goroutine [i] runs to its next blocking point *)

Definition set_pc (i : nat) (c : pc) (gs : list pc) : list pc := <[i := c]> gs.

(** A goroutine that cannot move (blocked on the mutex, finished, or not
    started) leaves the system as it is. *)
Definition step (a : action) (s : Sys) : Sys :=
  match a with
  | Trigger => mkSys (st s) (refreshLock s) (goroutines s ++ [AtLock])
  | Run i =>
      match goroutines s !! i with
      | Some AtLock =>
          if refreshLock s then s
          else mkSys (st s) true (set_pc i AtCheck (goroutines s))
      | Some AtCheck =>
          if isRefreshing (pm (st s))
          then mkSys (st s) false (set_pc i (Returned false) (goroutines s))
          else
            let (k, st') := asyncRefresh_send (st s) in
            mkSys st' (refreshLock s) (set_pc i (InFlight k) (goroutines s))
      | Some (InFlight k) =>
          let (_, st') := asyncRefresh_recv k (st s) in
          mkSys st' false (set_pc i (Returned true) (goroutines s))
      | Some (Returned _) | None => s
      end
  end.

Definition run (sched : list action) (s : Sys) : Sys := fold_left (fun s a => step a s) sched s.

Definition is_in_flight (c : pc) : bool :=
  match c with InFlight _ => true | _ => false end.
Definition is_returned (c : pc) : bool :=
  match c with Returned _ => true | _ => false end.
Definition holds_lock (c : pc) : bool :=
  match c with AtCheck | InFlight _ => true | _ => false end.
Definition skipped (c : pc) : bool :=
  match c with Returned false => true | _ => false end.

Fixpoint count (f : pc -> bool) (gs : list pc) : nat :=
  match gs with
  | [] => 0
  | g :: gs' => (if f g then 1 else 0) + count f gs'
  end.

(** Requests to the supplier that are out. *)
Definition in_flight (s : Sys) : nat := count is_in_flight (goroutines s).
Definition finished (s : Sys) : bool := forallb is_returned (goroutines s).

(** No goroutine yet, mutex free. *)
Definition idle (s0 : St) : Sys := mkSys s0 false [].

End Refresh.

(** ** [go.etcd.io/bbolt], as far as [storage.go] uses it

    A database file holds named buckets, each a finite map from keys to
    values.  [Update] runs a function on the buckets and commits its result,
    or rolls back when the function reports an error; [View] only reads. *)

Module bolt.

Inductive Err :=
| ErrDatabaseNotOpen
| ErrTimeout
| ErrBucketNameRequired
| ErrKeyRequired
| ErrKeyTooLarge
| ErrValueTooLarge
| ErrInvalid
| ErrVersionMismatch
| ErrChecksum
| ErrFile (cause : string).   (* an error that is not bbolt's own, passed through *)

Abbreviation Bucket := (gmap string string).
Abbreviation Tx := (gmap string (gmap string string)).

Record DB := mkDB { opened : bool; file : Tx }.

Definition MaxKeySize : Z := 32768.
Definition MaxValueSize : Z := 2 ^ 31 - 2.

Definition Get (b : Bucket) (key : string) : option string := b !! key.

Definition Put (b : Bucket) (key value : string) : Err + Bucket :=
  if String.eqb key EmptyString then inl ErrKeyRequired
  else if Z.of_nat (String.length key) >? MaxKeySize then inl ErrKeyTooLarge
  else if Z.of_nat (String.length value) >? MaxValueSize then inl ErrValueTooLarge
  else inr (<[key := value]> b).

Definition CreateBucketIfNotExists (tx : Tx) (name : string) : Err + Tx :=
  if String.eqb name EmptyString then inl ErrBucketNameRequired
  else match tx !! name with
       | Some _ => inr tx
       | None => inr (<[name := ∅]> tx)
       end.

Definition View {E A} (notOpen : E) (db : DB) (fn : Tx -> E + A) : E + A :=
  if opened db then fn (file db) else inl notOpen.

Definition Update {E} (notOpen : E) (db : DB) (fn : Tx -> E + Tx) : option E * DB :=
  if opened db then
    match fn (file db) with
    | inl e => (Some e, db)
    | inr tx => (None, mkDB true tx)
    end
  else (Some notOpen, db).

(** Why the meta pages of a file are not those of a database. *)
Inductive Damage := BadMagic | BadVersion | BadChecksum.

(** What [bolt.Open] meets at a path, in the order it looks: the file cannot
    be opened, created or mapped (a missing directory, no permission, a
    directory in its place); another process holds the file lock until the
    time-out has passed; there was no file, or an empty one, and a database
    without buckets is written; the file is not a database; the file is a
    database with these buckets. *)
Inductive Found :=
| Unopenable (cause : string)
| Locked
| Empty
| Damaged (why : Damage)
| Holds (buckets : Tx).

(** [bolt.Open(path, mode, options)] with a lock time-out, [files] telling
    what is at each path. *)
Definition Open (files : string -> Found) (path : string) : Err + DB :=
  match files path with
  | Unopenable cause => inl (ErrFile cause)
  | Locked => inl ErrTimeout
  | Empty => inr (mkDB true ∅)
  | Damaged BadMagic => inl ErrInvalid
  | Damaged BadVersion => inl ErrVersionMismatch
  | Damaged BadChecksum => inl ErrChecksum
  | Holds buckets => inr (mkDB true buckets)
  end.

Definition Close (db : DB) : DB := mkDB false (file db).

End bolt.

(** ** [storage.go] *)

Inductive StorageError :=
| ErrBolt (e : bolt.Err)
| ErrNoBucket                           (* "Bucket 不存在" *)
| ErrOpen (cause : StorageError)        (* "无法打开数据库: %w" *)
| ErrCreateBucket (cause : StorageError) (* "创建 Bucket 失败: %w" *)
| ErrMark (cause : StorageError).       (* "标记 URL 为已访问失败: %w" *)

Record BoltStorage := mkBoltStorage {
  db : bolt.DB;
  bucketName : string
}.

Definition NewBoltStorage (files : string -> bolt.Found) (dbPath bucketName : string)
  : StorageError + BoltStorage :=
  match bolt.Open files dbPath with
  | inl e => inl (ErrOpen (ErrBolt e))
  | inr db =>
      let (err, db') :=
        bolt.Update (ErrBolt bolt.ErrDatabaseNotOpen) db (fun tx =>
          match bolt.CreateBucketIfNotExists tx bucketName with
          | inl e => inl (ErrCreateBucket (ErrBolt e))
          | inr tx' => inr tx'
          end) in
      match err with
      | Some e => inl e
      | None => inr (mkBoltStorage db' bucketName)
      end
  end.

Definition IsVisited (s : BoltStorage) (url : string) : bool :=
  match bolt.View (ErrBolt bolt.ErrDatabaseNotOpen) (db s) (fun tx =>
          match tx !! bucketName s with
          | None => inl ErrNoBucket
          | Some b =>
              let val := bolt.Get b url in
              inr (bool_decide (val ≠ None))
          end) with
  | inl _ => false
  | inr exists_ => exists_
  end.

(** [timestamp] is [time.Now().Format(time.RFC3339)] at the call. *)
Definition MarkVisited (s : BoltStorage) (url timestamp : string)
  : option StorageError * BoltStorage :=
  let (err, db') :=
    bolt.Update (ErrBolt bolt.ErrDatabaseNotOpen) (db s) (fun tx =>
      match tx !! bucketName s with
      | None => inl ErrNoBucket
      | Some b =>
          match bolt.Put b url timestamp with
          | inl e => inl (ErrBolt e)
          | inr b' => inr (<[bucketName s := b']> tx)
          end
      end) in
  match err with
  | Some e => (Some (ErrMark e), mkBoltStorage db' (bucketName s))
  | None => (None, mkBoltStorage db' (bucketName s))
  end.

Definition Close (s : BoltStorage) : BoltStorage :=
  mkBoltStorage (bolt.Close (db s)) (bucketName s).


(** ** [main.go]: the [OnError] handlers *)

Module colly.

(** A request: its URL as a string, the proxy address colly recorded for
    it (empty when the proxy function left none in the request context) and
    what [Retry()] returns when it is called ([None] for [nil]). *)
Record Request := mkRequest { URL : string; ProxyURL : string; Retry : option string }.
Record Response := mkResponse { StatusCode : Z; Request_ : Request }.

End colly.

(** The package-level variables [storage] and [proxyManager], with the world
    the proxy manager talks to and the reading of [time.Now()] in RFC 3339. *)
Record Globals := mkGlobals {
  storage : BoltStorage;
  proxyManager : ProxyManager;
  outside : World;
  clock : string
}.

Definition on_pool (m : M unit) (g : Globals) : Globals :=
  let (_, s) := m (mkSt (proxyManager g) (outside g)) in
  mkGlobals (storage g) (pm s) (world s) (clock g).

Definition on_storage (f : BoltStorage -> option StorageError * BoltStorage)
  (g : Globals) : Globals :=
  let (_, s) := f (storage g) in
  mkGlobals s (proxyManager g) (outside g) (clock g).

(** The [case] of the [switch] that is taken. *)
Inductive Case :=
| CaseZero          (* statusCode == 0 *)
| Case404           (* statusCode == 404 *)
| CaseBlocked       (* statusCode == 403 || statusCode == 429 || statusCode == 503 *)
| CaseText          (* err != nil && the text of err names a time-out or a broken connection *)
| CaseDefault.

Definition text_matches (err : option string) : bool :=
  match err with
  | Some text =>
      strings.Contains text "timeout"
      || strings.Contains text "connection refused"
      || strings.Contains text "EOF"
  | None => false
  end.

(** The [switch] of the handler registered by [setupCallbacks]. *)
Definition setupCallbacks_case (statusCode : Z) (err : option string) : Case :=
  if statusCode =? 404 then Case404
  else if (statusCode =? 403) || (statusCode =? 429) || (statusCode =? 503) then CaseBlocked
  else if text_matches err then CaseText
  else CaseDefault.

(** The [switch] of the handler registered by [setupErrorHandler] in the
    three-stage variant of the program. *)
Definition setupErrorHandler_case (statusCode : Z) (err : option string) : Case :=
  if statusCode =? 0 then CaseZero
  else if statusCode =? 404 then Case404
  else if (statusCode =? 403) || (statusCode =? 429) || (statusCode =? 503) then CaseBlocked
  else if text_matches err then CaseText
  else CaseDefault.

(** Both handlers have the same body around their [switch]: each case logs,
    the 404 case marks the URL visited (dropping the error of
    [MarkVisited]), the retrying cases set [shouldRetry], and the final
    [if shouldRetry] calls [RemoveProxy] on [r.Request.ProxyURL] when that
    string is not empty, re-enqueues the request and logs what [Retry]
    returned. *)
Definition retry_line (request : colly.Request) : LogLine :=
  match colly.Retry request with
  | Some err => LogRetryFailed (colly.URL request) err
  | None => LogRetried (colly.URL request)
  end.

Definition handle (case : Z -> option string -> Case)
  (r : colly.Response) (err : option string) (g : Globals) : Globals :=
  let statusCode := colly.StatusCode r in
  let requestURL := colly.URL (colly.Request_ r) in
  let proxyURL := colly.ProxyURL (colly.Request_ r) in
  let g := on_pool (log (LogError requestURL statusCode err proxyURL)) g in
  let '(shouldRetry, g) :=
    match case statusCode err with
    | CaseZero => (true, on_pool (log (LogNetworkError err)) g)
    | Case404 =>
        let g := on_pool (log (Log404 requestURL)) g in
        (false, on_storage (fun s => MarkVisited s requestURL (clock g)) g)
    | CaseBlocked => (true, on_pool (log (LogBlocked statusCode)) g)
    | CaseText => (true, on_pool (log LogTransport) g)
    | CaseDefault => (false, on_pool (log (LogOther err)) g)
    end in
  if shouldRetry then
    let g := if negb (String.eqb proxyURL EmptyString)
             then on_pool (RemoveProxy proxyURL) g else g in
    let g := on_pool (event (EvRetry requestURL)) g in
    on_pool (log (retry_line (colly.Request_ r))) g
  else g.

Definition setupCallbacks_OnError := handle setupCallbacks_case.
Definition setupErrorHandler_OnError := handle setupErrorHandler_case.

(** ** The wording of the specification, for comparison *)

(** The states a request attempt can end in. *)
Inductive Outcome := Success | Retryable | SkipNoMark | SkipAndMark.

(** What a handler does in each case, in the specification's terms. *)
Definition outcome_of (c : Case) : Outcome :=
  match c with
  | CaseZero | CaseBlocked | CaseText => Retryable
  | Case404 => SkipAndMark
  | CaseDefault => SkipNoMark
  end.

(** The classification rule as the specification words it: a failure with no
    response (status zero) is retryable, then not-found, then the blocking
    statuses, then any other error, then success. *)
Definition spec_classify (statusCode : Z) (err : option string) : Outcome :=
  if (statusCode =? 0) && bool_decide (err ≠ None) then Retryable
  else if statusCode =? 404 then SkipAndMark
  else if (statusCode =? 403) || (statusCode =? 429) || (statusCode =? 503) then Retryable
  else if bool_decide (err ≠ None) then SkipNoMark
  else Success.

(** The normalisation as the specification words it: an entry that carries a
    scheme ([scheme://...]) is kept, any other gets the HTTP scheme. *)
Definition spec_has_scheme (entry : string) : bool :=
  match url.getScheme entry with
  | inr (scheme, rest) => negb (String.eqb scheme EmptyString) && strings.HasPrefix rest "//"
  | inl _ => false
  end.

Definition spec_normalize (entry : string) : string :=
  if spec_has_scheme entry then entry else "http://" +:+ entry.

Definition spec_parse (body : string) : list string :=
  map spec_normalize
    (filter (fun line => line ≠ EmptyString)
       (map strings.TrimSpace (strings.Split body strings.LF))).


(** What the loop of [fetchProxies] makes of a line before [formatProxy]:
    trimmed, then every carriage return deleted. *)
Definition clean_line (line : string) : string :=
  strings.ReplaceAll (strings.TrimSpace line) strings.CR EmptyString.

(** The normalisation the code applies: only [http://] and [https://] count
    as a scheme that is already there. *)
Definition amended_normalize (entry : string) : string :=
  if strings.HasPrefix entry "http://" || strings.HasPrefix entry "https://"
  then entry else "http://" +:+ entry.

Definition amended_parse (body : string) : list string :=
  map (fun entry => amended_normalize (strings.TrimSpace entry))
    (filter (fun line => line ≠ EmptyString)
       (map clean_line (strings.Split body strings.LF))).

(** The same body with every line feed turned into carriage return, line
    feed. *)
Definition to_crlf (body : string) : string :=
  strings.ReplaceAll body strings.LF (String strings.CR (String strings.LF EmptyString)).

(** ** Predicates of the statements *)

(** The cursor is never negative and, in a non-empty pool, below its
    length. *)
Definition cursor_ok (p : ProxyManager) : Prop :=
  0 <= currentIndex p /\ (proxies p <> [] -> currentIndex p < len (proxies p)).

(** A Go slice has at most [MaxInt] elements, a Go string at most [MaxInt]
    bytes. *)
Definition pool_fits (p : ProxyManager) : Prop := len (proxies p) <= MaxInt.

Definition supplier_fits (sup : nat -> Reply) : Prop :=
  forall k code body,
    sup k = GetResponse code (ReadOK body) ->
    Z.of_nat (String.length body) < MaxInt.

(** Properties of the receiver that may depend on what the supplier can
    answer, and the methods that keep them. *)
Definition holds (P : ProxyManager -> (nat -> Reply) -> Prop) (s : St) : Prop :=
  P (pm s) (supplier (world s)).

Definition preserves {A} (P : ProxyManager -> (nat -> Reply) -> Prop) (m : M A) : Prop :=
  forall s, holds P s -> holds P (snd (m s)).

(** The invariant of the cursor, with the size bounds Go gives for free. *)
Definition cursor_inv (p : ProxyManager) (sup : nat -> Reply) : Prop :=
  cursor_ok p /\ pool_fits p /\ supplier_fits sup.

Definition has_http_scheme (proxy : string) : Prop :=
  strings.HasPrefix proxy "http://" = true \/ strings.HasPrefix proxy "https://" = true.

Definition pool_schemes (p : ProxyManager) : Prop :=
  Forall has_http_scheme (proxies p).

(** The operations on the pool. *)
Inductive Op :=
| OpNew (apiURL : string) (minThreshold : Z)
| OpGetProxy
| OpRemoveProxy (proxyURL : string)
| OpFetchProxies
| OpAsyncRefresh.

Definition run_op {Tail} (parseTail : string -> string -> string -> option Tail)
  (op : Op) : M unit :=
  match op with
  | OpNew apiURL minThreshold => NewProxyManager apiURL minThreshold
  | OpGetProxy => _ <- GetProxy parseTail ;; ret tt
  | OpRemoveProxy proxyURL => RemoveProxy proxyURL
  | OpFetchProxies => _ <- fetchProxies ;; ret tt
  | OpAsyncRefresh => asyncRefresh
  end.

(** "情况 2" of [GetProxy]: below the threshold a goroutine is started. *)
Definition low_water (s : St) : St :=
  if len (proxies (pm s)) <? minThreshold (pm s)
  then mkSt (pm s) (emit EvGoAsyncRefresh (world s))
  else s.

(** The invariant of the goroutines that run [asyncRefresh], [calls0] being
    the number of requests sent before the first of them started: the mutex
    is held by exactly the goroutines past [Lock], [isRefreshing] is set
    exactly while a request is out, no goroutine has returned at the
    [isRefreshing] test, and every goroutine past the test has sent one
    request. *)
Definition refresh_ok (calls0 : nat) (s : Refresh.Sys) : Prop :=
  let gs := Refresh.goroutines s in
  Refresh.count Refresh.holds_lock gs = (if Refresh.refreshLock s then 1 else 0)%nat
  /\ Refresh.count Refresh.is_in_flight gs
     = (if isRefreshing (pm (Refresh.st s)) then 1 else 0)%nat
  /\ Refresh.count Refresh.skipped gs = 0%nat
  /\ calls (world (Refresh.st s))
     = (calls0 + Refresh.count Refresh.is_in_flight gs
        + Refresh.count Refresh.is_returned gs)%nat.

(** Two triggers, the second arriving while the request of the first is
    out: goroutine 0 locks, passes the test and sends its request; goroutine 1
    is started and blocks on the mutex; the reply arrives and goroutine 0
    returns; goroutine 1 locks, tests, sends and returns. *)
Definition two_triggers : list Refresh.action :=
  [Refresh.Trigger; Refresh.Run 0; Refresh.Run 0;
   Refresh.Trigger; Refresh.Run 1;
   Refresh.Run 0;
   Refresh.Run 1; Refresh.Run 1; Refresh.Run 1].

(** A transport failure the handlers can receive: no response (status 0),
    an error whose text names neither a time-out, nor a refused connection,
    nor an end of file, with the address a proxy function that records it
    would leave in the request; [direct] turns it into the failure of a
    request that recorded none. *)
Definition reset_by_peer : colly.Response * option string :=
  (colly.mkResponse 0
     (colly.mkRequest "https://www.gsmarena.com/apple-phones-48.php" "http://1.1.1.1:80" None),
   Some "read tcp 10.0.0.5:51034->1.1.1.1:80: read: connection reset by peer").

Definition two_proxies : Globals :=
  mkGlobals
    (mkBoltStorage (bolt.mkDB true {[ "visited_urls" := ∅ ]}) "visited_urls")
    (mkProxyManager "http://supplier/get" 2 ["http://1.1.1.1:80"; "http://2.2.2.2:80"] 0 false)
    (mkWorld (fun _ => GetError "unreachable") 0 [])
    "2026-01-01T00:00:00Z".

(** The same response for a request that recorded no proxy address. *)
Definition direct (r : colly.Response) : colly.Response :=
  colly.mkResponse (colly.StatusCode r)
    (colly.mkRequest (colly.URL (colly.Request_ r)) EmptyString
       (colly.Retry (colly.Request_ r))).

Definition blocking (statusCode : Z) : bool :=
  (statusCode =? 403) || (statusCode =? 429) || (statusCode =? 503).

(** A carriage return, as a string. *)
Definition CRs : string := String strings.CR EmptyString.

(** ** Concrete states *)

(** A stand-in for the rest of [url.Parse] that accepts everything and keeps
    the text after the scheme. *)
Definition keep_rest (scheme rest frag : string) : option string := Some rest.

(** A supplier that answers every request with two addresses. *)
Definition two_lines : World :=
  mkWorld
    (fun _ => GetResponse 200 (ReadOK ("4.4.4.4:80" +:+ String strings.LF "5.5.5.5:80")))
    0 [].

(** Three distinct addresses; one [GetProxy] has been served since the
    load. *)
Definition three_proxies : St :=
  mkSt (mkProxyManager "http://supplier/get" 2
          ["http://1.1.1.1:80"; "http://2.2.2.2:80"; "http://3.3.3.3:80"] 1 false)
    two_lines.

(** The same pool with the cursor on its last address. *)
Definition cursor_at_end : St :=
  mkSt (mkProxyManager "http://supplier/get" 2
          ["http://1.1.1.1:80"; "http://2.2.2.2:80"; "http://3.3.3.3:80"] 2 false)
    two_lines.

Definition empty_pool : St :=
  mkSt (mkProxyManager "http://supplier/get" 2 [] 0 false) two_lines.

(** The reply the next request to the supplier will get. *)
Definition next_reply (s : St) : Reply := supplier (world s) (calls (world s)).

(** What [fetchProxies] leaves in the receiver: the parsed body with cursor
    0 after a 200 reply whose body could be read, the receiver as it was
    otherwise. *)
Definition fetched (reply : Reply) (p : ProxyManager) : option error * ProxyManager :=
  match reply with
  | GetError cause => (Some (ErrRequest cause), p)
  | GetResponse code Body =>
      if code =? 200 then
        match Body with
        | ReadOK body => (None, set_pool (parseProxies body) 0 p)
        | ReadFailed cause => (Some (ErrReadBody cause), p)
        end
      else (Some (ErrStatus code), p)
  end.

(** What [RemoveProxy] leaves in the receiver when the first occurrence of
    the address splits the pool into [before] and [after]. *)
Definition removed (before after : list string) (p : ProxyManager) : ProxyManager :=
  let shrunk := before ++ after in
  set_pool shrunk
    (if (currentIndex p >=? len shrunk) && (len shrunk >? 0) then 0 else currentIndex p) p.

(** * The rest of the program *)

(** ** [storage.go]: [GetStats] *)

(** [b.Stats().KeyN]: the number of keys of a bucket. *)
Definition KeyN (b : gmap string string) : Z := Z.of_nat (size b).

(** The two results of [GetStats]: [count] keeps its zero value when the
    view fails. *)
Definition GetStats (s : BoltStorage) : Z * option StorageError :=
  match bolt.View (ErrBolt bolt.ErrDatabaseNotOpen) (db s) (fun tx =>
          match tx !! bucketName s with
          | None => inl ErrNoBucket
          | Some b => inr (KeyN b)
          end) with
  | inl e => (0, Some e)
  | inr count => (count, None)
  end.

(** A store whose database is open and has the bucket. *)
Definition usable (s : BoltStorage) : Prop :=
  bolt.opened (db s) = true /\ is_Some (bolt.file (db s) !! bucketName s).

(** A store on an empty file, and one with a URL marked. *)
Definition fresh_store : BoltStorage :=
  mkBoltStorage (bolt.mkDB true {[ "visited_urls" := ∅ ]}) "visited_urls".

Definition iphone_url : string := "https://www.gsmarena.com/apple_iphone_15-12559.php".

Definition marked_store : BoltStorage :=
  snd (MarkVisited fresh_store iphone_url "2026-01-01T00:00:00Z").

(** ** [proxy_pool.go]: [Count], [GetAll] and the critical sections *)

Definition Count : M Z :=
  p <- self ;; ret (len (proxies p)).

(** [GetAll]: a fresh slice with the elements of the pool. *)
Definition GetAll : M (list string) :=
  p <- self ;; ret (proxies p).

(** What a goroutine does to the receiver between taking and releasing
    [pm.lock] (or [refreshLock], for the flag): the selection of [GetProxy],
    [RemoveProxy], the replacement at the end of [fetchProxies] with the
    request before it, and the two writes of [isRefreshing].  Every run of
    the program is a sequence of these. *)
Inductive Critical :=
| CritSelect
| CritRemove (proxyURL : string)
| CritFetch
| CritFlag (b : bool).

Definition run_critical {Tail} (parseTail : string -> string -> string -> option Tail)
  (c : Critical) : M unit :=
  match c with
  | CritSelect => _ <- GetProxy_select parseTail ;; ret tt
  | CritRemove proxyURL => RemoveProxy proxyURL
  | CritFetch => _ <- fetchProxies ;; ret tt
  | CritFlag b => update (set_isRefreshing b)
  end.

Fixpoint run_all {Tail} (parseTail : string -> string -> string -> option Tail)
  (cs : list Critical) : M unit :=
  match cs with
  | [] => ret tt
  | c :: cs' => run_critical parseTail c ;;; run_all parseTail cs'
  end.

(** The events [RemoveProxy] appends to the trace. *)
Definition removal_events (proxyURL : string) (p : ProxyManager) : list Event :=
  if bool_decide (proxyURL ∈ proxies p) then
    EvLog (LogRemoved proxyURL (len (proxies p) - 1))
    :: (if len (proxies p) - 1 <? minThreshold p then [EvGoAsyncRefresh] else [])
  else [EvLog (LogNotInPool proxyURL)].

(** ** White space, for the statements about [formatProxy] *)

(** The white-space rune a string begins with, removed: what one turn of
    the loop of [strings.TrimLeft] does. *)
Definition peel (s : string) : option string :=
  match s with
  | EmptyString => None
  | String c0 s1 =>
      if strings.asciiSpace c0 then Some s1
      else match s1 with
           | EmptyString => None
           | String c1 s2 =>
               if strings.space2 c0 c1 then Some s2
               else match s2 with
                    | EmptyString => None
                    | String c2 s3 =>
                        if strings.space3 c0 c1 c2 then Some s3 else None
                    end
           end
  end.

(** Only ASCII white space (line feeds included). *)
Fixpoint blank (s : string) : bool :=
  match s with
  | EmptyString => true
  | String c s' => strings.asciiSpace c && blank s'
  end.

Fixpoint has_byte (c : ascii) (s : string) : bool :=
  match s with
  | EmptyString => false
  | String c' s' => Ascii.eqb c' c || has_byte c s'
  end.

(** A body that lists the given entries, one per line. *)
Fixpoint unlines (entries : list string) : string :=
  match entries with
  | [] => EmptyString
  | entry :: rest => entry +:+ String strings.LF (unlines rest)
  end.

(** An address as [fetchProxies] puts it into the pool: no line break in it,
    nothing for the loop to clean, and already formatted. *)
Definition settled (entry : string) : Prop :=
  has_byte strings.LF entry = false /\ clean_line entry = entry
  /\ entry <> EmptyString /\ formatProxy entry = entry.

(** Blocking points a goroutine of [asyncRefresh] still has before it
    returns, and their total over all goroutines. *)
Definition todo (c : Refresh.pc) : nat :=
  match c with
  | Refresh.AtLock => 3
  | Refresh.AtCheck => 2
  | Refresh.InFlight _ => 1
  | Refresh.Returned _ => 0
  end.

Fixpoint work (gs : list Refresh.pc) : nat :=
  match gs with
  | [] => 0
  | g :: gs' => todo g + work gs'
  end.

(** ** Responses for the statements about [OnError] *)

(** A page that does not exist and a request the site refused, as colly
    hands them to the handlers of this program: [GetProxy] leaves the request
    context alone, so that no proxy address is recorded. *)
Definition not_found : colly.Response :=
  colly.mkResponse 404 (colly.mkRequest iphone_url EmptyString None).

Definition forbidden : colly.Response :=
  colly.mkResponse 403 (colly.mkRequest iphone_url EmptyString None).

(** A supplier whose one address holds a control byte, and the pool
    [fetchProxies] makes of its reply. *)
Definition control_byte : string := "1.1.1.1:80" +:+ String "001" "x".

Definition odd_supplier : St :=
  mkSt (mkProxyManager "http://supplier/get" 1 [] 0 false)
    (mkWorld (fun _ => GetResponse 200 (ReadOK control_byte)) 0 []).

Definition odd_pool : St := mkSt (pm (snd (fetchProxies odd_supplier))) (world odd_supplier).

(** The two handlers of the repository. *)
Definition OnError_handlers : list (colly.Response -> option string -> Globals -> Globals) :=
  [setupCallbacks_OnError; setupErrorHandler_OnError].

(** ** [main.go]: the [OnHTML] handlers, [extractBrandFromURL], [savePhone] *)

(** [strings.Split s sep] for a separator of one byte or more
    ([Split(lastPart, "-phones-")]): the occurrences of [sep] are found from
    the left and do not overlap; [skip] bytes of the occurrence just found
    are still to be dropped. *)
Fixpoint SplitString (s sep : string) (skip : nat) : list string :=
  match s with
  | EmptyString => [EmptyString]
  | String c s' =>
      match skip with
      | S k => SplitString s' sep k
      | O =>
          if strings.HasPrefix s sep
          then EmptyString :: SplitString s' sep (String.length sep - 1)
          else match SplitString s' sep 0 with
               | piece :: pieces => String c piece :: pieces
               | [] => [String c EmptyString]
               end
      end
  end.

Module crawl.

Record Phone := mkPhone {
  ModelName : string;
  Brand : string;
  ReleaseDate : string;
  URL : string;
  Specs : gmap string string;
  CrawledAt : string
}.

(** The lines the handlers and [savePhone] write with [log.Printf]. *)
Inductive Line :=
| LineBrand (brandName brandURL : string)   (* "[品牌] %s -> %s" *)
| LineSkip (phoneURL : string)              (* "[跳过] 已访问: %s" *)
| LineFound (phoneURL : string)             (* "[发现] 手机详情页: %s" *)
| LineNextPage (nextPageURL : string)       (* "[翻页] %s" *)
| LineMarshalFailed (err : string)          (* "[错误] JSON 序列化失败: %v" *)
| LineWriteFailed                           (* "[错误] 写入文件失败: %v" *)
| LineSaved (modelName brand : string)      (* "[保存] %s (%s)" *)
| LineMarkFailed (err : StorageError)       (* "[错误] 标记 URL 失败: %v" *)
| LineScraped (phoneURL : string).          (* "[成功] 已抓取并标记: %s" *)

Inductive Action :=
| Printf (l : Line)
| Visit (url : string).       (* [Request.Visit(url)]; its result is dropped *)

(** What a [Write] to the output file does: all bytes go out, or an error
    comes after the first [n] of them. *)
Inductive Written :=
| WriteOK
| WriteShort (n : nat).

(** The package-level [storage] and [outputFile] (by its content), the
    outcome the [k]-th [Write] will have, the [k]-th reading of
    [time.Now().Format(time.RFC3339)], and what the handlers did so far,
    oldest first. *)
Record State := mkState {
  storage : BoltStorage;
  outputFile : string;
  disk : nat -> Written;
  writes : nat;
  now : nat -> string;
  ticks : nat;
  actions : list Action
}.

Definition act (a : Action) (c : State) : State :=
  mkState (storage c) (outputFile c) (disk c) (writes c) (now c) (ticks c) (actions c ++ [a]).

Definition printf (l : Line) : State -> State := act (Printf l).
Definition visit (url : string) : State -> State := act (Visit url).

Definition time_Now (c : State) : string * State :=
  (now c (ticks c),
   mkState (storage c) (outputFile c) (disk c) (writes c) (now c) (S (ticks c)) (actions c)).

(** [outputFile.Write(b)]: the error, and the file with the bytes that got
    out appended. *)
Definition Write (b : string) (c : State) : bool * State :=
  let out := match disk c (writes c) with
             | WriteOK => b
             | WriteShort n => substring 0 n b
             end in
  (match disk c (writes c) with WriteOK => false | WriteShort _ => true end,
   mkState (storage c) (outputFile c +:+ out) (disk c) (S (writes c)) (now c) (ticks c)
     (actions c)).

Definition set_storage (s : BoltStorage) (c : State) : State :=
  mkState s (outputFile c) (disk c) (writes c) (now c) (ticks c) (actions c).

(** The URLs passed to [Visit], in call order. *)
Definition visits (acts : list Action) : list string :=
  omap (fun a => match a with Visit url => Some url | Printf _ => None end) acts.

(** An [a] element: its text and [Request.AbsoluteURL(Attr("href"))]. *)
Record Anchor := mkAnchor { Text : string; href : string }.

(** The element the handler of [".specs-phone-name-title, #specs-list"] is
    called with: [Request.URL.Path], [Request.URL.String()], [Attr("id")],
    the text of [.specs-phone-name-title] under the ancestors below [body],
    and for every [table tr] inside it, in document order, [ChildText(".ttl")]
    and [ChildText(".nfo")]. *)
Record Element := mkElement {
  Path : string;
  RequestURL : string;
  id : string;
  title : string;
  rows : list (string * string)
}.

(** The body of [e.ForEach("table tr", ...)], as a step on [specs]. *)
Definition specs_row (specs : gmap string string) (row : string * string)
  : gmap string string :=
  let key := strings.TrimSpace (fst row) in
  let value := strings.TrimSpace (snd row) in
  if negb (String.eqb key EmptyString) then <[key := value]> specs else specs.

(** [specs["Released"]], with "Unknown" for the empty string a missing key
    gives. *)
Definition release_date (specs : gmap string string) : string :=
  let releaseDate := default EmptyString (specs !! "Released") in
  if String.eqb releaseDate EmptyString then "Unknown" else releaseDate.

(** The [Phone] the handler builds. *)
Definition build_phone (e : Element) (brand crawledAt : string) : Phone :=
  let specs := fold_left specs_row (rows e) ∅ in
  mkPhone (strings.TrimSpace (title e)) brand (release_date specs) (RequestURL e)
    specs crawledAt.

Section Handlers.
(** [strings.ToLower], [strings.Title] and [json.Marshal] on a [Phone] (the
    encoding, or the text of the error). *)
Context (ToLower Title : string -> string) (Marshal : Phone -> string + string).

(** [extractBrandFromURL]; [None] stands for the panic of an index out of
    range. *)
Definition extractBrandFromURL (url : string) : option string :=
  let parts := strings.Split url "/" in
  if len parts >? 0 then
    match index parts (len parts - 1) with
    | None => None
    | Some lastPart =>
        let brandPart := SplitString lastPart "-phones-" 0 in
        if len brandPart >? 0 then
          match index brandPart 0 with
          | None => None
          | Some brandPart0 =>
              let brand := strings.ReplaceAll brandPart0 "-" " " in
              Some (Title (ToLower brand))
          end
        else Some "Unknown"
    end
  else Some "Unknown".

Definition savePhone (phone : Phone) (c : State) : State :=
  match Marshal phone with
  | inl err => printf (LineMarshalFailed err) c
  | inr data =>
      let (failed, c) := Write (data +:+ String strings.LF EmptyString) c in
      if failed then printf LineWriteFailed c
      else printf (LineSaved (ModelName phone) (Brand phone)) c
  end.

(** The handler of [".st-text"]. *)
Definition OnHTML_st_text (brandName brandURL : string) (c : State) : State :=
  if negb (String.eqb brandURL EmptyString) && strings.Contains brandURL ".php"
  then visit brandURL (printf (LineBrand brandName brandURL) c)
  else c.

(** The handler of [".makers"]: the two [ForEach] bodies, then the
    handler on the [li a] and the [.nav-pages a] elements of the page. *)
Definition makers_link (c : State) (phoneURL : string) : State :=
  if IsVisited (storage c) phoneURL then printf (LineSkip phoneURL) c
  else visit phoneURL (printf (LineFound phoneURL) c).

Definition is_next (el : Anchor) : bool := strings.Contains (ToLower (Text el)) "next".

Definition makers_nav (c : State) (el : Anchor) : State :=
  if is_next el
  then visit (href el) (printf (LineNextPage (href el)) c)
  else c.

Definition OnHTML_makers (links : list string) (navs : list Anchor) (c : State) : State :=
  fold_left makers_nav navs (fold_left makers_link links c).

(** The handler of [".specs-phone-name-title, #specs-list"]; [None] stands
    for a panic. *)
Definition OnHTML_specs (e : Element) (c : State) : option State :=
  if String.eqb (Path e) "/makers.php3" then Some c
  else if negb (String.eqb (id e) "specs-list") then Some c
  else
    let phoneURL := RequestURL e in
    if IsVisited (storage c) phoneURL then Some c
    else
      match extractBrandFromURL phoneURL with
      | None => None
      | Some brand =>
          let (crawledAt, c) := time_Now c in
          let phone := build_phone e brand crawledAt in
          let c := savePhone phone c in
          let (timestamp, c) := time_Now c in
          let (err, s) := MarkVisited (storage c) phoneURL timestamp in
          let c := set_storage s c in
          match err with
          | Some err => Some (printf (LineMarkFailed err) c)
          | None => Some (printf (LineScraped phoneURL) c)
          end
      end.

End Handlers.

(** ** The three-stage variant: the link list of [fetchPhoneLinks] and the
    loop of [fetchPhoneDetails] *)

(** The body of [e.ForEach("li a", ...)] in [fetchPhoneLinks], as a step on
    [phoneLinks]: the scan for a duplicate, then the [append]. *)
Definition add_link (phoneLinks : list string) (phoneURL : string) : list string :=
  let isDuplicate := existsb (String.eqb phoneURL) phoneLinks in
  if negb isDuplicate then phoneLinks ++ [phoneURL] else phoneLinks.

(** [phoneLinks] at the end of [fetchPhoneLinks]: the handlers of the
    pages run side by side and take [linksMutex] link by link, [found]
    being the links in the order the mutex was taken. *)
Definition collect_links (found : list string) : list string :=
  fold_left add_link found [].

(** The loop at the end of [fetchPhoneDetails]: the URLs it passes to
    [c.Visit].  The handlers run while the loop does, so that the store the
    [i]-th turn reads is [seen i]. *)
Fixpoint details_loop (seen : nat -> BoltStorage) (i : nat) (phoneLinks : list string)
  : list string :=
  match phoneLinks with
  | [] => []
  | phoneURL :: rest =>
      if IsVisited (seen i) phoneURL then details_loop seen (S i) rest
      else phoneURL :: details_loop seen (S i) rest
  end.

End crawl.

(** ** Concrete states for the rest of the program *)

(** A pool whose supplier answers with blank lines only. *)
Definition only_blank_lines : St :=
  mkSt (pm three_proxies)
    (mkWorld (fun _ => GetResponse 200 (ReadOK (" " +:+ String strings.LF "  ")))
       0 []).

(** The critical sections of a short run: a selection, an eviction, a
    refresh and another selection. *)
Definition short_run : list Critical :=
  [CritSelect; CritRemove "http://4.4.4.4:80"; CritFetch; CritSelect].

(** A crawl that has marked and written nothing yet, on a disk that takes
    every write, and the detail page of a phone. *)
Definition crawl_start : crawl.State :=
  crawl.mkState fresh_store EmptyString (fun _ => crawl.WriteOK) 0
    (fun _ => "2026-01-01T00:00:00Z") 0 [].

Definition iphone_page : crawl.Element :=
  crawl.mkElement "/apple_iphone_15-12559.php" iphone_url "specs-list" " Apple iPhone 15 "
    [(" Released", "2023, September 22 "); ("Weight", "171 g")].

(** Stand-ins for [strings.ToLower], [strings.Title] and [json.Marshal]. *)
Definition same_case (s : string) : string := s.
Definition name_only (phone : crawl.Phone) : string + string := inr (crawl.ModelName phone).

(** * Facts *)

(** ** Go integers and slices *)

Lemma wrap_int_small z : - 2 ^ 63 <= z <= MaxInt -> wrap_int z = z.
Proof.
  unfold wrap_int, MaxInt. intros Hz.
  rewrite Z.mod_small by lia. lia.
Qed.

Lemma len_nonneg {A} (l : list A) : 0 <= len l.
Proof. unfold len. lia. Qed.

Lemma len_nil_iff {A} (l : list A) : len l = 0 <-> l = [].
Proof. unfold len. destruct l; simpl; split; intros; try done; lia. Qed.

Lemma index_Some {A} (l : list A) (i : Z) :
  0 <= i < len l -> index l i = l !! Z.to_nat i.
Proof.
  unfold index. intros [H0 H1].
  destruct (i <? 0) eqn:E0; [lia|].
  destruct (len l <=? i) eqn:E1; [lia|]. done.
Qed.

(** ** [fetchProxies] *)

Lemma fetchProxies_unfold s :
  fetchProxies s =
  fetchProxies_reply (next_reply s)
    (mkSt (pm s) (mkWorld (supplier (world s)) (S (calls (world s)))
                    ((trace (world s) ++ [EvLog (LogFetching (apiURL (pm s)))])
                       ++ [EvGet (apiURL (pm s))]))).
Proof. reflexivity. Qed.

Lemma fetchProxies_calls s : calls (world (snd (fetchProxies s))) = S (calls (world s)).
Proof.
  rewrite fetchProxies_unfold. unfold fetchProxies_reply.
  destruct (next_reply s) as [cause|code [body|cause]]; try reflexivity;
    destruct (code =? 200); reflexivity.
Qed.

Lemma fetchProxies_supplier s : supplier (world (snd (fetchProxies s))) = supplier (world s).
Proof.
  rewrite fetchProxies_unfold. unfold fetchProxies_reply.
  destruct (next_reply s) as [cause|code [body|cause]]; try reflexivity;
    destruct (code =? 200); reflexivity.
Qed.

Lemma fetchProxies_fetched s :
  (fst (fetchProxies s), pm (snd (fetchProxies s))) = fetched (next_reply s) (pm s).
Proof.
  rewrite fetchProxies_unfold. unfold fetchProxies_reply, fetched.
  destruct (next_reply s) as [cause|code [body|cause]]; try reflexivity;
    destruct (code =? 200); reflexivity.
Qed.

(** C3. [fetchProxies] is atomic with respect to failure: when the request
    errors, the status is not 200, or the body cannot be read, it returns the
    error and the receiver (pool and cursor included) is exactly what it was;
    on success the pool is the parsed body, whatever it held before, and the
    cursor is 0. *)
Theorem fetchProxies_atomic (s : St) :
  let err := fst (fetchProxies s) in
  let p' := pm (snd (fetchProxies s)) in
  match next_reply s with
  | GetError cause => err = Some (ErrRequest cause) /\ p' = pm s
  | GetResponse code Body =>
      if code =? 200 then
        match Body with
        | ReadOK body =>
            err = None /\ proxies p' = parseProxies body /\ currentIndex p' = 0
            /\ apiURL p' = apiURL (pm s) /\ minThreshold p' = minThreshold (pm s)
        | ReadFailed cause => err = Some (ErrReadBody cause) /\ p' = pm s
        end
      else err = Some (ErrStatus code) /\ p' = pm s
  end.
Proof.
  intros err p'. subst err p'.
  pose proof (fetchProxies_fetched s) as H. unfold fetched in H.
  destruct (next_reply s) as [cause|code [body|cause]];
    [|destruct (code =? 200)..]; inversion H as [[He Hp]]; rewrite ?He, ?Hp; auto.
Qed.

(** A 200 reply with an empty body is a success: the pool becomes empty. *)
Lemma fetchProxies_empty_body s :
  next_reply s = GetResponse 200 (ReadOK EmptyString) ->
  fst (fetchProxies s) = None /\ proxies (pm (snd (fetchProxies s))) = [].
Proof.
  intros Hreply. pose proof (fetchProxies_fetched s) as H.
  rewrite Hreply in H. simpl in H. inversion H as [[He Hp]].
  split; [reflexivity|]. rewrite Hp. reflexivity.
Qed.

(** ** [RemoveProxy] *)

Lemma find_proxy_None proxyURL i ps :
  find_proxy proxyURL i ps = None <-> proxyURL ∉ ps.
Proof.
  revert i. induction ps as [|proxy rest IH]; intros i; simpl.
  - split; [intros _; apply not_elem_of_nil|done].
  - destruct (String.eqb_spec proxy proxyURL) as [->|Hne].
    + split; [done|]. intros H. exfalso. apply H. left.
    + rewrite IH, not_elem_of_cons. intuition congruence.
Qed.

Lemma find_proxy_first proxyURL i before after :
  proxyURL ∉ before ->
  find_proxy proxyURL i (before ++ proxyURL :: after) = Some (i + length before)%nat.
Proof.
  revert i. induction before as [|proxy rest IH]; intros i Hnotin; simpl.
  - rewrite String.eqb_refl. f_equal. lia.
  - apply not_elem_of_cons in Hnotin as [Hne Hrest].
    destruct (String.eqb_spec proxy proxyURL) as [->|_]; [done|].
    rewrite IH by done. f_equal. lia.
Qed.

Lemma first_occurrence (x : string) (l : list string) :
  x ∈ l -> exists before after, l = before ++ x :: after /\ x ∉ before.
Proof.
  induction l as [|y l IH]; intros Hin.
  - by apply elem_of_nil in Hin.
  - destruct (decide (y = x)) as [->|Hne].
    + exists [], l. split; [done|apply not_elem_of_nil].
    + apply elem_of_cons in Hin as [->|Hin]; [done|].
      destruct (IH Hin) as (before & after & -> & Hnotin).
      exists (y :: before), after. split; [done|].
      apply not_elem_of_cons. split; [congruence|done].
Qed.

Lemma RemoveProxy_absent proxyURL s :
  proxyURL ∉ proxies (pm s) ->
  RemoveProxy proxyURL s
  = (tt, mkSt (pm s) (emit (EvLog (LogNotInPool proxyURL)) (world s))).
Proof.
  intros Hnotin. apply find_proxy_None with (i := 0%nat) in Hnotin.
  unfold RemoveProxy, bind, self. rewrite Hnotin. reflexivity.
Qed.

Lemma RemoveProxy_present proxyURL s before after :
  proxies (pm s) = before ++ proxyURL :: after ->
  proxyURL ∉ before ->
  pm (snd (RemoveProxy proxyURL s)) = removed before after (pm s)
  /\ calls (world (snd (RemoveProxy proxyURL s))) = calls (world s)
  /\ supplier (world (snd (RemoveProxy proxyURL s))) = supplier (world s).
Proof.
  intros Hsplit Hnotin.
  unfold RemoveProxy, bind, self. rewrite Hsplit.
  rewrite (find_proxy_first proxyURL 0 before after Hnotin). simpl.
  rewrite take_app_length.
  replace (before ++ proxyURL :: after) with ((before ++ [proxyURL]) ++ after)
    by (rewrite <- app_assoc; reflexivity).
  replace (S (length before)) with (length (before ++ [proxyURL]))
    by (rewrite length_app; simpl; lia).
  rewrite drop_app_length.
  unfold removed. simpl.
  destruct ((currentIndex (pm s) >=? len (before ++ after)) && (len (before ++ after) >? 0));
    destruct (len (before ++ after) <? minThreshold (pm s)); simpl; auto.
Qed.

(** C9. Evicting an address that is not in the pool leaves the receiver
    (pool and cursor included) as it was and only writes the warning to the
    log; evicting an address that is in the pool removes its first
    occurrence and nothing else. *)
Theorem RemoveProxy_frame (proxyURL : string) (s : St) :
  (proxyURL ∉ proxies (pm s) ->
   pm (snd (RemoveProxy proxyURL s)) = pm s
   /\ world (snd (RemoveProxy proxyURL s)) = emit (EvLog (LogNotInPool proxyURL)) (world s))
  /\ (forall before after,
        proxies (pm s) = before ++ proxyURL :: after ->
        proxyURL ∉ before ->
        proxies (pm (snd (RemoveProxy proxyURL s))) = before ++ after).
Proof.
  split.
  - intros Hnotin. rewrite (RemoveProxy_absent _ _ Hnotin). done.
  - intros before after Hsplit Hnotin.
    destruct (RemoveProxy_present _ _ _ _ Hsplit Hnotin) as (-> & _). reflexivity.
Qed.

(** ** Methods that keep a property of the receiver *)

Create HintDb keeps.

Lemma bind_snd {A B} (m : M A) (k : A -> M B) s :
  bind m k s = k (fst (m s)) (snd (m s)).
Proof. unfold bind. destruct (m s). reflexivity. Qed.

Lemma preserves_ret {A} P (a : A) : preserves P (ret a).
Proof. intros s H. exact H. Qed.

Lemma preserves_bind {A B} P (m : M A) (k : A -> M B) :
  preserves P m -> (forall a, preserves P (k a)) -> preserves P (bind m k).
Proof.
  intros Hm Hk s H. rewrite bind_snd. apply Hk, Hm, H.
Qed.

Lemma preserves_self P : preserves P self.
Proof. intros s H. exact H. Qed.

Lemma preserves_event P e : preserves P (event e).
Proof. intros s H. exact H. Qed.

Lemma preserves_log P l : preserves P (log l).
Proof. apply preserves_event. Qed.

Lemma preserves_send_Get P u : preserves P (send_Get u).
Proof. intros s H. exact H. Qed.

Lemma preserves_update P f :
  (forall p sup, P p sup -> P (f p) sup) -> preserves P (update f).
Proof. intros Hf s H. apply Hf, H. Qed.

Lemma preserves_fetchProxies_recv P k :
  (forall p sup k code body,
      P p sup -> sup k = GetResponse code (ReadOK body) ->
      P (set_pool (parseProxies body) 0 p) sup) ->
  preserves P (fetchProxies_recv k).
Proof.
  intros Hset s H. unfold fetchProxies_recv, recv_Get, bind, fetchProxies_reply.
  destruct (supplier (world s) k) as [cause|code [body|cause]] eqn:Hreply;
    [|destruct (code =? 200)..]; try exact H.
  unfold holds. simpl. eapply Hset; [exact H|exact Hreply].
Qed.

Lemma preserves_fetchProxies_send P : preserves P fetchProxies_send.
Proof. intros s H. exact H. Qed.

#[export] Hint Resolve preserves_ret preserves_self preserves_event preserves_log
  preserves_send_Get : keeps.

(** A property that does not look at [isRefreshing] and holds of every
    freshly parsed pool is kept by every method but the cursor step of
    [GetProxy], which is handled for each property on its own. *)
Section Keeps.
Context (P : ProxyManager -> (nat -> Reply) -> Prop).
Hypothesis P_flag : forall p sup b, P p sup -> P (set_isRefreshing b p) sup.
Hypothesis P_parsed : forall p sup k code body,
    P p sup -> sup k = GetResponse code (ReadOK body) ->
    P (set_pool (parseProxies body) 0 p) sup.

Lemma keeps_fetchProxies : preserves P fetchProxies.
Proof.
  apply preserves_bind; [apply preserves_fetchProxies_send|].
  intros k. apply preserves_fetchProxies_recv, P_parsed.
Qed.

Lemma keeps_asyncRefresh_send : preserves P asyncRefresh_send.
Proof.
  unfold asyncRefresh_send.
  apply preserves_bind; [apply preserves_update; auto|intros _].
  apply preserves_bind; [auto with keeps|intros _].
  apply preserves_fetchProxies_send.
Qed.

Lemma keeps_asyncRefresh_recv k : preserves P (asyncRefresh_recv k).
Proof.
  unfold asyncRefresh_recv.
  apply preserves_bind; [apply preserves_fetchProxies_recv, P_parsed|].
  intros err. apply preserves_bind; [destruct err; auto with keeps|].
  intros _. apply preserves_update; auto.
Qed.

Lemma keeps_asyncRefresh : preserves P asyncRefresh.
Proof.
  unfold asyncRefresh.
  apply preserves_bind; [auto with keeps|]. intros p.
  destruct (isRefreshing p); [auto with keeps|].
  apply preserves_bind; [apply keeps_asyncRefresh_send|].
  intros k. apply keeps_asyncRefresh_recv.
Qed.

Hypothesis P_new : forall p sup u t,
    P p sup -> P (mkProxyManager u t [] 0 false) sup.

Lemma keeps_NewProxyManager u t : preserves P (NewProxyManager u t).
Proof.
  unfold NewProxyManager.
  apply preserves_bind; [intros s H; eapply P_new, H|]. intros _.
  apply preserves_bind; [auto with keeps|]. intros _.
  apply preserves_bind; [apply keeps_fetchProxies|]. intros [e|].
  - auto with keeps.
  - apply preserves_bind; auto with keeps.
Qed.

Hypothesis P_removed : forall p sup before x after,
    P p sup -> proxies p = before ++ x :: after ->
    P (removed before after p) sup.
Hypothesis P_next : forall p sup,
    P p sup -> proxies p <> [] -> 0 <= currentIndex p < len (proxies p) ->
    P (set_currentIndex (Z.rem (int_add (currentIndex p) 1) (len (proxies p))) p) sup.

Lemma keeps_RemoveProxy proxyURL : preserves P (RemoveProxy proxyURL).
Proof.
  intros s H. unfold holds.
  destruct (decide (proxyURL ∈ proxies (pm s))) as [Hin|Hnotin].
  - destruct (first_occurrence _ _ Hin) as (before & after & Hsplit & Hfirst).
    destruct (RemoveProxy_present _ _ _ _ Hsplit Hfirst) as (-> & _ & ->).
    eapply P_removed; [exact H|exact Hsplit].
  - rewrite (RemoveProxy_absent _ _ Hnotin). exact H.
Qed.

Context {Tail : Type} (parseTail : string -> string -> string -> option Tail).

Lemma keeps_GetProxy_select : preserves P (GetProxy_select parseTail).
Proof.
  intros s H. unfold GetProxy_select, bind, self.
  destruct (len (proxies (pm s)) =? 0) eqn:Hlen; [exact H|].
  apply Z.eqb_neq in Hlen.
  unfold index.
  destruct ((currentIndex (pm s) <? 0) || (len (proxies (pm s)) <=? currentIndex (pm s)))
    eqn:Hrange; [exact H|].
  apply orb_false_iff in Hrange as [Hlo Hhi].
  apply Z.ltb_ge in Hlo. apply Z.leb_gt in Hhi.
  destruct (proxies (pm s) !! Z.to_nat (currentIndex (pm s))) as [proxyStr|]; [|exact H].
  unfold holds. simpl. apply P_next; [exact H| |lia].
  intros Hnil. rewrite Hnil in Hlen. done.
Qed.

Lemma keeps_GetProxy : preserves P (GetProxy parseTail).
Proof.
  unfold GetProxy.
  apply preserves_bind; [auto with keeps|]. intros p.
  apply preserves_bind.
  - destruct (len (proxies p) =? 0); [|auto with keeps].
    apply preserves_bind; [auto with keeps|]. intros _.
    apply preserves_bind; [apply keeps_fetchProxies|]. intros [e|]; [auto with keeps|].
    apply preserves_bind; [auto with keeps|]. intros p'.
    destruct (len (proxies p') =? 0); auto with keeps.
  - intros [e|proxyCount]; [auto with keeps|].
    apply preserves_bind; [|intros _; apply keeps_GetProxy_select].
    destruct (proxyCount <? minThreshold p); auto with keeps.
Qed.

Lemma keeps_run_op op : preserves P (run_op parseTail op).
Proof.
  destruct op; simpl.
  - apply keeps_NewProxyManager.
  - apply preserves_bind; [apply keeps_GetProxy|auto with keeps].
  - apply keeps_RemoveProxy.
  - apply preserves_bind; [apply keeps_fetchProxies|auto with keeps].
  - apply keeps_asyncRefresh.
Qed.
End Keeps.

(** ** The cursor *)

Lemma length_Split s sep : (length (strings.Split s sep) <= S (String.length s))%nat.
Proof.
  induction s as [|c s IH]; simpl; [lia|].
  destruct (Ascii.eqb c sep); simpl; [lia|].
  destruct (strings.Split s sep); simpl in *; lia.
Qed.

Lemma length_fetch_lines lines acc :
  (length (fold_left fetch_line lines acc) <= length acc + length lines)%nat.
Proof.
  revert acc. induction lines as [|line lines IH]; intros acc; simpl; [lia|].
  etransitivity; [apply IH|].
  unfold fetch_line.
  destruct (String.eqb _ EmptyString); [lia|].
  destruct (negb _); rewrite ?length_app; simpl; lia.
Qed.

Lemma len_parseProxies body :
  len (parseProxies body) <= Z.of_nat (String.length body) + 1.
Proof.
  unfold len, parseProxies.
  pose proof (length_fetch_lines (strings.Split body strings.LF) []) as H1.
  pose proof (length_Split body strings.LF) as H2. simpl in H1. lia.
Qed.

Lemma cursor_inv_flag p sup b : cursor_inv p sup -> cursor_inv (set_isRefreshing b p) sup.
Proof. intros H. exact H. Qed.

Lemma cursor_inv_parsed p sup k code body :
  cursor_inv p sup -> sup k = GetResponse code (ReadOK body) ->
  cursor_inv (set_pool (parseProxies body) 0 p) sup.
Proof.
  intros (_ & _ & Hsup) Hreply. repeat split; simpl; try done.
  - intros Hne. pose proof (len_nonneg (parseProxies body)).
    assert (len (parseProxies body) <> 0) by (rewrite len_nil_iff; done). lia.
  - unfold pool_fits. simpl.
    pose proof (len_parseProxies body). pose proof (Hsup _ _ _ Hreply). lia.
Qed.

Lemma cursor_ok_removed before after p :
  0 <= currentIndex p -> cursor_ok (removed before after p).
Proof.
  intros Hidx. unfold cursor_ok, removed. simpl.
  destruct (currentIndex p >=? len (before ++ after)) eqn:Hge; simpl;
    [destruct (len (before ++ after) >? 0) eqn:Hpos; simpl|].
  - apply Z.gtb_lt in Hpos. split; [lia|]. intros _; lia.
  - split; [done|]. intros Hne.
    assert (len (before ++ after) <> 0) by (rewrite len_nil_iff; done).
    pose proof (len_nonneg (before ++ after)).
    rewrite Z.gtb_ltb in Hpos. apply Z.ltb_ge in Hpos. lia.
  - rewrite Z.geb_leb in Hge. apply Z.leb_gt in Hge. split; [done|]. intros _; lia.
Qed.

Lemma cursor_inv_removed p sup before x after :
  cursor_inv p sup -> proxies p = before ++ x :: after ->
  cursor_inv (removed before after p) sup.
Proof.
  intros ((Hidx & _) & Hfits & Hsup) Hsplit. split; [|split]; [| |done].
  - apply cursor_ok_removed, Hidx.
  - unfold pool_fits, removed, len in *. simpl. rewrite Hsplit in Hfits.
    rewrite length_app in *. simpl in Hfits. lia.
Qed.

Lemma next_index_bounds idx n :
  0 <= idx < n -> n <= MaxInt ->
  Z.rem (int_add idx 1) n = (idx + 1) mod n /\ 0 <= Z.rem (int_add idx 1) n < n.
Proof.
  intros Hidx Hn. unfold int_add.
  rewrite wrap_int_small by (unfold MaxInt in *; lia).
  rewrite Z.rem_mod_nonneg by lia.
  split; [done|]. apply Z.mod_pos_bound. lia.
Qed.

Lemma cursor_inv_next p sup :
  cursor_inv p sup -> proxies p <> [] -> 0 <= currentIndex p < len (proxies p) ->
  cursor_inv (set_currentIndex (Z.rem (int_add (currentIndex p) 1) (len (proxies p))) p) sup.
Proof.
  intros (_ & Hfits & Hsup) Hne Hidx. split; [|split; done].
  destruct (next_index_bounds _ _ Hidx Hfits) as [_ Hb].
  unfold cursor_ok. simpl. split; [lia|]. intros _; lia.
Qed.

Lemma cursor_inv_new p sup u t :
  cursor_inv p sup -> cursor_inv (mkProxyManager u t [] 0 false) sup.
Proof.
  intros (_ & _ & Hsup). split; [|split; [|exact Hsup]].
  - split; simpl; [lia|done].
  - unfold pool_fits, MaxInt, len. simpl. lia.
Qed.

Lemma NewProxyManager_fresh u t s :
  NewProxyManager u t s
  = NewProxyManager u t (mkSt (mkProxyManager u t [] 0 false) (world s)).
Proof. reflexivity. Qed.

(** The invariant holds from construction on, whatever was there before. *)
Lemma NewProxyManager_cursor_inv u t s :
  supplier_fits (supplier (world s)) ->
  holds cursor_inv (snd (NewProxyManager u t s)).
Proof.
  intros Hsup. rewrite NewProxyManager_fresh.
  apply (keeps_NewProxyManager cursor_inv cursor_inv_parsed cursor_inv_new).
  split; [|split; [|exact Hsup]].
  - split; simpl; [lia|done].
  - unfold pool_fits, MaxInt, len. simpl. lia.
Qed.

(** C5. Every operation on the pool keeps the cursor valid: if the cursor is
    not negative and below the length of a non-empty pool before
    [NewProxyManager], [GetProxy], [RemoveProxy], [fetchProxies] or
    [asyncRefresh], it is so afterwards (pool and supplier bodies within the
    sizes Go allows); and after [RemoveProxy] the cursor is 0 whenever it
    would otherwise reference past the shrunk list. *)
Theorem cursor_invariant {Tail} (parseTail : string -> string -> string -> option Tail)
  (op : Op) (s : St) :
  cursor_ok (pm s) -> pool_fits (pm s) -> supplier_fits (supplier (world s)) ->
  let s' := snd (run_op parseTail op s) in
  (cursor_ok (pm s') /\ pool_fits (pm s') /\ supplier_fits (supplier (world s')))
  /\ (forall proxyURL before after,
        op = OpRemoveProxy proxyURL ->
        proxies (pm s) = before ++ proxyURL :: after -> proxyURL ∉ before ->
        currentIndex (pm s) >= len (before ++ after) ->
        currentIndex (pm s') = 0).
Proof.
  intros Hc Hf Hs s'. split.
  - apply (keeps_run_op cursor_inv cursor_inv_flag cursor_inv_parsed cursor_inv_new
             cursor_inv_removed cursor_inv_next parseTail op s).
    exact (conj Hc (conj Hf Hs)).
  - intros proxyURL before after -> Hsplit Hfirst Hge. subst s'. simpl.
    destruct (RemoveProxy_present _ _ _ _ Hsplit Hfirst) as (-> & _).
    unfold removed. simpl.
    pose proof (len_nonneg (before ++ after)).
    destruct Hc as [Hlo Hhi].
    destruct (currentIndex (pm s) >=? len (before ++ after)) eqn:E1;
      [|rewrite Z.geb_leb in E1; apply Z.leb_gt in E1; lia].
    destruct (len (before ++ after) >? 0) eqn:E2; [done|]. simpl.
    rewrite Z.gtb_ltb in E2. apply Z.ltb_ge in E2.
    assert (Hlen : currentIndex (pm s) < len (proxies (pm s))).
    { apply Hhi. rewrite Hsplit. by destruct before. }
    rewrite Hsplit in Hlen. unfold len in *. rewrite length_app in *. simpl in Hlen.
    lia.
Qed.

(** ** [GetProxy], case by case *)

Section GetProxyFacts.
Context {Tail : Type} (parseTail : string -> string -> string -> option Tail).

Lemma fetchProxies_minThreshold s :
  minThreshold (pm (snd (fetchProxies s))) = minThreshold (pm s).
Proof.
  pose proof (fetchProxies_fetched s) as H. unfold fetched in H.
  destruct (next_reply s) as [cause|code [body|cause]];
    [|destruct (code =? 200)..]; inversion H as [[He Hp]]; rewrite Hp; reflexivity.
Qed.

Lemma GetProxy_nonempty s :
  proxies (pm s) <> [] ->
  GetProxy parseTail s = GetProxy_select parseTail (low_water s).
Proof.
  intros Hne. unfold GetProxy, low_water.
  rewrite bind_snd. simpl.
  assert ((len (proxies (pm s)) =? 0) = false) as ->
    by (apply Z.eqb_neq; rewrite len_nil_iff; done).
  rewrite bind_snd. simpl.
  destruct (len (proxies (pm s)) <? minThreshold (pm s)); reflexivity.
Qed.

Lemma GetProxy_empty s :
  proxies (pm s) = [] ->
  GetProxy parseTail s =
  let s0 := mkSt (pm s) (emit (EvLog LogEmptyPool) (world s)) in
  let s1 := snd (fetchProxies s0) in
  match fst (fetchProxies s0) with
  | Some e => (Failed (ErrRefreshFailed e), s1)
  | None =>
      if len (proxies (pm s1)) =? 0 then (Failed ErrStillEmpty, s1)
      else GetProxy_select parseTail (low_water s1)
  end.
Proof.
  intros Hnil. unfold GetProxy.
  rewrite bind_snd. simpl. rewrite Hnil. simpl.
  rewrite bind_snd.
  change ((log LogEmptyPool ;;; err <- fetchProxies ;;
           match err with
           | Some e => ret (inl (ErrRefreshFailed e))
           | None => p <- self ;;
               (if len (proxies p) =? 0 then ret (inl ErrStillEmpty)
                else ret (inr (len (proxies p))))
           end) s)
    with ((err <- fetchProxies ;;
           match err with
           | Some e => ret (inl (ErrRefreshFailed e))
           | None => p <- self ;;
               (if len (proxies p) =? 0 then ret (inl ErrStillEmpty)
                else ret (inr (len (proxies p))))
           end) (mkSt (pm s) (emit (EvLog LogEmptyPool) (world s)))).
  rewrite bind_snd.
  pose proof (fetchProxies_minThreshold (mkSt (pm s) (emit (EvLog LogEmptyPool) (world s)))) as Hmin.
  simpl in Hmin.
  destruct (fetchProxies (mkSt (pm s) (emit (EvLog LogEmptyPool) (world s)))) as [[e|] s1];
    simpl in *; [reflexivity|].
  unfold bind, self. simpl.
  destruct (len (proxies (pm s1)) =? 0); simpl; [reflexivity|].
  unfold low_water. rewrite Hmin.
  destruct (len (proxies (pm s1)) <? minThreshold (pm s)); reflexivity.
Qed.

Lemma GetProxy_select_valid s proxyStr :
  0 <= currentIndex (pm s) < len (proxies (pm s)) ->
  pool_fits (pm s) ->
  proxies (pm s) !! Z.to_nat (currentIndex (pm s)) = Some proxyStr ->
  GetProxy_select parseTail s
  = (parsed parseTail proxyStr,
     mkSt (set_currentIndex ((currentIndex (pm s) + 1) mod len (proxies (pm s))) (pm s))
       (world s)).
Proof.
  intros Hidx Hfits Hlook. unfold GetProxy_select, bind, self.
  assert ((len (proxies (pm s)) =? 0) = false) as -> by (apply Z.eqb_neq; lia).
  rewrite index_Some by done. rewrite Hlook.
  destruct (next_index_bounds _ _ Hidx Hfits) as [-> _]. reflexivity.
Qed.

Lemma low_water_pm s : pm (low_water s) = pm s.
Proof. unfold low_water. destruct (_ <? _); reflexivity. Qed.

Lemma low_water_calls s : calls (world (low_water s)) = calls (world s).
Proof. unfold low_water. destruct (_ <? _); reflexivity. Qed.

(** One [GetProxy] on a non-empty pool with a valid cursor: the address
    under the cursor is selected and the cursor moves on modulo the length;
    no request goes to the supplier. *)
Lemma GetProxy_valid s proxyStr :
  0 <= currentIndex (pm s) < len (proxies (pm s)) ->
  pool_fits (pm s) ->
  proxies (pm s) !! Z.to_nat (currentIndex (pm s)) = Some proxyStr ->
  fst (GetProxy parseTail s) = parsed parseTail proxyStr
  /\ pm (snd (GetProxy parseTail s))
     = set_currentIndex ((currentIndex (pm s) + 1) mod len (proxies (pm s))) (pm s)
  /\ calls (world (snd (GetProxy parseTail s))) = calls (world s).
Proof.
  intros Hidx Hfits Hlook.
  rewrite GetProxy_nonempty by (intros Hnil; rewrite Hnil in Hidx; simpl in Hidx; unfold len in Hidx; simpl in Hidx; lia).
  rewrite (GetProxy_select_valid (low_water s) proxyStr);
    rewrite ?low_water_pm; try done.
  simpl. rewrite low_water_calls. done.
Qed.

Lemma set_currentIndex_same p : set_currentIndex (currentIndex p) p = p.
Proof. destruct p; reflexivity. Qed.

Lemma GetProxy_times_S n s :
  GetProxy_times parseTail (S n) s =
  (fst (GetProxy parseTail s)
     :: fst (GetProxy_times parseTail n (snd (GetProxy parseTail s))),
   snd (GetProxy_times parseTail n (snd (GetProxy parseTail s)))).
Proof.
  simpl. unfold bind, ret. destruct (GetProxy parseTail s) as [r s1]. simpl.
  destruct (GetProxy_times parseTail n s1). reflexivity.
Qed.

Lemma GetProxy_times_app a b s :
  GetProxy_times parseTail (a + b) s =
  (fst (GetProxy_times parseTail a s)
     ++ fst (GetProxy_times parseTail b (snd (GetProxy_times parseTail a s))),
   snd (GetProxy_times parseTail b (snd (GetProxy_times parseTail a s)))).
Proof.
  revert s. induction a as [|a IH]; intros s.
  - simpl. destruct (GetProxy_times parseTail b s); reflexivity.
  - change (S a + b)%nat with (S (a + b)).
    rewrite !GetProxy_times_S, IH. reflexivity.
Qed.

(** [k] calls that do not run past the end of the pool select the [k]
    addresses from the cursor on. *)
Lemma GetProxy_times_run k : forall s,
  0 <= currentIndex (pm s) < len (proxies (pm s)) ->
  pool_fits (pm s) ->
  (Z.to_nat (currentIndex (pm s)) + k <= length (proxies (pm s)))%nat ->
  fst (GetProxy_times parseTail k s)
  = map (parsed parseTail) (take k (drop (Z.to_nat (currentIndex (pm s))) (proxies (pm s))))
  /\ pm (snd (GetProxy_times parseTail k s))
     = set_currentIndex ((currentIndex (pm s) + Z.of_nat k) mod len (proxies (pm s))) (pm s)
  /\ calls (world (snd (GetProxy_times parseTail k s))) = calls (world s).
Proof.
  induction k as [|k IH]; intros s Hidx Hfits Hk.
  - simpl. rewrite Z.add_0_r, Z.mod_small by lia.
    rewrite set_currentIndex_same. done.
  - destruct (lookup_lt_is_Some_2 (proxies (pm s)) (Z.to_nat (currentIndex (pm s))))
      as [proxyStr Hlook]; [unfold len in Hidx; lia|].
    destruct (GetProxy_valid s proxyStr Hidx Hfits Hlook) as (Hr & Hpm & Hcalls).
    rewrite GetProxy_times_S. simpl. rewrite Hr.
    rewrite (drop_S _ _ _ Hlook). simpl.
    set (s1 := snd (GetProxy parseTail s)) in *.
    destruct (decide (currentIndex (pm s) + 1 < len (proxies (pm s)))) as [Hlt|Hend].
    + rewrite Z.mod_small in Hpm by lia.
      assert (Hp1 : proxies (pm s1) = proxies (pm s)) by (rewrite Hpm; reflexivity).
      assert (Hi1 : currentIndex (pm s1) = currentIndex (pm s) + 1) by (rewrite Hpm; reflexivity).
      destruct (IH s1) as (Hr1 & Hpm1 & Hcalls1).
      * rewrite Hp1, Hi1. lia.
      * unfold pool_fits. rewrite Hp1. exact Hfits.
      * rewrite Hp1, Hi1. lia.
      * rewrite Hr1, Hpm1, Hcalls1, Hp1, Hi1.
        replace (Z.to_nat (currentIndex (pm s) + 1)) with (S (Z.to_nat (currentIndex (pm s)))) by lia.
        split; [done|]. split; [|done].
        rewrite Hpm. unfold set_currentIndex. simpl. do 2 f_equal. lia.
    + assert (k = 0%nat) as -> by (unfold len in *; lia).
      simpl. split; [done|]. split; [|done].
      rewrite Hpm. reflexivity.
Qed.

(** A full cycle: as many calls as the pool has addresses. *)
Lemma GetProxy_times_cycle s :
  cursor_ok (pm s) -> pool_fits (pm s) ->
  let ps := proxies (pm s) in
  let c := Z.to_nat (currentIndex (pm s)) in
  fst (GetProxy_times parseTail (length ps) s)
  = map (parsed parseTail) (drop c ps ++ take c ps)
  /\ pm (snd (GetProxy_times parseTail (length ps) s)) = pm s
  /\ calls (world (snd (GetProxy_times parseTail (length ps) s))) = calls (world s).
Proof.
  intros [Hlo Hhi] Hfits ps c.
  destruct (decide (ps = [])) as [Hnil|Hne].
  - subst ps c. rewrite Hnil. simpl. rewrite drop_nil, take_nil. done.
  - specialize (Hhi Hne). fold ps in Hhi.
    assert (Hc : (c < length ps)%nat) by (subst c; unfold len in Hhi; lia).
    replace (length ps) with ((length ps - c) + c)%nat at 1 2 3 by lia.
    rewrite GetProxy_times_app. simpl.
    destruct (GetProxy_times_run (length ps - c) s) as (Hr1 & Hpm1 & Hcalls1);
      [fold ps; lia|done|fold ps c; lia|].
    fold ps c in Hr1, Hpm1.
    set (s1 := snd (GetProxy_times parseTail (length ps - c) s)) in *.
    assert (Hzero : (currentIndex (pm s) + Z.of_nat (length ps - c)) mod len ps = 0).
    { replace (currentIndex (pm s) + Z.of_nat (length ps - c)) with (len ps)
        by (subst c; unfold len; lia).
      apply Z_mod_same_full. }
    rewrite Hzero in Hpm1.
    assert (Hp1 : proxies (pm s1) = ps) by (rewrite Hpm1; reflexivity).
    assert (Hi1 : currentIndex (pm s1) = 0) by (rewrite Hpm1; reflexivity).
    destruct (GetProxy_times_run c s1) as (Hr2 & Hpm2 & Hcalls2).
    + rewrite Hp1, Hi1. lia.
    + unfold pool_fits. rewrite Hp1. exact Hfits.
    + rewrite Hp1, Hi1. simpl. lia.
    + rewrite Hr1, Hr2, Hpm2, Hcalls2, Hcalls1, Hp1, Hi1. simpl.
      rewrite drop_0, map_app.
      rewrite (take_ge (drop c ps)) by (rewrite length_drop; lia).
      split; [done|]. split; [|done].
      rewrite Hpm1. unfold set_currentIndex. simpl.
      rewrite Z.mod_small by (subst c; lia).
      replace (Z.of_nat c) with (currentIndex (pm s)) by (subst c; lia).
      destruct (pm s); reflexivity.
Qed.

End GetProxyFacts.

(** C1, as amended. On a pool of distinct addresses with a valid cursor, as
    many consecutive [GetProxy] calls as the pool has addresses, with nothing
    in between, select every address exactly once, in insertion order taken
    cyclically from the cursor: the addresses from the cursor to the end,
    then those before it.  That is the insertion order itself when the
    cursor is 0, as it is after a load.  Each call returns the parse of the
    address it selected, the cursor advances by one modulo the length of the
    pool and is back where it was after the cycle, and no request is sent to
    the supplier. *)
Theorem GetProxy_round_robin {Tail} (parseTail : string -> string -> string -> option Tail)
  (s : St) :
  NoDup (proxies (pm s)) -> cursor_ok (pm s) -> pool_fits (pm s) ->
  let ps := proxies (pm s) in
  let c := Z.to_nat (currentIndex (pm s)) in
  let selected := drop c ps ++ take c ps in
  let rs := fst (GetProxy_times parseTail (length ps) s) in
  let s' := snd (GetProxy_times parseTail (length ps) s) in
  rs = map (parsed parseTail) selected
  /\ selected ≡ₚ ps /\ NoDup selected
  /\ (currentIndex (pm s) = 0 -> rs = map (parsed parseTail) ps)
  /\ (ps <> [] ->
      currentIndex (pm (snd (GetProxy parseTail s))) = (currentIndex (pm s) + 1) mod len ps)
  /\ pm s' = pm s /\ calls (world s') = calls (world s).
Proof.
  intros Hnodup Hcursor Hfits ps c selected rs s'.
  destruct (GetProxy_times_cycle parseTail s Hcursor Hfits) as (Hr & Hpm & Hcalls).
  fold ps c selected rs s' in Hr, Hpm, Hcalls.
  assert (Hperm : selected ≡ₚ ps).
  { subst selected. rewrite Permutation_app_comm. by rewrite take_drop. }
  split; [exact Hr|]. split; [exact Hperm|].
  split; [by rewrite Hperm|].
  split; [|split; [|done]].
  - intros Hzero. rewrite Hr. subst selected c. rewrite Hzero. simpl.
    rewrite drop_0, app_nil_r. done.
  - intros Hne.
    destruct Hcursor as [Hlo Hhi]. specialize (Hhi Hne). fold ps in Hhi.
    destruct (lookup_lt_is_Some_2 ps c) as [proxyStr Hlook];
      [subst c; unfold len in Hhi; lia|].
    destruct (GetProxy_valid parseTail s proxyStr) as (_ & -> & _); try done.
Qed.

(** ** [GetProxy] on an empty pool *)

Lemma GetProxy_select_calls {Tail} (parseTail : string -> string -> string -> option Tail) s :
  calls (world (snd (GetProxy_select parseTail s))) = calls (world s).
Proof.
  unfold GetProxy_select, bind, self.
  destruct (len (proxies (pm s)) =? 0); [reflexivity|].
  destruct (index (proxies (pm s)) (currentIndex (pm s))); reflexivity.
Qed.

Lemma GetProxy_select_first {Tail} (parseTail : string -> string -> string -> option Tail)
  s first rest :
  proxies (pm s) = first :: rest -> currentIndex (pm s) = 0 ->
  fst (GetProxy_select parseTail s) = parsed parseTail first
  /\ proxies (pm (snd (GetProxy_select parseTail s))) = first :: rest.
Proof.
  intros Hps Hidx. unfold GetProxy_select, bind, self.
  rewrite Hps, Hidx.
  assert (Hlen : 0 < len (first :: rest)) by (unfold len; simpl; lia).
  assert ((len (first :: rest) =? 0) = false) as -> by (apply Z.eqb_neq; lia).
  unfold index.
  assert ((len (first :: rest) <=? 0) = false) as -> by (apply Z.leb_gt; lia).
  simpl. done.
Qed.

Lemma fetched_cases reply p e p1 :
  fetched reply p = (e, p1) ->
  match e with
  | Some _ => p1 = p
  | None => currentIndex p1 = 0
  end.
Proof.
  unfold fetched.
  destruct reply as [cause|code [body|cause]];
    [|destruct (code =? 200)..]; intros H; inversion H; reflexivity.
Qed.

(** C4. [GetProxy] on an empty pool sends exactly one request to the
    supplier before it returns.  When that replenishment fails, [GetProxy]
    returns the error wrapping the failure and the pool stays as it was; when
    it yields no address, [GetProxy] returns the error "still no proxy";
    when it yields addresses, [GetProxy] goes on to select the first of them
    and returns its parse. *)
Theorem GetProxy_empty_pool {Tail} (parseTail : string -> string -> string -> option Tail)
  (s : St) :
  proxies (pm s) = [] ->
  let r := fst (GetProxy parseTail s) in
  let s' := snd (GetProxy parseTail s) in
  calls (world s') = S (calls (world s))
  /\ match fetched (next_reply s) (pm s) with
     | (Some e, _) => r = Failed (ErrRefreshFailed e) /\ pm s' = pm s
     | (None, p1) =>
         match proxies p1 with
         | [] => r = Failed ErrStillEmpty /\ proxies (pm s') = []
         | first :: rest =>
             r = parsed parseTail first /\ proxies (pm s') = first :: rest
         end
     end.
Proof.
  intros Hnil r s'. subst r s'. rewrite (GetProxy_empty parseTail s Hnil).
  set (s0 := mkSt (pm s) (emit (EvLog LogEmptyPool) (world s))).
  pose proof (fetchProxies_fetched s0) as Hf.
  pose proof (fetchProxies_calls s0) as Hc.
  change (next_reply s0) with (next_reply s) in Hf.
  change (pm s0) with (pm s) in Hf. change (calls (world s0)) with (calls (world s)) in Hc.
  cbv zeta.
  destruct (fetched (next_reply s) (pm s)) as [[e|] p1] eqn:Hfetched;
    inversion Hf as [[He Hp]]; rewrite He; simpl.
  - rewrite Hc, Hp. apply fetched_cases in Hfetched. done.
  - assert (Hidx : currentIndex p1 = 0) by apply (fetched_cases _ _ _ _ Hfetched).
    destruct (proxies p1) as [|first rest] eqn:Hps; rewrite Hp, Hps.
    + simpl. rewrite Hc, Hp. done.
    + assert ((len (first :: rest) =? 0) = false) as ->
        by (apply Z.eqb_neq; unfold len; simpl; lia).
      rewrite GetProxy_select_calls, low_water_calls, Hc.
      split; [done|].
      apply GetProxy_select_first; rewrite low_water_pm, Hp; done.
Qed.

(** ** Schemes of the pool entries *)

Lemma HasPrefix_app s prefix :
  strings.HasPrefix s prefix = true -> exists rest, s = prefix +:+ rest.
Proof.
  unfold strings.HasPrefix. revert s.
  induction prefix as [|a prefix IH]; intros s H.
  - exists s. reflexivity.
  - destruct s as [|b s]; simpl in H; [discriminate|].
    destruct (ascii_dec a b) as [->|]; [|discriminate].
    destruct (IH s H) as [rest ->]. exists rest. reflexivity.
Qed.

Lemma HasPrefix_self prefix rest : strings.HasPrefix (prefix +:+ rest) prefix = true.
Proof.
  unfold strings.HasPrefix. induction prefix as [|a prefix IH]; simpl.
  - destruct rest; reflexivity.
  - destruct (ascii_dec a a); [exact IH|done].
Qed.

Lemma formatProxy_scheme raw : has_http_scheme (formatProxy raw).
Proof.
  unfold formatProxy, has_http_scheme.
  destruct (strings.HasPrefix (strings.TrimSpace raw) "http://") eqn:E1; simpl; [by left|].
  destruct (strings.HasPrefix (strings.TrimSpace raw) "https://") eqn:E2; simpl; [by right|].
  left. apply HasPrefix_self.
Qed.

Lemma fetch_line_schemes acc line :
  Forall has_http_scheme acc -> Forall has_http_scheme (fetch_line acc line).
Proof.
  intros Hacc. unfold fetch_line.
  destruct (String.eqb _ EmptyString); [done|].
  destruct (negb _); [|done].
  apply Forall_app. split; [done|].
  apply Forall_singleton, formatProxy_scheme.
Qed.

Lemma parseProxies_schemes body : Forall has_http_scheme (parseProxies body).
Proof.
  unfold parseProxies.
  generalize (strings.Split body strings.LF) as lines.
  generalize (Forall_nil_2 has_http_scheme). generalize (@nil string) as acc.
  intros acc Hacc lines. revert acc Hacc.
  induction lines as [|line lines IH]; intros acc Hacc; simpl; [done|].
  apply IH, fetch_line_schemes, Hacc.
Qed.

(** A URL that [url.Parse] returns for an address beginning with [http://]
    or [https://] has that scheme. *)
Lemma Parse_scheme {Tail} (parseTail : string -> string -> string -> option Tail)
  proxy u :
  has_http_scheme proxy ->
  url.Parse parseTail proxy = Some u ->
  url.Scheme u = "http" \/ url.Scheme u = "https".
Proof.
  intros [H|H] Hparse; apply HasPrefix_app in H as [rest ->];
    unfold url.Parse in Hparse.
  - change ("http://" +:+ rest)
      with (String "h" (String "t" (String "t" (String "p"
             (String ":" (String "/" (String "/" rest))))))) in Hparse.
    simpl in Hparse. destruct (url.cutFragment rest) as [r frag]. simpl in Hparse.
    destruct (url.containsCTL r); [discriminate|].
    destruct (parseTail _ _ _); inversion Hparse; simpl; auto.
  - change ("https://" +:+ rest)
      with (String "h" (String "t" (String "t" (String "p" (String "s"
             (String ":" (String "/" (String "/" rest)))))))) in Hparse.
    simpl in Hparse. destruct (url.cutFragment rest) as [r frag]. simpl in Hparse.
    destruct (url.containsCTL r); [discriminate|].
    destruct (parseTail _ _ _); inversion Hparse; simpl; auto.
Qed.

Section Schemes.
Context {Tail : Type} (parseTail : string -> string -> string -> option Tail).

Lemma pool_schemes_removed p before x after :
  pool_schemes p -> proxies p = before ++ x :: after ->
  pool_schemes (removed before after p).
Proof.
  unfold pool_schemes, removed. simpl. intros H Hsplit. rewrite Hsplit in H.
  apply Forall_app in H as [Hb Ha]. apply Forall_cons in Ha as [_ Ha].
  apply Forall_app. done.
Qed.

Lemma pool_schemes_kept op :
  preserves (fun p _ => pool_schemes p) (run_op parseTail op).
Proof.
  apply keeps_run_op.
  - intros p sup b H. exact H.
  - intros p sup k code body _ _. apply parseProxies_schemes.
  - intros p sup u t _. apply Forall_nil_2.
  - intros p sup before x after. apply pool_schemes_removed.
  - intros p sup H _ _. exact H.
Qed.

Lemma GetProxy_select_source s u :
  fst (GetProxy_select parseTail s) = Proxy u ->
  exists proxyStr, proxyStr ∈ proxies (pm s) /\ url.Parse parseTail proxyStr = Some u.
Proof.
  unfold GetProxy_select, bind, self.
  destruct (len (proxies (pm s)) =? 0); [discriminate|].
  unfold index.
  destruct ((currentIndex (pm s) <? 0) || (len (proxies (pm s)) <=? currentIndex (pm s)));
    [discriminate|].
  destruct (proxies (pm s) !! Z.to_nat (currentIndex (pm s))) as [proxyStr|] eqn:Hlook;
    [|discriminate].
  simpl. unfold parsed.
  destruct (url.Parse parseTail proxyStr) as [u'|] eqn:Hparse; [|discriminate].
  intros [= ->]. exists proxyStr. split; [|done].
  eapply list_elem_of_lookup_2, Hlook.
Qed.

Lemma GetProxy_source s u :
  pool_schemes (pm s) ->
  fst (GetProxy parseTail s) = Proxy u ->
  exists proxyStr, has_http_scheme proxyStr /\ url.Parse parseTail proxyStr = Some u.
Proof.
  intros Hinv Hr.
  assert (Hsel : forall s1, pool_schemes (pm s1) ->
            fst (GetProxy_select parseTail (low_water s1)) = Proxy u ->
            exists proxyStr, has_http_scheme proxyStr /\ url.Parse parseTail proxyStr = Some u).
  { intros s1 H1 Hr1. apply GetProxy_select_source in Hr1 as (proxyStr & Hin & Hparse).
    exists proxyStr. split; [|done]. rewrite low_water_pm in Hin.
    unfold pool_schemes in H1. rewrite Forall_forall in H1. auto. }
  destruct (decide (proxies (pm s) = [])) as [Hnil|Hne].
  - rewrite (GetProxy_empty parseTail s Hnil) in Hr. cbv zeta in Hr.
    set (s0 := mkSt (pm s) (emit (EvLog LogEmptyPool) (world s))) in *.
    pose proof (pool_schemes_kept OpFetchProxies s0 Hinv) as H1.
    simpl in H1. rewrite bind_snd in H1. simpl in H1.
    destruct (fst (fetchProxies s0)); [discriminate|].
    destruct (len (proxies (pm (snd (fetchProxies s0)))) =? 0); [discriminate|].
    eapply Hsel; [exact H1|exact Hr].
  - rewrite (GetProxy_nonempty parseTail s Hne) in Hr. eapply Hsel; [exact Hinv|exact Hr].
Qed.

End Schemes.

Lemma NewProxyManager_pool_schemes u t s :
  pool_schemes (pm (snd (NewProxyManager u t s))).
Proof.
  rewrite NewProxyManager_fresh.
  apply (keeps_NewProxyManager (fun p _ => pool_schemes p)).
  - intros p sup k code body _ _. apply parseProxies_schemes.
  - intros p sup u' t' _. apply Forall_nil_2.
  - apply Forall_nil_2.
Qed.

(** C10. Every address in the pool begins with [http://] or [https://]:
    [formatProxy] returns such a string for every line, so every operation on
    the pool keeps the property; whenever [url.Parse] accepts an entry of the
    pool the URL it yields has the scheme [http] or [https], and so has every
    URL that [GetProxy] returns. *)
Theorem pool_scheme_invariant {Tail} (parseTail : string -> string -> string -> option Tail)
  (op : Op) (s : St) :
  pool_schemes (pm s) ->
  pool_schemes (pm (snd (run_op parseTail op s)))
  /\ (forall raw, has_http_scheme (formatProxy raw))
  /\ (forall u, fst (GetProxy parseTail s) = Proxy u ->
                url.Scheme u = "http" \/ url.Scheme u = "https")
  /\ (forall proxyStr u,
        proxyStr ∈ proxies (pm s) -> url.Parse parseTail proxyStr = Some u ->
        url.Scheme u = "http" \/ url.Scheme u = "https").
Proof.
  intros Hinv. split; [|split; [|split]].
  - exact (pool_schemes_kept parseTail op s Hinv).
  - exact formatProxy_scheme.
  - intros u Hr.
    destruct (GetProxy_source parseTail s u Hinv Hr) as (proxyStr & Hscheme & Hparse).
    eapply Parse_scheme; [exact Hscheme|exact Hparse].
  - intros proxyStr u Hin Hparse.
    unfold pool_schemes in Hinv. rewrite Forall_forall in Hinv.
    eapply Parse_scheme; [exact (Hinv proxyStr Hin)|exact Hparse].
Qed.

(** ** The dedup store *)

Lemma Put_ok b key value :
  key <> EmptyString ->
  Z.of_nat (String.length key) <= bolt.MaxKeySize ->
  Z.of_nat (String.length value) <= bolt.MaxValueSize ->
  bolt.Put b key value = inr (<[key := value]> b).
Proof.
  intros Hkey Hklen Hvlen. unfold bolt.Put.
  destruct (String.eqb_spec key EmptyString); [done|].
  rewrite Z.gtb_ltb.
  destruct (Z.ltb_spec bolt.MaxKeySize (Z.of_nat (String.length key))); [lia|].
  rewrite Z.gtb_ltb.
  destruct (Z.ltb_spec bolt.MaxValueSize (Z.of_nat (String.length value))); [lia|].
  reflexivity.
Qed.

Lemma Put_inv b key value b' :
  bolt.Put b key value = inr b' ->
  key <> EmptyString /\ Z.of_nat (String.length key) <= bolt.MaxKeySize
  /\ Z.of_nat (String.length value) <= bolt.MaxValueSize /\ b' = <[key := value]> b.
Proof.
  unfold bolt.Put.
  destruct (String.eqb_spec key EmptyString); [discriminate|].
  rewrite !Z.gtb_ltb.
  destruct (Z.ltb_spec bolt.MaxKeySize (Z.of_nat (String.length key))); [discriminate|].
  destruct (Z.ltb_spec bolt.MaxValueSize (Z.of_nat (String.length value))); [discriminate|].
  intros [= <-]. done.
Qed.

(** [IsVisited] looks at nothing but whether the open database has the
    bucket and the bucket has the key. *)
Lemma IsVisited_spec s url :
  IsVisited s url = true <->
  bolt.opened (db s) = true /\
  exists b, bolt.file (db s) !! bucketName s = Some b /\ url ∈ dom b.
Proof.
  unfold IsVisited, bolt.View, bolt.Get.
  destruct (bolt.opened (db s)); [|split; [discriminate|intros [[=] _]]].
  destruct (bolt.file (db s) !! bucketName s) as [b|];
    [|split; [discriminate|intros (_ & b & [=] & _)]].
  split.
  - intros H%bool_decide_eq_true. split; [done|]. exists b. split; [done|].
    apply elem_of_dom. by apply not_eq_None_Some.
  - intros (_ & b' & [= <-] & H). apply bool_decide_eq_true.
    apply elem_of_dom in H. by apply not_eq_None_Some.
Qed.

Lemma MarkVisited_ok s url timestamp :
  fst (MarkVisited s url timestamp) = None ->
  exists b,
    bolt.opened (db s) = true /\ bolt.file (db s) !! bucketName s = Some b
    /\ url <> EmptyString /\ Z.of_nat (String.length url) <= bolt.MaxKeySize
    /\ snd (MarkVisited s url timestamp)
       = mkBoltStorage
           (bolt.mkDB true (<[bucketName s := <[url := timestamp]> b]> (bolt.file (db s))))
           (bucketName s).
Proof.
  unfold MarkVisited, bolt.Update.
  destruct (bolt.opened (db s)); [|discriminate].
  destruct (bolt.file (db s) !! bucketName s) as [b|]; [|discriminate].
  destruct (bolt.Put b url timestamp) as [e|b'] eqn:Hput; [discriminate|].
  apply Put_inv in Hput as (Hkey & Hklen & _ & ->).
  intros _. exists b. done.
Qed.

(** C6. After a successful [MarkVisited] of an identifier, marking it again
    (with any later timestamp) succeeds too, [IsVisited] answers [true]
    after either call, and the second call changes the answer of
    [IsVisited] for no identifier: the stored value does not matter, only
    the presence of the key. *)
Theorem MarkVisited_idempotent (s : BoltStorage) (url t1 t2 : string) :
  fst (MarkVisited s url t1) = None ->
  Z.of_nat (String.length t2) <= bolt.MaxValueSize ->
  let s1 := snd (MarkVisited s url t1) in
  let s2 := snd (MarkVisited s1 url t2) in
  fst (MarkVisited s1 url t2) = None
  /\ IsVisited s1 url = true
  /\ IsVisited s2 url = true
  /\ (forall other, IsVisited s2 other = IsVisited s1 other).
Proof.
  intros Hfirst Ht2 s1 s2.
  destruct (MarkVisited_ok _ _ _ Hfirst) as (b & Hopen & Hbucket & Hkey & Hklen & Hs1).
  fold s1 in Hs1.
  assert (Hsecond : MarkVisited s1 url t2
            = (None, mkBoltStorage
                 (bolt.mkDB true
                    (<[bucketName s := <[url := t2]> (<[url := t1]> b)]>
                       (<[bucketName s := <[url := t1]> b]> (bolt.file (db s)))))
                 (bucketName s))).
  { rewrite Hs1. unfold MarkVisited, bolt.Update. simpl.
    rewrite lookup_insert_eq. rewrite Put_ok by done. reflexivity. }
  assert (H1 : IsVisited s1 url = true).
  { apply IsVisited_spec. rewrite Hs1. simpl. split; [done|].
    exists (<[url := t1]> b). rewrite lookup_insert_eq. split; [done|]. set_solver. }
  split; [by rewrite Hsecond|]. split; [exact H1|].
  assert (Hsame : forall other, IsVisited s2 other = IsVisited s1 other).
  { intros other. subst s2. rewrite Hsecond, Hs1. simpl.
    unfold IsVisited, bolt.View, bolt.Get. simpl.
    rewrite !lookup_insert_eq.
    destruct (decide (other = url)) as [->|Hne].
    - rewrite !lookup_insert_eq. reflexivity.
    - rewrite !lookup_insert_ne by done. reflexivity. }
  split; [|exact Hsame]. rewrite Hsame. exact H1.
Qed.

(** ** Goroutines running [asyncRefresh] *)

Module RefreshFacts.
Import Refresh.

Lemma count_app f gs1 gs2 : count f (gs1 ++ gs2) = (count f gs1 + count f gs2)%nat.
Proof. induction gs1 as [|g gs1 IH]; simpl; [done|]. rewrite IH. lia. Qed.

Lemma count_insert f gs i old new :
  gs !! i = Some old ->
  (count f (<[i := new]> gs) + (if f old then 1 else 0)
   = count f gs + (if f new then 1 else 0))%nat.
Proof.
  revert i. induction gs as [|g gs IH]; intros [|i] Hlook; simpl in *; try done.
  - injection Hlook as ->. lia.
  - specialize (IH i Hlook). lia.
Qed.

Lemma count_le f g gs :
  (forall c, f c = true -> g c = true) -> (count f gs <= count g gs)%nat.
Proof.
  intros Himp. induction gs as [|c gs IH]; simpl; [done|].
  destruct (f c) eqn:Hf; [rewrite (Himp c Hf)|destruct (g c)]; lia.
Qed.

Lemma count_length gs : forallb is_returned gs = true -> count is_returned gs = length gs.
Proof.
  induction gs as [|c gs IH]; simpl; [done|].
  intros [-> H]%andb_true_iff. rewrite (IH H). reflexivity.
Qed.

Lemma asyncRefresh_send_effect s :
  isRefreshing (pm (snd (asyncRefresh_send s))) = true
  /\ calls (world (snd (asyncRefresh_send s))) = S (calls (world s)).
Proof. done. Qed.

Lemma asyncRefresh_recv_effect k s :
  isRefreshing (pm (snd (asyncRefresh_recv k s))) = false
  /\ calls (world (snd (asyncRefresh_recv k s))) = calls (world s).
Proof.
  unfold asyncRefresh_recv, fetchProxies_recv, recv_Get, bind, fetchProxies_reply.
  destruct (supplier (world s) k) as [cause|code [body|cause]];
    [|destruct (code =? 200)..]; done.
Qed.

Lemma step_ok calls0 a s : refresh_ok calls0 s -> refresh_ok calls0 (step a s).
Proof.
  intros H. pose proof H as (Hlock & Hflag & Hskip & Hcalls).
  destruct a as [|i]; unfold step.
  - unfold refresh_ok in *. simpl. rewrite !count_app. simpl. repeat split; lia.
  - destruct (goroutines s !! i) as [[| |k|fetched]|] eqn:Hlook; [| | |exact H..].
    + destruct (refreshLock s) eqn:Hheld; [exact H|].
      unfold refresh_ok in *. simpl. unfold set_pc.
      pose proof (count_insert holds_lock _ _ _ AtCheck Hlook).
      pose proof (count_insert is_in_flight _ _ _ AtCheck Hlook).
      pose proof (count_insert skipped _ _ _ AtCheck Hlook).
      pose proof (count_insert is_returned _ _ _ AtCheck Hlook).
      simpl in *. repeat split; lia.
    + assert (Hfree : isRefreshing (pm (st s)) = false).
      { pose proof (count_insert holds_lock _ _ _ AtLock Hlook) as H1.
        pose proof (count_insert is_in_flight _ _ _ AtLock Hlook) as H2.
        pose proof (count_le is_in_flight holds_lock (<[i := AtLock]> (goroutines s))) as H3.
        simpl in *.
        destruct (isRefreshing (pm (st s))); [|done].
        destruct (refreshLock s); [|lia].
        assert (count is_in_flight (<[i:=AtLock]> (goroutines s))
                <= count holds_lock (<[i:=AtLock]> (goroutines s)))%nat
          by (apply H3; intros []; done).
        lia. }
      rewrite Hfree. unfold refresh_ok in *.
      destruct (asyncRefresh_send (st s)) as [k st'] eqn:Hsend.
      pose proof (asyncRefresh_send_effect (st s)) as [Hf Hc].
      rewrite Hsend in Hf, Hc. simpl in Hf, Hc. simpl. unfold set_pc.
      pose proof (count_insert holds_lock _ _ _ (InFlight k) Hlook).
      pose proof (count_insert is_in_flight _ _ _ (InFlight k) Hlook).
      pose proof (count_insert skipped _ _ _ (InFlight k) Hlook).
      pose proof (count_insert is_returned _ _ _ (InFlight k) Hlook).
      rewrite Hf, Hc. rewrite Hfree in Hflag. simpl in *. repeat split; lia.
    + unfold refresh_ok in *.
      destruct (asyncRefresh_recv k (st s)) as [u st'] eqn:Hrecv.
      pose proof (asyncRefresh_recv_effect k (st s)) as [Hf Hc].
      rewrite Hrecv in Hf, Hc. simpl in Hf, Hc. simpl. unfold set_pc.
      pose proof (count_insert holds_lock _ _ _ (Returned true) Hlook) as H1.
      pose proof (count_insert is_in_flight _ _ _ (Returned true) Hlook) as H2.
      pose proof (count_insert skipped _ _ _ (Returned true) Hlook) as H3.
      pose proof (count_insert is_returned _ _ _ (Returned true) Hlook) as H4.
      pose proof (count_le is_in_flight holds_lock (goroutines s)) as H5.
      assert (count is_in_flight (goroutines s) <= count holds_lock (goroutines s))%nat
        by (apply H5; intros []; done).
      rewrite Hf, Hc. simpl in *.
      destruct (isRefreshing (pm (st s))); destruct (refreshLock s); repeat split; lia.
Qed.

Lemma run_ok calls0 sched : forall s, refresh_ok calls0 s -> refresh_ok calls0 (run sched s).
Proof.
  induction sched as [|a sched IH]; intros s H; simpl; [done|].
  apply IH, step_ok, H.
Qed.

Lemma idle_ok s0 : isRefreshing (pm s0) = false -> refresh_ok (calls (world s0)) (idle s0).
Proof. intros H. unfold refresh_ok. simpl. rewrite H. repeat split; lia. Qed.

(** Whatever the interleaving: at most one request is out at any time, but
    no goroutine ever finds [isRefreshing] set, so that every trigger sends
    a request of its own; once all goroutines have returned the supplier
    has been called once per trigger. *)
Lemma every_trigger_fetches s0 sched :
  isRefreshing (pm s0) = false ->
  let s := run sched (idle s0) in
  (in_flight s <= 1)%nat
  /\ count skipped (goroutines s) = 0%nat
  /\ (finished s = true ->
      calls (world (st s)) = (calls (world s0) + length (goroutines s))%nat).
Proof.
  intros Hflag s.
  destruct (run_ok _ sched _ (idle_ok s0 Hflag)) as (Hlock & Hfl & Hskip & Hcalls).
  fold s in Hlock, Hfl, Hskip, Hcalls. clearbody s.
  split; [|split; [exact Hskip|]].
  - unfold in_flight. rewrite Hfl. destruct (isRefreshing (pm (st s))); lia.
  - intros Hfin. unfold finished in Hfin.
    assert (count is_in_flight (goroutines s) = 0%nat) as Hnone.
    { clear -Hfin. induction (goroutines s) as [|c gs IH]; simpl in *; [done|].
      apply andb_true_iff in Hfin as [Hc Hgs]. rewrite (IH Hgs).
      destruct c; simpl in *; done. }
    rewrite Hcalls, Hnone, (count_length _ Hfin). lia.
Qed.

End RefreshFacts.

(** C7, on the failing interleaving.  Two triggers of [asyncRefresh], the
    second arriving while the request of the first is out: the second
    goroutine waits on [refreshLock], then finds [isRefreshing] false and
    calls the supplier again.  At most one request is out at any time, but
    the supplier has been called twice, once per trigger. *)
Theorem asyncRefresh_two_triggers :
  let s0 := mkSt (mkProxyManager "http://supplier/get" 5 ["http://1.1.1.1:80"] 0 false)
              (mkWorld (fun _ => GetResponse 200 (ReadOK "2.2.2.2:80")) 0 []) in
  let after n := Refresh.run (take n two_triggers) (Refresh.idle s0) in
  Refresh.goroutines (after 5%nat) = [Refresh.InFlight 0; Refresh.AtLock]
  /\ calls (world (Refresh.st (after 5%nat))) = 1%nat
  /\ Refresh.goroutines (after 9%nat) = [Refresh.Returned true; Refresh.Returned true]
  /\ calls (world (Refresh.st (after 9%nat))) = 2%nat
  /\ (forall n, (Refresh.in_flight (after n) <= 1)%nat).
Proof.
  intros s0 after. repeat split; try reflexivity.
  intros n. apply (RefreshFacts.every_trigger_fetches s0 (take n two_triggers)).
  reflexivity.
Qed.

(** ** The [OnError] handlers *)

(** Where the handler of [setupCallbacks] agrees with the rule of the
    specification: everywhere but on a status-0 failure with an unrecognised
    text, and on a recognised text under a status other than 0, 404, 403, 429
    and 503. *)
Lemma setupCallbacks_agrees statusCode err :
  err <> None ->
  (statusCode = 0 -> text_matches err = true) ->
  (text_matches err = true -> statusCode = 0 \/ statusCode = 404 \/ blocking statusCode = true) ->
  outcome_of (setupCallbacks_case statusCode err) = spec_classify statusCode err.
Proof.
  intros Herr Hzero Htext. unfold setupCallbacks_case, spec_classify, blocking in *.
  rewrite (bool_decide_eq_true_2 _ Herr). rewrite andb_true_r.
  destruct (Z.eqb_spec statusCode 0) as [->|Hnz].
  - simpl. rewrite Hzero by done. reflexivity.
  - destruct (statusCode =? 404) eqn:E404; [reflexivity|].
    destruct ((statusCode =? 403) || (statusCode =? 429) || (statusCode =? 503)) eqn:Eb;
      [reflexivity|].
    destruct (text_matches err); [|reflexivity].
    destruct Htext as [?|[?|?]]; try done. subst. done.
Qed.

(** The handler of [setupErrorHandler] has the status-0 case. *)
Lemma setupErrorHandler_agrees statusCode err :
  err <> None ->
  (text_matches err = true -> statusCode = 0 \/ statusCode = 404 \/ blocking statusCode = true) ->
  outcome_of (setupErrorHandler_case statusCode err) = spec_classify statusCode err.
Proof.
  intros Herr Htext. unfold setupErrorHandler_case, spec_classify, blocking in *.
  rewrite (bool_decide_eq_true_2 _ Herr). rewrite andb_true_r.
  destruct (Z.eqb_spec statusCode 0) as [->|Hnz]; [reflexivity|].
  destruct (statusCode =? 404) eqn:E404; [reflexivity|].
  destruct ((statusCode =? 403) || (statusCode =? 429) || (statusCode =? 503)) eqn:Eb;
    [reflexivity|].
  destruct (text_matches err); [|reflexivity].
  destruct Htext as [?|[?|?]]; try done. subst. done.
Qed.

Lemma on_pool_eq m g :
  on_pool m g =
  let s := snd (m (mkSt (proxyManager g) (outside g))) in
  mkGlobals (storage g) (pm s) (world s) (clock g).
Proof. unfold on_pool. destruct (m _). reflexivity. Qed.

Lemma on_storage_eq f g :
  on_storage f g = mkGlobals (snd (f (storage g))) (proxyManager g) (outside g) (clock g).
Proof. unfold on_storage. destruct (f _). reflexivity. Qed.

Lemma RemoveProxy_pm_indep proxyURL p w w' :
  pm (snd (RemoveProxy proxyURL (mkSt p w))) = pm (snd (RemoveProxy proxyURL (mkSt p w'))).
Proof.
  unfold RemoveProxy, bind, self. simpl.
  destruct (find_proxy proxyURL 0 (proxies p)) as [i|]; [|reflexivity]. simpl.
  destruct (_ && _); simpl; destruct (_ <? _); reflexivity.
Qed.

Lemma no_retry_in_logs old l1 l2 requestURL :
  EvRetry requestURL ∉ drop (length old) ((old ++ [EvLog l1]) ++ [EvLog l2]).
Proof.
  rewrite <- app_assoc, drop_app_length. simpl.
  rewrite !not_elem_of_cons. repeat split; try done. apply not_elem_of_nil.
Qed.

Lemma RemoveProxy_world proxyURL s :
  world (snd (RemoveProxy proxyURL s))
  = mkWorld (supplier (world s)) (calls (world s))
      (trace (world s) ++ removal_events proxyURL (pm s)).
Proof.
  unfold removal_events.
  destruct (decide (proxyURL ∈ proxies (pm s))) as [Hin|Hnotin].
  - rewrite bool_decide_eq_true_2 by done.
    destruct (first_occurrence _ _ Hin) as (before & after & Hsplit & Hfirst).
    unfold RemoveProxy, bind, self. rewrite Hsplit.
    rewrite (find_proxy_first proxyURL 0 before after Hfirst). simpl.
    rewrite take_app_length.
    replace (before ++ proxyURL :: after) with ((before ++ [proxyURL]) ++ after)
      by (rewrite <- app_assoc; reflexivity).
    replace (S (length before)) with (length (before ++ [proxyURL]))
      by (rewrite length_app; simpl; lia).
    rewrite drop_app_length.
    replace (len ((before ++ [proxyURL]) ++ after) - 1) with (len (before ++ after))
      by (unfold len; rewrite !length_app; simpl; lia).
    destruct ((currentIndex (pm s) >=? len (before ++ after)) && (len (before ++ after) >? 0));
      destruct (len (before ++ after) <? minThreshold (pm s)); simpl;
      unfold emit; simpl; rewrite <- ?app_assoc; reflexivity.
  - rewrite bool_decide_eq_false_2 by done.
    rewrite (RemoveProxy_absent _ _ Hnotin). reflexivity.
Qed.

(** What a handler does, by the outcome of the case its [switch] takes: a
    retryable case leaves the store alone, calls [RemoveProxy] on the proxy
    address of the request when there is one, re-enqueues the request and
    logs what [Retry] returned; the 404 case marks the URL and does not
    retry; the default case only logs. *)
Lemma handle_effects case r err g :
  let requestURL := colly.URL (colly.Request_ r) in
  let proxyURL := colly.ProxyURL (colly.Request_ r) in
  let g' := handle case r err g in
  match outcome_of (case (colly.StatusCode r) err) with
  | Retryable =>
      storage g' = storage g
      /\ (exists l,
            trace (outside g')
            = trace (outside g)
              ++ [EvLog (LogError requestURL (colly.StatusCode r) err proxyURL); EvLog l]
              ++ (if String.eqb proxyURL EmptyString then []
                  else removal_events proxyURL (proxyManager g))
              ++ [EvRetry requestURL; EvLog (retry_line (colly.Request_ r))])
      /\ proxyManager g'
         = if String.eqb proxyURL EmptyString then proxyManager g
           else pm (snd (RemoveProxy proxyURL (mkSt (proxyManager g) (outside g))))
  | SkipAndMark =>
      proxyManager g' = proxyManager g
      /\ storage g' = snd (MarkVisited (storage g) requestURL (clock g))
      /\ EvRetry requestURL ∉ drop (length (trace (outside g))) (trace (outside g'))
  | SkipNoMark =>
      proxyManager g' = proxyManager g /\ storage g' = storage g
      /\ EvRetry requestURL ∉ drop (length (trace (outside g))) (trace (outside g'))
  | Success => True
  end.
Proof.
  intros requestURL proxyURL g'. subst g'. unfold handle.
  fold requestURL proxyURL.
  destruct (case (colly.StatusCode r) err); simpl;
    rewrite ?on_pool_eq, ?on_storage_eq; simpl;
    try (destruct (String.eqb proxyURL EmptyString); simpl;
         rewrite ?on_pool_eq; simpl; rewrite ?RemoveProxy_world; simpl;
         (split; [reflexivity|]);
         (split; [eexists; rewrite <- !app_assoc; reflexivity|]);
         try reflexivity; apply RemoveProxy_pm_indep).
  - repeat split; try reflexivity. apply no_retry_in_logs.
  - repeat split; try reflexivity. apply no_retry_in_logs.
Qed.

(** C2, on the failing input.  A failure with no response (status 0) whose
    text is "connection reset by peer": the rule of the specification makes
    it retryable, and the handler of [setupErrorHandler] removes the proxy
    and retries; the handler of [setupCallbacks] falls to its default case:
    the proxy stays in the pool, nothing is retried, nothing is marked.  The
    same holds of the failure as a request that recorded no proxy address
    brings it: [setupErrorHandler] retries, [setupCallbacks] does not. *)
Theorem setupCallbacks_drops_reset :
  let (r, err) := reset_by_peer in
  let g := two_proxies in
  let g1 := setupCallbacks_OnError r err g in
  let g2 := setupErrorHandler_OnError r err g in
  spec_classify (colly.StatusCode r) err = Retryable
  /\ (outcome_of (setupCallbacks_case (colly.StatusCode r) err) = SkipNoMark
      /\ proxies (proxyManager g1) = ["http://1.1.1.1:80"; "http://2.2.2.2:80"]
      /\ storage g1 = storage g
      /\ trace (outside g1)
         = [EvLog (LogError (colly.URL (colly.Request_ r)) 0 err "http://1.1.1.1:80");
            EvLog (LogOther err)])
  /\ (outcome_of (setupErrorHandler_case (colly.StatusCode r) err) = Retryable
      /\ proxies (proxyManager g2) = ["http://2.2.2.2:80"]
      /\ trace (outside g2)
         = [EvLog (LogError (colly.URL (colly.Request_ r)) 0 err "http://1.1.1.1:80");
            EvLog (LogNetworkError err);
            EvLog (LogRemoved "http://1.1.1.1:80" 1);
            EvGoAsyncRefresh;
            EvRetry (colly.URL (colly.Request_ r));
            EvLog (LogRetried (colly.URL (colly.Request_ r)))])
  /\ (trace (outside (setupCallbacks_OnError (direct r) err g))
      = [EvLog (LogError (colly.URL (colly.Request_ r)) 0 err EmptyString);
         EvLog (LogOther err)]
      /\ trace (outside (setupErrorHandler_OnError (direct r) err g))
         = [EvLog (LogError (colly.URL (colly.Request_ r)) 0 err EmptyString);
            EvLog (LogNetworkError err);
            EvRetry (colly.URL (colly.Request_ r));
            EvLog (LogRetried (colly.URL (colly.Request_ r)))]
      /\ proxyManager (setupErrorHandler_OnError (direct r) err g) = proxyManager g).
Proof. repeat split; reflexivity. Qed.

(** ** Parsing the supplier's body *)

Lemma formatProxy_amended raw :
  formatProxy raw = amended_normalize (strings.TrimSpace raw).
Proof. reflexivity. Qed.

Lemma formatProxy_nonempty raw : formatProxy raw <> EmptyString.
Proof.
  intros H. pose proof (formatProxy_scheme raw) as [Hs|Hs]; rewrite H in Hs; discriminate.
Qed.

Lemma fetch_lines_pipeline lines : forall acc,
  fold_left fetch_line lines acc
  = acc ++ map formatProxy (filter (fun line => line ≠ EmptyString) (map clean_line lines)).
Proof.
  induction lines as [|line lines IH]; intros acc; simpl.
  - by rewrite app_nil_r.
  - rewrite IH. unfold fetch_line at 1. fold (clean_line line).
    rewrite filter_cons.
    destruct (String.eqb_spec (clean_line line) EmptyString) as [Hblank|Hentry].
    + rewrite decide_False by (intros Hne; apply Hne, Hblank). reflexivity.
    + rewrite decide_True by exact Hentry.
      destruct (String.eqb_spec (formatProxy (clean_line line)) EmptyString) as [Hempty|_].
      * by apply formatProxy_nonempty in Hempty.
      * simpl. rewrite <- app_assoc. reflexivity.
Qed.

Lemma parseProxies_pipeline body : parseProxies body = amended_parse body.
Proof. unfold parseProxies. rewrite fetch_lines_pipeline. reflexivity. Qed.

Lemma space2_CR c0 : strings.space2 c0 strings.CR = false.
Proof. unfold strings.space2. simpl. apply andb_false_r. Qed.

Lemma space3_CR c0 c1 : strings.space3 c0 c1 strings.CR = false.
Proof.
  unfold strings.space3. simpl.
  destruct (strings.code c0 =? 225)%N, (strings.code c0 =? 226)%N,
    (strings.code c0 =? 227)%N, (strings.code c1 =? 154)%N,
    (strings.code c1 =? 128)%N, (strings.code c1 =? 129)%N; reflexivity.
Qed.

Lemma TrimLeft_app_CR_bounded n : forall s,
  (String.length s <= n)%nat ->
  strings.TrimLeft (s +:+ CRs)
  = match strings.TrimLeft s with
    | EmptyString => EmptyString
    | t => t +:+ CRs
    end.
Proof.
  induction n as [|n IH]; intros s Hlen.
  - destruct s; [reflexivity|simpl in Hlen; lia].
  - destruct s as [|c0 [|c1 [|c2 s3]]]; simpl in Hlen.
    + reflexivity.
    + simpl. destruct (strings.asciiSpace c0); [reflexivity|].
      rewrite space2_CR. reflexivity.
    + simpl. destruct (strings.asciiSpace c0).
      * apply (IH (String c1 EmptyString)). simpl. lia.
      * destruct (strings.space2 c0 c1); [reflexivity|].
        rewrite space3_CR. reflexivity.
    + simpl. destruct (strings.asciiSpace c0).
      * apply (IH (String c1 (String c2 s3))). simpl. lia.
      * destruct (strings.space2 c0 c1).
        -- apply (IH (String c2 s3)). simpl. lia.
        -- destruct (strings.space3 c0 c1 c2); [|reflexivity].
           apply (IH s3). lia.
Qed.

Lemma TrimLeft_app_CR s :
  strings.TrimLeft (s +:+ CRs)
  = match strings.TrimLeft s with
    | EmptyString => EmptyString
    | t => t +:+ CRs
    end.
Proof. apply (TrimLeft_app_CR_bounded (String.length s)). lia. Qed.

Lemma TrimRight_app_CR s : strings.TrimRight (s +:+ CRs) = strings.TrimRight s.
Proof.
  induction s as [|c s IH]; [reflexivity|].
  change (String c s +:+ CRs) with (String c (s +:+ CRs)).
  change (strings.TrimRight (String c (s +:+ CRs)))
    with (match strings.TrimLeft (String c (s +:+ CRs)) with
          | EmptyString => EmptyString
          | _ => String c (strings.TrimRight (s +:+ CRs))
          end).
  change (strings.TrimRight (String c s))
    with (match strings.TrimLeft (String c s) with
          | EmptyString => EmptyString
          | _ => String c (strings.TrimRight s)
          end).
  change (String c (s +:+ CRs)) with (String c s +:+ CRs).
  rewrite TrimLeft_app_CR, IH.
  destruct (strings.TrimLeft (String c s)); reflexivity.
Qed.

Lemma TrimSpace_app_CR s : strings.TrimSpace (s +:+ CRs) = strings.TrimSpace s.
Proof.
  unfold strings.TrimSpace. rewrite TrimLeft_app_CR.
  destruct (strings.TrimLeft s) as [|c t] eqn:E; [reflexivity|].
  apply TrimRight_app_CR.
Qed.

Lemma clean_line_app_CR line : clean_line (line +:+ CRs) = clean_line line.
Proof. unfold clean_line. by rewrite TrimSpace_app_CR. Qed.

(** The pieces of the body with CR LF terminators are those of the body
    with LF terminators, some with a carriage return at the end. *)
Lemma Split_to_crlf body :
  Forall2 (fun piece piece' => piece = piece' \/ piece = piece' +:+ CRs)
    (strings.Split (to_crlf body) strings.LF) (strings.Split body strings.LF).
Proof.
  induction body as [|c body IH].
  - repeat constructor.
  - unfold to_crlf. simpl. fold (to_crlf body).
    destruct (Ascii.eqb_spec c strings.LF) as [->|Hc].
    + simpl. constructor; [by right|exact IH].
    + simpl. apply Ascii.eqb_neq in Hc. rewrite Hc.
      destruct IH as [|p p' ps ps' Hp Hps]; [repeat constructor|].
      constructor; [|exact Hps].
      destruct Hp as [->| ->]; [by left|by right].
Qed.

Lemma parseProxies_crlf body : parseProxies (to_crlf body) = parseProxies body.
Proof.
  rewrite !parseProxies_pipeline. unfold amended_parse. do 2 f_equal.
  induction (Split_to_crlf body) as [|p p' ps ps' Hp Hps IH]; [reflexivity|].
  simpl. rewrite IH. f_equal.
  destruct Hp as [->| ->]; [reflexivity|apply clean_line_app_CR].
Qed.

(** C8, as amended.  For every body, the new pool is made like this: the
    body is split at line feeds; each line is trimmed of white space and
    every carriage return still in it is deleted; lines that are then empty
    are skipped; each remaining entry is trimmed again, kept as it is when
    it begins with [http://] or [https://], and prefixed with [http://]
    otherwise, also when it carries another scheme.  A body with CR LF
    terminators gives the same pool as the body with LF terminators. *)
Theorem parseProxies_amended (body : string) :
  parseProxies body = amended_parse body
  /\ parseProxies (to_crlf body) = parseProxies body.
Proof. split; [apply parseProxies_pipeline|apply parseProxies_crlf]. Qed.

(** * The statements at concrete states *)

(** A decidable proposition about concrete data, settled by evaluating its
    decision procedure. *)
Ltac by_evaluation :=
  match goal with
  | |- ?P => apply (bool_decide_unpack P); vm_compute; exact I
  end.

(** C1 as the specification words it fails when the cursor is not at the
    start of the pool: from cursor 1 the three calls return the second, the
    third and then the first address, which is not the insertion order. *)
Lemma GetProxy_order_from_cursor :
  fst (GetProxy_times keep_rest 3 three_proxies)
  = [Proxy (url.mkURL string "http" "//2.2.2.2:80");
     Proxy (url.mkURL string "http" "//3.3.3.3:80");
     Proxy (url.mkURL string "http" "//1.1.1.1:80")]
  /\ fst (GetProxy_times keep_rest 3 three_proxies)
     <> map (parsed keep_rest) (proxies (pm three_proxies)).
Proof. split; [reflexivity|discriminate]. Qed.

Lemma GetProxy_round_robin_witness :
  NoDup (proxies (pm three_proxies))
  /\ cursor_ok (pm three_proxies)
  /\ pool_fits (pm three_proxies)
  /\ fst (GetProxy_times keep_rest 3 three_proxies)
     = map (parsed keep_rest)
         ["http://2.2.2.2:80"; "http://3.3.3.3:80"; "http://1.1.1.1:80"].
Proof.
  assert (Hnodup : NoDup (proxies (pm three_proxies))).
  { by_evaluation. }
  assert (Hcursor : cursor_ok (pm three_proxies)).
  { split; [simpl; lia|]. intros _. unfold len. simpl. lia. }
  assert (Hfits : pool_fits (pm three_proxies)).
  { unfold pool_fits, MaxInt, len. simpl. lia. }
  split; [exact Hnodup|]. split; [exact Hcursor|]. split; [exact Hfits|].
  exact (proj1 (GetProxy_round_robin keep_rest three_proxies Hnodup Hcursor Hfits)).
Defined.

Lemma GetProxy_empty_pool_witness :
  proxies (pm empty_pool) = []
  /\ calls (world (snd (GetProxy keep_rest empty_pool))) = 1%nat
  /\ fst (GetProxy keep_rest empty_pool) = parsed keep_rest "http://4.4.4.4:80".
Proof.
  split; [reflexivity|].
  destruct (GetProxy_empty_pool keep_rest empty_pool eq_refl) as [Hcalls Hresult].
  split; [exact Hcalls|exact (proj1 Hresult)].
Defined.

Lemma cursor_invariant_witness :
  cursor_ok (pm cursor_at_end)
  /\ pool_fits (pm cursor_at_end)
  /\ supplier_fits (supplier (world cursor_at_end))
  /\ cursor_ok (pm (snd (RemoveProxy "http://1.1.1.1:80" cursor_at_end)))
  /\ currentIndex (pm (snd (RemoveProxy "http://1.1.1.1:80" cursor_at_end))) = 0.
Proof.
  assert (Hcursor : cursor_ok (pm cursor_at_end)).
  { split; [simpl; lia|]. intros _. unfold len. simpl. lia. }
  assert (Hfits : pool_fits (pm cursor_at_end)).
  { unfold pool_fits, MaxInt, len. simpl. lia. }
  assert (Hsup : supplier_fits (supplier (world cursor_at_end))).
  { intros k code body [= _ <-]. unfold MaxInt. simpl. lia. }
  destruct (cursor_invariant keep_rest (OpRemoveProxy "http://1.1.1.1:80") cursor_at_end
              Hcursor Hfits Hsup) as [(Hok & _) Hreset].
  split; [exact Hcursor|]. split; [exact Hfits|]. split; [exact Hsup|].
  split; [exact Hok|].
  apply (Hreset "http://1.1.1.1:80" [] ["http://2.2.2.2:80"; "http://3.3.3.3:80"]).
  - reflexivity.
  - reflexivity.
  - apply not_elem_of_nil.
  - unfold len. simpl. lia.
Defined.

Lemma MarkVisited_idempotent_witness :
  let s := storage two_proxies in
  let url := "https://www.gsmarena.com/apple_iphone_15-12559.php" in
  fst (MarkVisited s url "2026-01-01T00:00:00Z") = None
  /\ Z.of_nat (String.length "2026-01-02T00:00:00Z") <= bolt.MaxValueSize
  /\ fst (MarkVisited (snd (MarkVisited s url "2026-01-01T00:00:00Z")) url
            "2026-01-02T00:00:00Z") = None
  /\ IsVisited (snd (MarkVisited s url "2026-01-01T00:00:00Z")) url = true.
Proof.
  intros s url.
  assert (Hfirst : fst (MarkVisited s url "2026-01-01T00:00:00Z") = None) by reflexivity.
  assert (Hlen : Z.of_nat (String.length "2026-01-02T00:00:00Z") <= bolt.MaxValueSize)
    by (unfold bolt.MaxValueSize; simpl; lia).
  destruct (MarkVisited_idempotent s url "2026-01-01T00:00:00Z" "2026-01-02T00:00:00Z"
              Hfirst Hlen) as (Hsecond & Hvisited & _).
  split; [exact Hfirst|]. split; [exact Hlen|]. split; [exact Hsecond|exact Hvisited].
Defined.

Lemma RemoveProxy_frame_witness :
  ("http://9.9.9.9:80" ∉ proxies (pm three_proxies))
  /\ pm (snd (RemoveProxy "http://9.9.9.9:80" three_proxies)) = pm three_proxies
  /\ proxies (pm three_proxies)
     = ["http://1.1.1.1:80"] ++ "http://2.2.2.2:80" :: ["http://3.3.3.3:80"]
  /\ ("http://2.2.2.2:80" ∉ ["http://1.1.1.1:80"])
  /\ proxies (pm (snd (RemoveProxy "http://2.2.2.2:80" three_proxies)))
     = ["http://1.1.1.1:80"; "http://3.3.3.3:80"].
Proof.
  assert (Habsent : "http://9.9.9.9:80" ∉ proxies (pm three_proxies)).
  { by_evaluation. }
  assert (Hfirst : "http://2.2.2.2:80" ∉ ["http://1.1.1.1:80"]).
  { by_evaluation. }
  split; [exact Habsent|].
  split; [exact (proj1 (proj1 (RemoveProxy_frame "http://9.9.9.9:80" three_proxies) Habsent))|].
  split; [reflexivity|]. split; [exact Hfirst|].
  exact (proj2 (RemoveProxy_frame "http://2.2.2.2:80" three_proxies)
           ["http://1.1.1.1:80"] ["http://3.3.3.3:80"] eq_refl Hfirst).
Defined.

Lemma pool_scheme_invariant_witness :
  pool_schemes (pm three_proxies)
  /\ pool_schemes (pm (snd (run_op keep_rest OpFetchProxies three_proxies)))
  /\ proxies (pm (snd (run_op keep_rest OpFetchProxies three_proxies)))
     = ["http://4.4.4.4:80"; "http://5.5.5.5:80"]
  /\ fst (GetProxy keep_rest three_proxies) = Proxy (url.mkURL string "http" "//2.2.2.2:80")
  /\ (url.Scheme (url.mkURL string "http" "//2.2.2.2:80") = "http"
      \/ url.Scheme (url.mkURL string "http" "//2.2.2.2:80") = "https").
Proof.
  assert (Hinv : pool_schemes (pm three_proxies)).
  { repeat constructor. }
  split; [exact Hinv|].
  split; [exact (proj1 (pool_scheme_invariant keep_rest OpFetchProxies three_proxies Hinv))|].
  split; [reflexivity|]. split; [reflexivity|].
  exact (proj1 (proj2 (proj2 (pool_scheme_invariant keep_rest OpGetProxy three_proxies Hinv)))
           (url.mkURL string "http" "//2.2.2.2:80") eq_refl).
Defined.

(** C8 as the specification words it fails on an entry that carries a
    scheme other than [http] and [https]: the entry is not kept unchanged
    but prefixed with [http://]. *)
Lemma parseProxies_other_scheme :
  parseProxies "socks5://9.9.9.9:1080" = ["http://socks5://9.9.9.9:1080"]
  /\ spec_parse "socks5://9.9.9.9:1080" = ["socks5://9.9.9.9:1080"]
  /\ parseProxies "socks5://9.9.9.9:1080" <> spec_parse "socks5://9.9.9.9:1080".
Proof. repeat split; try reflexivity. discriminate. Qed.

(** A carriage return inside a line is deleted, not kept. *)
Lemma parseProxies_inner_CR :
  parseProxies ("1.2.3.4" +:+ String strings.CR ":80") = ["http://1.2.3.4:80"].
Proof. reflexivity. Qed.

(** C4 as the specification words it fails when [url.Parse] rejects the
    address the replenishment brought: the one request is sent and the pool
    holds the address, yet [GetProxy] returns the parse error and no
    address, whatever the rest of the parser accepts. *)
Lemma GetProxy_empty_pool_parse_error :
  proxies (pm odd_supplier) = []
  /\ calls (world (snd (GetProxy keep_rest odd_supplier))) = 1%nat
  /\ proxies (pm (snd (GetProxy keep_rest odd_supplier))) = ["http://" +:+ control_byte]
  /\ (forall Tail (parseTail : string -> string -> string -> option Tail),
        fst (GetProxy parseTail odd_supplier)
        = Failed (ErrParseURL ("http://" +:+ control_byte))).
Proof. repeat split; reflexivity. Qed.

(** C10 as the specification words it fails on a pool entry that begins with
    [http://] and that [url.Parse] rejects: the pool [fetchProxies] builds
    from an address with a control byte keeps the invariant, and [url.Parse]
    yields no URL for its entry, so that [GetProxy] returns the parse
    error. *)
Lemma pool_entry_rejected :
  proxies (pm odd_pool) = ["http://" +:+ control_byte]
  /\ pool_schemes (pm odd_pool)
  /\ (forall Tail (parseTail : string -> string -> string -> option Tail),
        url.Parse parseTail ("http://" +:+ control_byte) = None
        /\ fst (GetProxy parseTail odd_pool)
           = Failed (ErrParseURL ("http://" +:+ control_byte))).
Proof.
  split; [reflexivity|]. split; [|intros Tail parseTail; split; reflexivity].
  constructor; [left; reflexivity|constructor].
Qed.

(** * The rest of the program: facts *)

(** ** [storage.go] *)

Lemma MarkVisited_result s url timestamp :
  MarkVisited s url timestamp =
  if bolt.opened (db s) then
    match bolt.file (db s) !! bucketName s with
    | None => (Some (ErrMark ErrNoBucket), s)
    | Some b =>
        match bolt.Put b url timestamp with
        | inl e => (Some (ErrMark (ErrBolt e)), s)
        | inr b' =>
            (None, mkBoltStorage (bolt.mkDB true (<[bucketName s := b']> (bolt.file (db s))))
                     (bucketName s))
        end
    end
  else (Some (ErrMark (ErrBolt bolt.ErrDatabaseNotOpen)), s).
Proof.
  unfold MarkVisited, bolt.Update. destruct s as [[o f] n]. simpl.
  destruct o; [|reflexivity].
  destruct (f !! n) as [b|]; [|reflexivity].
  destruct (bolt.Put b url timestamp); reflexivity.
Qed.

Lemma IsVisited_result s url :
  IsVisited s url =
  if bolt.opened (db s) then
    match bolt.file (db s) !! bucketName s with
    | None => false
    | Some b => bool_decide (url ∈ dom b)
    end
  else false.
Proof.
  unfold IsVisited, bolt.View, bolt.Get.
  destruct (bolt.opened (db s)); [|reflexivity].
  destruct (bolt.file (db s) !! bucketName s) as [b|]; [|reflexivity].
  apply bool_decide_ext. rewrite elem_of_dom. apply not_eq_None_Some.
Qed.

(** X1. [NewBoltStorage] fails exactly when [bolt.Open] does (the path
    cannot be opened, another process holds the file lock until the
    time-out, or the file is not a database) or the bucket name is empty;
    otherwise the store it returns is open on the given bucket, a URL is
    visited in it exactly when the file had it as a key of that bucket
    (none, for a file that was created), and the other buckets of the file
    are untouched. *)
Theorem NewBoltStorage_opens (files : string -> bolt.Found) (dbPath name : string) :
  match NewBoltStorage files dbPath name with
  | inl _ =>
      (exists cause, files dbPath = bolt.Unopenable cause)
      \/ files dbPath = bolt.Locked
      \/ (exists why, files dbPath = bolt.Damaged why)
      \/ name = EmptyString
  | inr s =>
      exists contents,
        (files dbPath = bolt.Holds contents
         \/ files dbPath = bolt.Empty /\ contents = ∅)
        /\ name <> EmptyString
        /\ bucketName s = name /\ usable s
        /\ (forall url, IsVisited s url = true <->
                        exists b, contents !! name = Some b /\ url ∈ dom b)
        /\ (forall other, other <> name -> bolt.file (db s) !! other = contents !! other)
  end.
Proof.
  assert (Hopened : forall contents,
    match NewBoltStorage (fun _ => bolt.Holds contents) dbPath name with
    | inl _ => name = EmptyString
    | inr s =>
        name <> EmptyString
        /\ bucketName s = name /\ usable s
        /\ (forall url, IsVisited s url = true <->
                        exists b, contents !! name = Some b /\ url ∈ dom b)
        /\ (forall other, other <> name -> bolt.file (db s) !! other = contents !! other)
    end).
  { intros contents.
    unfold NewBoltStorage, bolt.Open, bolt.Update, bolt.CreateBucketIfNotExists. simpl.
    destruct (String.eqb_spec name EmptyString) as [->|Hname]; simpl; [done|].
    destruct (contents !! name) as [b|] eqn:Hb; simpl.
    - refine (conj Hname (conj eq_refl (conj _ (conj _ _)))).
      + split; [done|]. simpl. rewrite Hb. by eexists.
      + intros url. rewrite IsVisited_result. simpl. rewrite Hb, bool_decide_eq_true.
        split; [intros H; by exists b|intros (b' & [= <-] & Hin); done].
      + done.
    - refine (conj Hname (conj eq_refl (conj _ (conj _ _)))).
      + split; [done|]. simpl. rewrite lookup_insert_eq. by eexists.
      + intros url. rewrite IsVisited_result. simpl.
        rewrite lookup_insert_eq, bool_decide_eq_true, dom_empty_L.
        split; [intros []%elem_of_empty|intros (b' & [=] & _)].
      + intros other Hne. simpl. by rewrite lookup_insert_ne. }
  destruct (files dbPath) as [cause| | |why|contents] eqn:Hfound.
  - unfold NewBoltStorage, bolt.Open. rewrite Hfound. left. by exists cause.
  - unfold NewBoltStorage, bolt.Open. rewrite Hfound. right. by left.
  - assert (NewBoltStorage files dbPath name
            = NewBoltStorage (fun _ => bolt.Holds ∅) dbPath name) as ->
      by (unfold NewBoltStorage, bolt.Open; rewrite Hfound; reflexivity).
    specialize (Hopened ∅).
    destruct (NewBoltStorage (fun _ => bolt.Holds ∅) dbPath name) as [e|s].
    + by repeat right.
    + exists ∅. split; [by right|exact Hopened].
  - unfold NewBoltStorage, bolt.Open. rewrite Hfound.
    destruct why; right; right; left; by eexists.
  - assert (NewBoltStorage files dbPath name
            = NewBoltStorage (fun _ => bolt.Holds contents) dbPath name) as ->
      by (unfold NewBoltStorage, bolt.Open; rewrite Hfound; reflexivity).
    specialize (Hopened contents).
    destruct (NewBoltStorage (fun _ => bolt.Holds contents) dbPath name) as [e|s].
    + by repeat right.
    + exists contents. split; [by left|exact Hopened].
Qed.

(** X2. What was marked survives a restart: after a successful
    [MarkVisited] on a store with a non-empty bucket name, [Close] and a new
    [NewBoltStorage] on the path that holds the file the store wrote, with
    the same bucket, succeed, and every URL is visited after the restart
    exactly when it was before; the marked URL in particular. *)
Theorem MarkVisited_survives_restart (s : BoltStorage) (url timestamp : string)
  (files : string -> bolt.Found) (dbPath : string) :
  bucketName s <> EmptyString ->
  fst (MarkVisited s url timestamp) = None ->
  let s1 := snd (MarkVisited s url timestamp) in
  files dbPath = bolt.Holds (bolt.file (db (Close s1))) ->
  exists s2,
    NewBoltStorage files dbPath (bucketName s1) = inr s2
    /\ IsVisited s2 url = true
    /\ (forall other, IsVisited s2 other = IsVisited s1 other).
Proof.
  intros Hname Hok s1.
  destruct (MarkVisited_ok _ _ _ Hok) as (b & Hopen & Hbucket & Hkey & Hklen & Hs1).
  fold s1 in Hs1. rewrite Hs1. simpl. intros Hfile.
  unfold NewBoltStorage, bolt.Open, bolt.Update, bolt.CreateBucketIfNotExists.
  rewrite Hfile. simpl.
  destruct (String.eqb_spec (bucketName s) EmptyString) as [Hempty|_]; [done|].
  rewrite lookup_insert_eq. eexists. split; [reflexivity|].
  assert (Hsame : forall other,
    IsVisited (mkBoltStorage
                 (bolt.mkDB true (<[bucketName s := <[url := timestamp]> b]> (bolt.file (db s))))
                 (bucketName s)) other = true <-> other ∈ dom (<[url := timestamp]> b)).
  { intros other. rewrite IsVisited_result. simpl. rewrite lookup_insert_eq.
    apply bool_decide_eq_true. }
  split; [|done].
  apply Hsame, elem_of_dom. rewrite lookup_insert_eq. by eexists.
Qed.

(** X3. A closed store fails open: [IsVisited] answers [false] for every
    URL, [MarkVisited] returns an error and changes nothing, [GetStats]
    reports the error with count 0, and closing again changes nothing. *)
Theorem Close_fails_open (s : BoltStorage) (url timestamp : string) :
  IsVisited (Close s) url = false
  /\ MarkVisited (Close s) url timestamp
     = (Some (ErrMark (ErrBolt bolt.ErrDatabaseNotOpen)), Close s)
  /\ GetStats (Close s) = (0, Some (ErrBolt bolt.ErrDatabaseNotOpen))
  /\ Close (Close s) = Close s.
Proof.
  rewrite IsVisited_result, MarkVisited_result. repeat split.
Qed.

(** X4. [MarkVisited] succeeds exactly when the database is open, has the
    bucket, and the URL is neither empty nor longer than 32768 bytes (the
    timestamp being of admissible size); when it fails the store is what it
    was. *)
Theorem MarkVisited_succeeds_iff (s : BoltStorage) (url timestamp : string) :
  Z.of_nat (String.length timestamp) <= bolt.MaxValueSize ->
  (fst (MarkVisited s url timestamp) = None <->
   usable s /\ url <> EmptyString /\ Z.of_nat (String.length url) <= bolt.MaxKeySize)
  /\ (fst (MarkVisited s url timestamp) <> None ->
      snd (MarkVisited s url timestamp) = s).
Proof.
  intros Hts. rewrite MarkVisited_result. unfold usable.
  destruct (bolt.opened (db s)); simpl.
  2: { split; [|done]. split; [done|]. intros (([=] & _) & _). }
  destruct (bolt.file (db s) !! bucketName s) as [b|]; simpl.
  2: { split; [|done]. split; [done|]. intros ((_ & [x [=]]) & _). }
  destruct (bolt.Put b url timestamp) as [e|b'] eqn:Hput; simpl.
  - split; [|done]. split; [done|]. intros (_ & Hkey & Hlen).
    rewrite Put_ok in Hput by done. discriminate.
  - apply Put_inv in Hput as (Hkey & Hlen & _ & _).
    split; [|done]. split; [|done]. intros _. split; [|done]. split; [done|by eexists].
Qed.

Lemma MarkVisited_others (s : BoltStorage) (url timestamp other : string) :
  let s' := snd (MarkVisited s url timestamp) in
  (IsVisited s other = true -> IsVisited s' other = true)
  /\ (other <> url -> IsVisited s' other = IsVisited s other).
Proof.
  intros s'. subst s'. rewrite MarkVisited_result, !IsVisited_result.
  destruct (bolt.opened (db s)) eqn:Hopen; simpl; [|by rewrite Hopen].
  destruct (bolt.file (db s) !! bucketName s) as [b|] eqn:Hb; simpl;
    [|by rewrite Hopen, Hb].
  destruct (bolt.Put b url timestamp) as [e|b'] eqn:Hput; simpl;
    [by rewrite Hopen, Hb|].
  apply Put_inv in Hput as (_ & _ & _ & ->).
  rewrite lookup_insert_eq. split.
  - intros H%bool_decide_eq_true. apply bool_decide_eq_true.
    rewrite dom_insert_L, elem_of_union. by right.
  - intros Hne. apply bool_decide_ext.
    rewrite dom_insert_L, elem_of_union, elem_of_singleton.
    split; [intros [?|?]; done|by right].
Qed.

(** X5. [MarkVisited] never un-marks: a URL that was visited is still
    visited afterwards, whether the call succeeds or not, and the answer of
    [IsVisited] changes for no URL other than the one marked. *)
Theorem MarkVisited_monotone (s : BoltStorage) (url timestamp other : string) :
  let s' := snd (MarkVisited s url timestamp) in
  (IsVisited s other = true -> IsVisited s' other = true)
  /\ (other <> url -> IsVisited s' other = IsVisited s other).
Proof.
  intros s'. subst s'. rewrite MarkVisited_result, !IsVisited_result.
  destruct (bolt.opened (db s)) eqn:Hopen; simpl; [|by rewrite Hopen].
  destruct (bolt.file (db s) !! bucketName s) as [b|] eqn:Hb; simpl;
    [|by rewrite Hopen, Hb].
  destruct (bolt.Put b url timestamp) as [e|b'] eqn:Hput; simpl;
    [by rewrite Hopen, Hb|].
  apply Put_inv in Hput as (_ & _ & _ & ->).
  rewrite lookup_insert_eq. split.
  - intros H%bool_decide_eq_true. apply bool_decide_eq_true.
    rewrite dom_insert_L, elem_of_union. by right.
  - intros Hne. apply bool_decide_ext.
    rewrite dom_insert_L, elem_of_union, elem_of_singleton.
    split; [intros [?|?]; done|by right].
Qed.

(** X6. [GetStats] counts the marked URLs: a successful [MarkVisited] adds
    one to the count when the URL was not visited before and leaves the
    count as it was when it was. *)
Theorem GetStats_counts (s : BoltStorage) (url timestamp : string) :
  fst (MarkVisited s url timestamp) = None ->
  exists n,
    GetStats s = (n, None)
    /\ GetStats (snd (MarkVisited s url timestamp))
       = ((if IsVisited s url then n else n + 1), None)
    /\ 0 <= n.
Proof.
  intros Hok.
  destruct (MarkVisited_ok _ _ _ Hok) as (b & Hopen & Hbucket & _ & _ & ->).
  exists (KeyN b). unfold GetStats, bolt.View. rewrite IsVisited_result. simpl.
  rewrite Hopen, Hbucket, lookup_insert_eq.
  split; [reflexivity|]. split; [|unfold KeyN; lia].
  f_equal. unfold KeyN.
  destruct (b !! url) as [old|] eqn:Hlook.
  - rewrite bool_decide_eq_true_2 by (apply elem_of_dom; by eexists).
    rewrite <- (insert_delete_id b url old Hlook) at 2.
    rewrite <- insert_delete_eq.
    rewrite !map_size_insert_None by apply lookup_delete_eq. reflexivity.
  - rewrite bool_decide_eq_false_2 by (rewrite elem_of_dom, Hlook; intros [? [=]]).
    rewrite map_size_insert_None by done. lia.
Qed.

(** ** [proxy_pool.go] *)

(** X7. [RemoveProxy] lowers [Count] by exactly one when the address is in
    the pool, also when it occurs more than once, and leaves [Count] as it
    is when the address is absent. *)
Theorem RemoveProxy_Count (proxyURL : string) (s : St) :
  fst (Count (snd (RemoveProxy proxyURL s)))
  = if bool_decide (proxyURL ∈ proxies (pm s))
    then fst (Count s) - 1 else fst (Count s).
Proof.
  unfold Count, bind, self, ret. simpl.
  destruct (decide (proxyURL ∈ proxies (pm s))) as [Hin|Hnotin].
  - rewrite bool_decide_eq_true_2 by done.
    destruct (first_occurrence _ _ Hin) as (before & after & Hsplit & Hfirst).
    destruct (RemoveProxy_present _ _ _ _ Hsplit Hfirst) as (-> & _).
    unfold removed. simpl. rewrite Hsplit. unfold len. rewrite !length_app. simpl. lia.
  - rewrite bool_decide_eq_false_2 by done.
    rewrite (RemoveProxy_absent _ _ Hnotin). reflexivity.
Qed.

(** X8. [RemoveProxy] never contacts the supplier: the number of requests
    sent is unchanged, and all it adds to the trace is its log line and,
    exactly when it removed an address and the pool is then below
    [minThreshold], the start of one [asyncRefresh] goroutine. *)
Theorem RemoveProxy_does_not_block (proxyURL : string) (s : St) :
  let s' := snd (RemoveProxy proxyURL s) in
  calls (world s') = calls (world s)
  /\ trace (world s') = trace (world s) ++ removal_events proxyURL (pm s)
  /\ (EvGoAsyncRefresh ∈ removal_events proxyURL (pm s) <->
      proxyURL ∈ proxies (pm s) /\ len (proxies (pm s)) - 1 < minThreshold (pm s)).
Proof.
  intros s'. subst s'. rewrite RemoveProxy_world. simpl.
  split; [reflexivity|]. split; [reflexivity|].
  unfold removal_events.
  destruct (decide (proxyURL ∈ proxies (pm s))) as [Hin|Hnotin].
  - rewrite bool_decide_eq_true_2 by done.
    destruct (Z.ltb_spec (len (proxies (pm s)) - 1) (minThreshold (pm s))).
    + split; [done|]. intros _. apply elem_of_cons. right. apply list_elem_of_singleton.
      reflexivity.
    + split; [|lia]. intros H0%list_elem_of_singleton. discriminate.
  - rewrite bool_decide_eq_false_2 by done.
    split; [|intros [? _]; done]. intros H0%list_elem_of_singleton. discriminate.
Qed.

(** X9. On a non-empty pool with a valid cursor [GetProxy] does not wait for
    the supplier: no request is sent, the pool keeps its addresses, the
    address under the cursor is the one selected, and the only event is the
    start of an [asyncRefresh] goroutine, exactly when the pool is below
    [minThreshold]. *)
Theorem GetProxy_does_not_block {Tail} (parseTail : string -> string -> string -> option Tail)
  (s : St) :
  proxies (pm s) <> [] -> cursor_ok (pm s) -> pool_fits (pm s) ->
  let s' := snd (GetProxy parseTail s) in
  calls (world s') = calls (world s)
  /\ proxies (pm s') = proxies (pm s)
  /\ trace (world s')
     = trace (world s)
       ++ (if len (proxies (pm s)) <? minThreshold (pm s) then [EvGoAsyncRefresh] else [])
  /\ exists proxyStr,
      proxies (pm s) !! Z.to_nat (currentIndex (pm s)) = Some proxyStr
      /\ fst (GetProxy parseTail s) = parsed parseTail proxyStr.
Proof.
  intros Hne [Hlo Hhi] Hfits s'. subst s'. specialize (Hhi Hne).
  destruct (lookup_lt_is_Some_2 (proxies (pm s)) (Z.to_nat (currentIndex (pm s))))
    as [proxyStr Hlook]; [unfold len in Hhi; lia|].
  rewrite (GetProxy_nonempty parseTail s Hne).
  rewrite (GetProxy_select_valid parseTail (low_water s) proxyStr);
    rewrite ?low_water_pm; [|lia|done|done].
  simpl. unfold low_water.
  destruct (len (proxies (pm s)) <? minThreshold (pm s)); simpl;
    rewrite ?app_nil_r; repeat split; try done; by exists proxyStr.
Qed.

Lemma keeps_run_all {Tail} (parseTail : string -> string -> string -> option Tail) cs :
  preserves cursor_inv (run_all parseTail cs).
Proof.
  induction cs as [|c cs IH]; simpl; [apply preserves_ret|].
  apply preserves_bind; [|intros _; exact IH].
  destruct c; simpl.
  - apply preserves_bind; [|intros; apply preserves_ret].
    apply (keeps_GetProxy_select cursor_inv cursor_inv_next).
  - apply (keeps_RemoveProxy cursor_inv cursor_inv_removed).
  - apply preserves_bind; [|intros; apply preserves_ret].
    apply (keeps_fetchProxies cursor_inv cursor_inv_parsed).
  - apply preserves_update. intros p sup H. exact H.
Qed.

Lemma GetProxy_select_no_panic {Tail} (parseTail : string -> string -> string -> option Tail) s :
  cursor_ok (pm s) -> fst (GetProxy_select parseTail s) <> Panicked.
Proof.
  intros [Hlo Hhi]. unfold GetProxy_select, bind, self.
  destruct (len (proxies (pm s)) =? 0) eqn:Hlen; [discriminate|].
  apply Z.eqb_neq in Hlen.
  assert (Hne : proxies (pm s) <> []) by (intros Hnil; rewrite Hnil in Hlen; done).
  specialize (Hhi Hne). rewrite index_Some by lia.
  destruct (lookup_lt_is_Some_2 (proxies (pm s)) (Z.to_nat (currentIndex (pm s))))
    as [proxyStr ->]; [unfold len in Hhi; lia|].
  simpl. unfold parsed. destruct (url.Parse parseTail proxyStr); discriminate.
Qed.

(** X10. [pm.proxies[pm.currentIndex]] is never out of range: after
    [NewProxyManager] and any sequence of critical sections of any
    goroutines (selections, removals, replacements, flag writes, in any
    order), the cursor is valid, and neither the selection of [GetProxy] nor
    a whole [GetProxy] panics. *)
Theorem GetProxy_never_panics {Tail} (parseTail : string -> string -> string -> option Tail)
  (apiURL : string) (minThreshold : Z) (cs : list Critical) (s : St) :
  supplier_fits (supplier (world s)) ->
  let s' := snd ((NewProxyManager apiURL minThreshold ;;; run_all parseTail cs) s) in
  cursor_ok (pm s')
  /\ fst (GetProxy_select parseTail s') <> Panicked
  /\ fst (GetProxy parseTail s') <> Panicked.
Proof.
  intros Hsup s'.
  assert (Hinv : holds cursor_inv s').
  { subst s'. rewrite bind_snd.
    apply keeps_run_all, NewProxyManager_cursor_inv, Hsup. }
  clearbody s'. split; [apply Hinv|]. split.
  - apply GetProxy_select_no_panic, Hinv.
  - destruct (decide (proxies (pm s') = [])) as [Hnil|Hne].
    + rewrite (GetProxy_empty parseTail s' Hnil). cbv zeta.
      set (s0 := mkSt (pm s') (emit (EvLog LogEmptyPool) (world s'))).
      assert (H1 : holds cursor_inv (snd (fetchProxies s0))).
      { apply (keeps_fetchProxies cursor_inv cursor_inv_parsed). exact Hinv. }
      destruct (fst (fetchProxies s0)); [discriminate|].
      destruct (len (proxies (pm (snd (fetchProxies s0)))) =? 0); [discriminate|].
      apply GetProxy_select_no_panic. rewrite low_water_pm. apply H1.
    + rewrite (GetProxy_nonempty parseTail s' Hne).
      apply GetProxy_select_no_panic. rewrite low_water_pm. apply Hinv.
Qed.

(** X11. [asyncRefresh] run without interruption: when [isRefreshing] is
    already set it does nothing at all; otherwise it sends exactly one
    request, leaves the receiver as [fetchProxies] does for the reply, and
    [isRefreshing] is false again when it returns, also when the fetch
    failed. *)
Theorem asyncRefresh_resets_flag (s : St) :
  let s' := snd (asyncRefresh s) in
  if isRefreshing (pm s) then s' = s
  else
    calls (world s') = S (calls (world s))
    /\ isRefreshing (pm s') = false
    /\ proxies (pm s') = proxies (snd (fetched (next_reply s) (pm s)))
    /\ currentIndex (pm s') = currentIndex (snd (fetched (next_reply s) (pm s))).
Proof.
  intros s'. subst s'. unfold asyncRefresh. rewrite bind_snd. simpl.
  destruct (isRefreshing (pm s)) eqn:Hflag; [reflexivity|].
  rewrite bind_snd.
  destruct (RefreshFacts.asyncRefresh_recv_effect
              (fst (asyncRefresh_send s)) (snd (asyncRefresh_send s))) as [Hf Hc].
  rewrite Hf, Hc. split; [reflexivity|]. split; [reflexivity|].
  unfold asyncRefresh_recv, fetchProxies_recv, recv_Get, bind, fetchProxies_reply, fetched.
  simpl. unfold next_reply.
  destruct (supplier (world s) (calls (world s))) as [cause|code [body|cause]];
    [|destruct (code =? 200)..]; simpl; done.
Qed.

(** ** White space *)

Lemma TrimLeft_peel s :
  strings.TrimLeft s = match peel s with Some r => strings.TrimLeft r | None => s end.
Proof.
  destruct s as [|c0 [|c1 [|c2 s3]]]; simpl; try reflexivity.
  - destruct (strings.asciiSpace c0); reflexivity.
  - destruct (strings.asciiSpace c0); [reflexivity|].
    destruct (strings.space2 c0 c1); reflexivity.
  - destruct (strings.asciiSpace c0); [reflexivity|].
    destruct (strings.space2 c0 c1); [reflexivity|].
    destruct (strings.space3 c0 c1 c2); reflexivity.
Qed.

Lemma peel_shorter s r : peel s = Some r -> (String.length r < String.length s)%nat.
Proof.
  destruct s as [|c0 [|c1 [|c2 s3]]]; simpl; try discriminate.
  - destruct (strings.asciiSpace c0); intros [= <-]; simpl; lia.
  - destruct (strings.asciiSpace c0); [intros [= <-]; simpl; lia|].
    destruct (strings.space2 c0 c1); intros [= <-]; simpl; lia.
  - destruct (strings.asciiSpace c0); [intros [= <-]; simpl; lia|].
    destruct (strings.space2 c0 c1); [intros [= <-]; simpl; lia|].
    destruct (strings.space3 c0 c1 c2); intros [= <-]; simpl; lia.
Qed.

Lemma peel_app s r w : peel s = Some r -> peel (s +:+ w) = Some (r +:+ w).
Proof.
  destruct s as [|c0 [|c1 [|c2 s3]]]; simpl; try discriminate.
  - destruct (strings.asciiSpace c0); [|discriminate]. intros [= <-]. reflexivity.
  - destruct (strings.asciiSpace c0); [intros [= <-]; reflexivity|].
    destruct (strings.space2 c0 c1); [|discriminate]. intros [= <-]. reflexivity.
  - destruct (strings.asciiSpace c0); [intros [= <-]; reflexivity|].
    destruct (strings.space2 c0 c1); [intros [= <-]; reflexivity|].
    destruct (strings.space3 c0 c1 c2); [|discriminate]. intros [= <-]. reflexivity.
Qed.

(** Induction on strings along [peel]. *)
Lemma peel_ind (P : string -> Prop) :
  (forall s, peel s = None -> P s) ->
  (forall s r, peel s = Some r -> P r -> P s) ->
  forall s, P s.
Proof.
  intros Hstop Hstep s.
  remember (String.length s) as n eqn:Hn.
  revert s Hn. induction n as [n IH] using lt_wf_ind. intros s ->.
  destruct (peel s) as [r|] eqn:Hpeel; [|by apply Hstop].
  apply (Hstep s r Hpeel). apply (IH (String.length r)); [|reflexivity].
  by apply peel_shorter.
Qed.

Lemma TrimLeft_length s : (String.length (strings.TrimLeft s) <= String.length s)%nat.
Proof.
  induction s as [s Hpeel|s r Hpeel IH] using peel_ind; rewrite TrimLeft_peel, Hpeel.
  - lia.
  - apply peel_shorter in Hpeel. lia.
Qed.

Lemma TrimLeft_fixed s : strings.TrimLeft s = s <-> peel s = None.
Proof.
  split.
  - intros Hfix. destruct (peel s) as [r|] eqn:Hpeel; [|reflexivity].
    rewrite TrimLeft_peel, Hpeel in Hfix.
    pose proof (TrimLeft_length r) as Hlen. rewrite Hfix in Hlen.
    apply peel_shorter in Hpeel. lia.
  - intros Hpeel. by rewrite TrimLeft_peel, Hpeel.
Qed.

Lemma TrimLeft_peel_None s : peel (strings.TrimLeft s) = None.
Proof.
  induction s as [s Hpeel|s r Hpeel IH] using peel_ind; rewrite TrimLeft_peel, Hpeel; done.
Qed.

Lemma TrimLeft_idem s : strings.TrimLeft (strings.TrimLeft s) = strings.TrimLeft s.
Proof. apply TrimLeft_fixed, TrimLeft_peel_None. Qed.

Lemma app_cons x (a b : string) : String x a +:+ b = String x (a +:+ b).
Proof. reflexivity. Qed.

Lemma app_assoc_string (a b c : string) : (a +:+ b) +:+ c = a +:+ (b +:+ c).
Proof.
  induction a as [|x a IH]; [reflexivity|]. by rewrite !app_cons, IH.
Qed.

Lemma app_empty_r (a : string) : a +:+ EmptyString = a.
Proof. induction a as [|x a IH]; [reflexivity|]. by rewrite app_cons, IH. Qed.

Lemma peel_split s r : peel s = Some r -> exists p, s = p +:+ r.
Proof.
  destruct s as [|c0 [|c1 [|c2 s3]]]; simpl; try discriminate.
  - destruct (strings.asciiSpace c0); [|discriminate]. intros [= <-].
    by exists (String c0 EmptyString).
  - destruct (strings.asciiSpace c0); [intros [= <-]; by exists (String c0 EmptyString)|].
    destruct (strings.space2 c0 c1); [|discriminate]. intros [= <-].
    by exists (String c0 (String c1 EmptyString)).
  - destruct (strings.asciiSpace c0); [intros [= <-]; by exists (String c0 EmptyString)|].
    destruct (strings.space2 c0 c1);
      [intros [= <-]; by exists (String c0 (String c1 EmptyString))|].
    destruct (strings.space3 c0 c1 c2); [|discriminate]. intros [= <-].
    by exists (String c0 (String c1 (String c2 EmptyString))).
Qed.

Lemma TrimLeft_suffix s : exists w, s = w +:+ strings.TrimLeft s.
Proof.
  induction s as [s Hpeel|s r Hpeel IH] using peel_ind; rewrite TrimLeft_peel, Hpeel.
  - by exists EmptyString.
  - destruct IH as [w Hw]. destruct (peel_split _ _ Hpeel) as [p ->].
    exists (p +:+ w). rewrite app_assoc_string. by rewrite <- Hw.
Qed.

(** White space followed by more text trims like the text. *)
Lemma TrimLeft_app_space s w :
  strings.TrimLeft s = EmptyString -> strings.TrimLeft (s +:+ w) = strings.TrimLeft w.
Proof.
  induction s as [s Hpeel|s r Hpeel IH] using peel_ind; intros Hs.
  - rewrite TrimLeft_peel, Hpeel in Hs. subst s. reflexivity.
  - rewrite TrimLeft_peel, Hpeel in Hs.
    rewrite TrimLeft_peel, (peel_app _ _ w Hpeel). by apply IH.
Qed.

Lemma TrimRight_prefix s :
  exists w, s = strings.TrimRight s +:+ w /\ strings.TrimLeft w = EmptyString.
Proof.
  induction s as [|c s IH]; [by exists EmptyString|].
  change (strings.TrimRight (String c s))
    with (match strings.TrimLeft (String c s) with
          | EmptyString => EmptyString
          | _ => String c (strings.TrimRight s)
          end).
  destruct (strings.TrimLeft (String c s)) eqn:E.
  - exists (String c s). done.
  - destruct IH as (w & Hw & Hspace). exists w. split; [|done].
    rewrite app_cons. by rewrite <- Hw.
Qed.

Lemma TrimRight_cons c s :
  strings.TrimRight (String c s)
  = match strings.TrimLeft (String c s) with
    | EmptyString => EmptyString
    | _ => String c (strings.TrimRight s)
    end.
Proof. reflexivity. Qed.

Lemma TrimRight_idem s : strings.TrimRight (strings.TrimRight s) = strings.TrimRight s.
Proof.
  induction s as [|c s IH]; [reflexivity|].
  rewrite TrimRight_cons.
  destruct (strings.TrimLeft (String c s)) eqn:E; [reflexivity|].
  rewrite TrimRight_cons, IH.
  destruct (strings.TrimLeft (String c (strings.TrimRight s))) eqn:E'; [|reflexivity].
  destruct (TrimRight_prefix s) as (w & Hw & Hspace).
  pose proof (TrimLeft_app_space (String c (strings.TrimRight s)) w E') as H.
  rewrite app_cons, <- Hw, E, Hspace in H. discriminate.
Qed.

Lemma peel_prefix p w : peel (p +:+ w) = None -> peel p = None.
Proof.
  intros H. destruct (peel p) as [r|] eqn:Hp; [|reflexivity].
  rewrite (peel_app _ _ w Hp) in H. discriminate.
Qed.

Lemma TrimLeft_TrimRight s :
  strings.TrimLeft s = s -> strings.TrimLeft (strings.TrimRight s) = strings.TrimRight s.
Proof.
  intros Hfix. apply TrimLeft_fixed. apply TrimLeft_fixed in Hfix.
  destruct (TrimRight_prefix s) as (w & Hw & _).
  rewrite Hw in Hfix. by apply peel_prefix in Hfix.
Qed.

Lemma TrimSpace_idem s : strings.TrimSpace (strings.TrimSpace s) = strings.TrimSpace s.
Proof.
  unfold strings.TrimSpace.
  rewrite (TrimLeft_TrimRight _ (TrimLeft_idem s)). apply TrimRight_idem.
Qed.

Lemma TrimSpace_parts s :
  strings.TrimLeft (strings.TrimSpace s) = strings.TrimSpace s
  /\ strings.TrimRight (strings.TrimSpace s) = strings.TrimSpace s.
Proof.
  unfold strings.TrimSpace. split.
  - apply TrimLeft_TrimRight, TrimLeft_idem.
  - apply TrimRight_idem.
Qed.

(** A byte below 128 that is no white space starts no white-space rune. *)
Lemma peel_plain c s :
  strings.asciiSpace c = false -> (strings.code c <? 128)%N = true ->
  peel (String c s) = None.
Proof.
  intros Hsp Hlow. apply N.ltb_lt in Hlow.
  assert (H2 : forall c1, strings.space2 c c1 = false).
  { intros c1. unfold strings.space2.
    destruct (N.eqb_spec (strings.code c) 194); [lia|reflexivity]. }
  assert (H3 : forall c1 c2, strings.space3 c c1 c2 = false).
  { intros c1 c2. unfold strings.space3.
    destruct (N.eqb_spec (strings.code c) 225); [lia|].
    destruct (N.eqb_spec (strings.code c) 226); [lia|].
    destruct (N.eqb_spec (strings.code c) 227); [lia|]. reflexivity. }
  destruct s as [|c1 [|c2 s3]]; simpl; rewrite Hsp, ?H2, ?H3; reflexivity.
Qed.

Lemma TrimRight_plain c s :
  strings.asciiSpace c = false -> (strings.code c <? 128)%N = true ->
  strings.TrimRight (String c s) = String c (strings.TrimRight s).
Proof.
  intros Hsp Hlow. rewrite TrimRight_cons.
  rewrite (proj2 (TrimLeft_fixed (String c s)) (peel_plain c s Hsp Hlow)). reflexivity.
Qed.

Lemma TrimSpace_http t :
  strings.TrimRight t = t -> strings.TrimSpace ("http://" +:+ t) = "http://" +:+ t.
Proof.
  intros Ht. unfold strings.TrimSpace.
  change ("http://" +:+ t)
    with (String "h" (String "t" (String "t" (String "p"
           (String ":" (String "/" (String "/" t))))))).
  rewrite (proj2 (TrimLeft_fixed _) (peel_plain "h" _ eq_refl eq_refl)).
  rewrite !TrimRight_plain by reflexivity. by rewrite Ht.
Qed.

Lemma TrimSpace_formatProxy raw : strings.TrimSpace (formatProxy raw) = formatProxy raw.
Proof.
  unfold formatProxy.
  destruct (strings.HasPrefix (strings.TrimSpace raw) "http://"
            || strings.HasPrefix (strings.TrimSpace raw) "https://").
  - apply TrimSpace_idem.
  - apply TrimSpace_http, TrimSpace_parts.
Qed.

Lemma formatProxy_idempotent_aux raw : formatProxy (formatProxy raw) = formatProxy raw.
Proof.
  unfold formatProxy at 1. rewrite TrimSpace_formatProxy.
  destruct (formatProxy_scheme raw) as [H|H]; rewrite H; [reflexivity|].
  by rewrite orb_true_r.
Qed.

(** X12. [formatProxy] is idempotent: formatting an address that is already
    formatted returns it unchanged, so no second [http://] is ever put in
    front of a formatted address. *)
Theorem formatProxy_idempotent (raw : string) :
  formatProxy (formatProxy raw) = formatProxy raw
  /\ strings.TrimSpace (formatProxy raw) = formatProxy raw.
Proof.
  pose proof (TrimSpace_formatProxy raw) as Htrim. split; [|exact Htrim].
  unfold formatProxy at 1. rewrite Htrim.
  destruct (formatProxy_scheme raw) as [H|H]; rewrite H; [reflexivity|].
  by rewrite orb_true_r.
Qed.

Lemma blank_TrimLeft s : blank s = true -> strings.TrimLeft s = EmptyString.
Proof.
  induction s as [|c s IH]; [reflexivity|]. simpl.
  intros [Hc Hs]%andb_true_iff. rewrite Hc. by apply IH.
Qed.

Lemma blank_clean_line s : blank s = true -> clean_line s = EmptyString.
Proof.
  intros H. unfold clean_line, strings.TrimSpace. by rewrite (blank_TrimLeft s H).
Qed.

Lemma Split_blank s sep :
  blank s = true -> Forall (fun piece => blank piece = true) (strings.Split s sep).
Proof.
  induction s as [|c s IH]; simpl; [by repeat constructor|].
  intros [Hc Hs]%andb_true_iff. specialize (IH Hs).
  destruct (Ascii.eqb c sep); [by constructor|].
  destruct (strings.Split s sep) as [|p ps].
  - repeat constructor. simpl. by rewrite Hc.
  - inversion IH as [|? ? Hp Hps]; subst. constructor; [|done].
    simpl. by rewrite Hc, Hp.
Qed.

Lemma blank_lines_parse lines :
  Forall (fun piece => blank piece = true) lines ->
  filter (fun line => line ≠ EmptyString) (map clean_line lines) = [].
Proof.
  induction 1 as [|p ps Hp _ IH]; [reflexivity|].
  simpl. rewrite filter_cons, (blank_clean_line p Hp).
  rewrite decide_False by (intros Hne; by apply Hne). exact IH.
Qed.

(** X13. A 200 reply whose body holds nothing but ASCII white space (empty
    body, blank lines) counts as a success: [fetchProxies] returns no error
    and the pool is empty afterwards, whatever it held before. *)
Theorem fetchProxies_blank_body (s : St) (body : string) :
  next_reply s = GetResponse 200 (ReadOK body) ->
  blank body = true ->
  fst (fetchProxies s) = None
  /\ proxies (pm (snd (fetchProxies s))) = []
  /\ currentIndex (pm (snd (fetchProxies s))) = 0.
Proof.
  intros Hreply Hblank.
  pose proof (fetchProxies_fetched s) as H. rewrite Hreply in H. simpl in H.
  inversion H as [[He Hp]]. rewrite Hp. simpl.
  rewrite parseProxies_pipeline. unfold amended_parse.
  rewrite (blank_lines_parse _ (Split_blank body strings.LF Hblank)). done.
Qed.

(** ** Parsing the pool back *)

Lemma has_byte_app c a b : has_byte c (a +:+ b) = has_byte c a || has_byte c b.
Proof.
  induction a as [|x a IH]; [reflexivity|].
  rewrite app_cons. simpl. rewrite IH. by rewrite orb_assoc.
Qed.

Lemma Split_no_sep s sep :
  Forall (fun piece => has_byte sep piece = false) (strings.Split s sep).
Proof.
  induction s as [|c s IH]; simpl; [by repeat constructor|].
  destruct (Ascii.eqb c sep) eqn:Hc; [by constructor|].
  destruct (strings.Split s sep) as [|p ps].
  - repeat constructor. simpl. by rewrite Hc.
  - inversion IH as [|? ? Hp Hps]; subst. constructor; [|done].
    simpl. by rewrite Hc, Hp.
Qed.

Lemma has_byte_TrimSpace c s : has_byte c s = false -> has_byte c (strings.TrimSpace s) = false.
Proof.
  intros H. unfold strings.TrimSpace.
  destruct (TrimLeft_suffix s) as [w Hw].
  destruct (TrimRight_prefix (strings.TrimLeft s)) as (v & Hv & _).
  rewrite Hw, Hv, !has_byte_app in H.
  apply orb_false_iff in H as [_ H]. by apply orb_false_iff in H as [H _].
Qed.

Lemma has_byte_ReplaceAll c s :
  has_byte c s = false -> has_byte c (strings.ReplaceAll s strings.CR EmptyString) = false.
Proof.
  induction s as [|x s IH]; [reflexivity|]. simpl.
  intros [Hx Hs]%orb_false_iff.
  destruct (Ascii.eqb x strings.CR); [by apply IH|].
  simpl. rewrite Hx. by apply IH.
Qed.

Lemma ReplaceAll_removes s :
  has_byte strings.CR (strings.ReplaceAll s strings.CR EmptyString) = false.
Proof.
  induction s as [|x s IH]; [reflexivity|]. simpl.
  destruct (Ascii.eqb x strings.CR) eqn:Hx; [exact IH|].
  simpl. by rewrite Hx.
Qed.

Lemma ReplaceAll_id s :
  has_byte strings.CR s = false -> strings.ReplaceAll s strings.CR EmptyString = s.
Proof.
  induction s as [|x s IH]; [reflexivity|]. simpl.
  intros [Hx Hs]%orb_false_iff. rewrite Hx. by rewrite IH.
Qed.

Lemma has_byte_formatProxy c raw :
  has_byte c "http://" = false -> has_byte c raw = false ->
  has_byte c (formatProxy raw) = false.
Proof.
  intros Hc Hraw. unfold formatProxy.
  pose proof (has_byte_TrimSpace c raw Hraw) as Ht.
  destruct (_ || _); [exact Ht|]. by rewrite has_byte_app, Hc, Ht.
Qed.

Lemma Split_line entry rest :
  has_byte strings.LF entry = false ->
  strings.Split (entry +:+ String strings.LF rest) strings.LF
  = entry :: strings.Split rest strings.LF.
Proof.
  induction entry as [|c e IH]; [reflexivity|].
  rewrite app_cons. simpl. intros [Hc He]%orb_false_iff.
  rewrite Hc, (IH He). reflexivity.
Qed.

Lemma Split_unlines entries :
  Forall (fun entry => has_byte strings.LF entry = false) entries ->
  strings.Split (unlines entries) strings.LF = entries ++ [EmptyString].
Proof.
  induction 1 as [|e es He _ IH]; [reflexivity|].
  simpl. by rewrite (Split_line e _ He), IH.
Qed.

Lemma settled_lines entries :
  Forall settled entries ->
  map formatProxy
    (filter (fun line => line ≠ EmptyString) (map clean_line (entries ++ [EmptyString])))
  = entries.
Proof.
  induction 1 as [|e es (_ & Hclean & Hne & Hfmt) _ IH]; [reflexivity|].
  simpl. rewrite filter_cons, Hclean, decide_True by done.
  simpl. by rewrite Hfmt, IH.
Qed.

Lemma amended_parse_settled lines :
  Forall (fun piece => has_byte strings.LF piece = false) lines ->
  Forall settled
    (map formatProxy (filter (fun line => line ≠ EmptyString) (map clean_line lines))).
Proof.
  induction 1 as [|p ps Hp _ IH]; [constructor|].
  simpl. rewrite filter_cons. destruct (decide _) as [Hne|_]; [|exact IH].
  simpl. constructor; [|exact IH].
  assert (Hlf : has_byte strings.LF (clean_line p) = false).
  { unfold clean_line. by apply has_byte_ReplaceAll, has_byte_TrimSpace. }
  assert (Hcr : has_byte strings.CR (clean_line p) = false) by apply ReplaceAll_removes.
  unfold settled.
  split; [by apply has_byte_formatProxy|].
  split; [|split; [apply formatProxy_nonempty|apply formatProxy_idempotent_aux]].
  unfold clean_line at 1. rewrite TrimSpace_formatProxy.
  apply ReplaceAll_id. by apply has_byte_formatProxy.
Qed.

Lemma parseProxies_settled body : Forall settled (parseProxies body).
Proof.
  rewrite parseProxies_pipeline. apply amended_parse_settled, Split_no_sep.
Qed.

(** X14. Writing the pool out one address per line and parsing that text
    again gives the same pool: what [fetchProxies] stores is a fixed point of
    its own parsing (no entry is split, dropped, trimmed or prefixed a second
    time). *)
Theorem parseProxies_round_trip (body : string) :
  parseProxies (unlines (parseProxies body)) = parseProxies body.
Proof.
  pose proof (parseProxies_settled body) as H.
  rewrite (parseProxies_pipeline (unlines _)). unfold amended_parse.
  rewrite Split_unlines by (eapply Forall_impl; [exact H|]; by intros e (He & _)).
  by apply settled_lines.
Qed.

(** ** [asyncRefresh] under every interleaving *)

Module RefreshRuns.
Import Refresh.

Lemma work_insert gs i old new :
  gs !! i = Some old ->
  (work (<[i := new]> gs) + todo old = work gs + todo new)%nat.
Proof.
  revert i. induction gs as [|g gs IH]; intros [|i] Hlook; simpl in *; try done.
  - injection Hlook as ->. lia.
  - specialize (IH i Hlook). lia.
Qed.

Lemma work_pending gs :
  (0 < work gs)%nat -> exists i c, gs !! i = Some c /\ (0 < todo c)%nat.
Proof.
  induction gs as [|g gs IH]; simpl; [lia|].
  destruct (todo g) eqn:Hg.
  - intros H. destruct (IH H) as (i & c & Hlook & Hc). by exists (S i), c.
  - intros _. exists 0%nat, g. split; [done|lia].
Qed.

Lemma count_pos f gs :
  (0 < count f gs)%nat -> exists i c, gs !! i = Some c /\ f c = true.
Proof.
  induction gs as [|g gs IH]; simpl; [lia|].
  destruct (f g) eqn:Hg.
  - intros _. by exists 0%nat, g.
  - intros H. destruct (IH H) as (i & c & Hlook & Hc). by exists (S i), c.
Qed.

Lemma work_done gs : work gs = 0%nat -> forallb is_returned gs = true.
Proof.
  induction gs as [|g gs IH]; simpl; [done|].
  intros H. rewrite IH by lia. destruct g; simpl in *; try lia; done.
Qed.

Lemma count_none f gs :
  forallb is_returned gs = true -> (forall r, f (Returned r) = false) -> count f gs = 0%nat.
Proof.
  intros Hfin Hf. induction gs as [|g gs IH]; simpl in *; [done|].
  apply andb_true_iff in Hfin as [Hg Hgs]. rewrite (IH Hgs).
  destruct g; simpl in *; try done. by rewrite Hf.
Qed.

(** A goroutine past [Lock] can always move. *)
Lemma holder_moves s i c :
  goroutines s !! i = Some c -> holds_lock c = true ->
  (work (goroutines (step (Run i) s)) < work (goroutines s))%nat.
Proof.
  intros Hlook Hc. unfold step. rewrite Hlook.
  destruct c as [| |k|r]; try done.
  - destruct (isRefreshing (pm (st s))).
    + simpl. unfold set_pc.
      pose proof (work_insert _ _ _ (Returned false) Hlook). simpl in *. lia.
    + destruct (asyncRefresh_send (st s)) as [k st']. simpl. unfold set_pc.
      pose proof (work_insert _ _ _ (InFlight k) Hlook). simpl in *. lia.
  - destruct (asyncRefresh_recv k (st s)) as [u st']. simpl. unfold set_pc.
    pose proof (work_insert _ _ _ (Returned true) Hlook). simpl in *. lia.
Qed.

Lemma progress calls0 s :
  refresh_ok calls0 s -> (0 < work (goroutines s))%nat ->
  exists i, (work (goroutines (step (Run i) s)) < work (goroutines s))%nat.
Proof.
  intros (Hlock & _) Hwork.
  destruct (refreshLock s) eqn:Hheld.
  - destruct (count_pos holds_lock (goroutines s)) as (i & c & Hlook & Hc); [lia|].
    exists i. by apply (holder_moves s i c).
  - destruct (work_pending _ Hwork) as (i & c & Hlook & Hc). exists i.
    destruct (holds_lock c) eqn:Hh; [by apply (holder_moves s i c)|].
    destruct c as [| |k|r]; simpl in *; try done; try lia.
    unfold step. rewrite Hlook, Hheld. simpl. unfold set_pc.
    pose proof (work_insert _ _ _ AtCheck Hlook). simpl in *. lia.
Qed.

Lemma run_app sched1 sched2 s : run (sched1 ++ sched2) s = run sched2 (run sched1 s).
Proof. unfold run. apply fold_left_app. Qed.

Lemma run_Trigger_free sched :
  Forall (fun a => a <> Trigger) sched ->
  forall s, length (goroutines (run sched s)) = length (goroutines s).
Proof.
  induction 1 as [|a sched Ha _ IH]; intros s; [done|].
  simpl. rewrite IH. destruct a as [|i]; [done|]. unfold step.
  destruct (goroutines s !! i) as [[| |k|r]|]; try done.
  - destruct (refreshLock s); [done|]. simpl. unfold set_pc. by rewrite length_insert.
  - destruct (isRefreshing (pm (st s))); [simpl; unfold set_pc; by rewrite length_insert|].
    destruct (asyncRefresh_send (st s)). simpl. unfold set_pc. by rewrite length_insert.
  - destruct (asyncRefresh_recv k (st s)). simpl. unfold set_pc. by rewrite length_insert.
Qed.

Lemma drains calls0 n :
  forall s, refresh_ok calls0 s -> (work (goroutines s) <= n)%nat ->
  exists sched, Forall (fun a => a <> Trigger) sched
                /\ (length sched <= n)%nat
                /\ work (goroutines (run sched s)) = 0%nat.
Proof.
  induction n as [|n IH]; intros s Hok Hwork.
  - exists []. repeat split; [constructor|simpl; lia|simpl; lia].
  - destruct (work (goroutines s)) eqn:Hw.
    + exists []. repeat split; [constructor|simpl; lia|done].
    + destruct (progress calls0 s Hok) as [i Hi]; [lia|].
      destruct (IH (step (Run i) s)) as (sched & Hfree & Hlen & Hdone).
      * by apply RefreshFacts.step_ok.
      * lia.
      * exists (Run i :: sched). repeat split; [by constructor|simpl; lia|exact Hdone].
Qed.

End RefreshRuns.

(** X15. Under every interleaving of the goroutines started by
    [go pm.asyncRefresh()], beginning with [isRefreshing] false: at most one
    goroutine is past [refreshLock.Lock()], at most one request to the
    supplier is out, no goroutine ever returns at the [if pm.isRefreshing]
    test, and once all have returned the supplier has been called exactly
    once per started goroutine. *)
Theorem asyncRefresh_never_skips (s0 : St) (sched : list Refresh.action) :
  isRefreshing (pm s0) = false ->
  let s := Refresh.run sched (Refresh.idle s0) in
  (Refresh.count Refresh.holds_lock (Refresh.goroutines s) <= 1)%nat
  /\ (Refresh.in_flight s <= 1)%nat
  /\ Refresh.count Refresh.skipped (Refresh.goroutines s) = 0%nat
  /\ (Refresh.finished s = true ->
      calls (world (Refresh.st s))
      = (calls (world s0) + length (Refresh.goroutines s))%nat).
Proof.
  intros Hflag s.
  destruct (RefreshFacts.run_ok _ sched _ (RefreshFacts.idle_ok s0 Hflag))
    as (Hlock & Hfl & Hskip & Hcalls).
  fold s in Hlock, Hfl, Hskip, Hcalls. clearbody s.
  split; [rewrite Hlock; destruct (Refresh.refreshLock s); lia|].
  split; [unfold Refresh.in_flight; rewrite Hfl; destruct (isRefreshing (pm (Refresh.st s))); lia|].
  split; [exact Hskip|].
  intros Hfin. unfold Refresh.finished in Hfin.
  rewrite Hcalls, (RefreshRuns.count_none Refresh.is_in_flight _ Hfin) by done.
  rewrite (RefreshFacts.count_length _ Hfin). lia.
Qed.

(** X16. The refresh goroutines cannot deadlock: from every state they can
    reach there is a continuation that starts no new goroutine, takes at most
    three steps per goroutine, and ends with all of them returned, the mutex
    released and [isRefreshing] false. *)
Theorem asyncRefresh_drains (s0 : St) (sched : list Refresh.action) :
  isRefreshing (pm s0) = false ->
  let s := Refresh.run sched (Refresh.idle s0) in
  exists rest,
    Forall (fun a => a <> Refresh.Trigger) rest
    /\ (length rest <= 3 * length (Refresh.goroutines s))%nat
    /\ let s' := Refresh.run (sched ++ rest) (Refresh.idle s0) in
       Refresh.finished s' = true
       /\ length (Refresh.goroutines s') = length (Refresh.goroutines s)
       /\ Refresh.refreshLock s' = false
       /\ isRefreshing (pm (Refresh.st s')) = false.
Proof.
  intros Hflag s.
  pose proof (RefreshFacts.run_ok _ sched _ (RefreshFacts.idle_ok s0 Hflag)) as Hok.
  fold s in Hok.
  assert (Hbound : (work (Refresh.goroutines s) <= 3 * length (Refresh.goroutines s))%nat).
  { clear. induction (Refresh.goroutines s) as [|g gs IH]; simpl; [lia|].
    destruct g; simpl; lia. }
  destruct (RefreshRuns.drains _ _ s Hok Hbound) as (rest & Hfree & Hlen & Hdone).
  exists rest. split; [exact Hfree|]. split; [exact Hlen|].
  rewrite RefreshRuns.run_app. fold s.
  pose proof (RefreshFacts.run_ok _ rest _ Hok) as (Hlock & Hfl & _ & _).
  pose proof (RefreshRuns.work_done _ Hdone) as Hfin.
  rewrite (RefreshRuns.count_none Refresh.holds_lock _ Hfin) in Hlock by done.
  rewrite (RefreshRuns.count_none Refresh.is_in_flight _ Hfin) in Hfl by done.
  simpl. split; [exact Hfin|]. split; [by apply RefreshRuns.run_Trigger_free|].
  split.
  - destruct (Refresh.refreshLock (Refresh.run rest s)); [lia|done].
  - destruct (isRefreshing (pm (Refresh.st (Refresh.run rest s)))); [lia|done].
Qed.

(** ** The [OnError] handlers and the rest of the program *)

Lemma RemoveProxy_shrinks proxyURL s :
  let p' := pm (snd (RemoveProxy proxyURL s)) in
  sublist (proxies p') (proxies (pm s))
  /\ (length (proxies (pm s)) <= S (length (proxies p')))%nat
  /\ apiURL p' = apiURL (pm s) /\ minThreshold p' = minThreshold (pm s)
  /\ isRefreshing p' = isRefreshing (pm s).
Proof.
  destruct (decide (proxyURL ∈ proxies (pm s))) as [Hin|Hnotin].
  - destruct (first_occurrence _ _ Hin) as (before & after & Hsplit & Hfirst).
    destruct (RemoveProxy_present proxyURL s before after Hsplit Hfirst) as (-> & _).
    unfold removed. simpl. rewrite Hsplit. split.
    + apply sublist_app; [done|]. by apply sublist_cons.
    + rewrite !length_app. simpl. split; [lia|done].
  - rewrite (RemoveProxy_absent _ _ Hnotin). simpl. split; [done|]. split; [lia|done].
Qed.

Lemma log_eq l s : log l s = (tt, mkSt (pm s) (emit (EvLog l) (world s))).
Proof. reflexivity. Qed.

(** What no case of a handler does. *)
Lemma handle_frame case r err g :
  let requestURL := colly.URL (colly.Request_ r) in
  let g' := handle case r err g in
  calls (outside g') = calls (outside g)
  /\ supplier (outside g') = supplier (outside g)
  /\ (exists new, trace (outside g') = trace (outside g) ++ new)
  /\ sublist (proxies (proxyManager g')) (proxies (proxyManager g))
  /\ (length (proxies (proxyManager g)) <= S (length (proxies (proxyManager g'))))%nat
  /\ (forall other, IsVisited (storage g) other = true -> IsVisited (storage g') other = true)
  /\ (forall other, other <> requestURL ->
        IsVisited (storage g') other = IsVisited (storage g) other).
Proof.
  intros requestURL g'. subst g'. unfold handle. fold requestURL.
  set (proxyURL := colly.ProxyURL (colly.Request_ r)).
  rewrite !on_pool_eq. simpl.
  destruct (case (colly.StatusCode r) err); rewrite ?on_pool_eq, ?on_storage_eq; simpl;
    try (destruct (String.eqb proxyURL EmptyString); simpl;
         rewrite ?on_pool_eq; simpl; rewrite ?RemoveProxy_world; simpl;
         [repeat split; try done;
          [eexists; rewrite <- !app_assoc; reflexivity|lia]
         |]);
    try (pose proof (RemoveProxy_shrinks proxyURL
           (mkSt (proxyManager g) (emit (EvLog (LogError requestURL (colly.StatusCode r) err proxyURL)) (outside g))))
           as (Hsub & Hlen & _));
    try (erewrite (RemoveProxy_pm_indep proxyURL (proxyManager g) _ _);
         repeat split; try done; try exact Hsub; try exact Hlen;
         eexists; rewrite <- !app_assoc; reflexivity).
  all: repeat split; try done; try lia;
    try (eexists; rewrite <- !app_assoc; reflexivity);
    intros other; apply MarkVisited_others.
Qed.

Lemma MarkVisited_usable s url timestamp :
  usable s -> url <> EmptyString ->
  Z.of_nat (String.length url) <= bolt.MaxKeySize ->
  Z.of_nat (String.length timestamp) <= bolt.MaxValueSize ->
  fst (MarkVisited s url timestamp) = None
  /\ IsVisited (snd (MarkVisited s url timestamp)) url = true
  /\ usable (snd (MarkVisited s url timestamp)).
Proof.
  intros (Hopen & b & Hb) Hkey Hklen Hvlen.
  rewrite MarkVisited_result, Hopen, Hb, Put_ok by done. simpl.
  split; [done|]. rewrite IsVisited_result. simpl. rewrite lookup_insert_eq.
  split.
  - apply bool_decide_eq_true. rewrite dom_insert_L, elem_of_union, elem_of_singleton. by left.
  - split; [done|]. simpl. rewrite lookup_insert_eq. by eexists.
Qed.

Lemma retried_case statusCode err :
  statusCode <> 404 ->
  blocking statusCode = true \/ text_matches err = true ->
  outcome_of (setupCallbacks_case statusCode err) = Retryable
  /\ outcome_of (setupErrorHandler_case statusCode err) = Retryable.
Proof.
  intros H404 Hretry. unfold setupCallbacks_case, setupErrorHandler_case, blocking in *.
  destruct (Z.eqb_spec statusCode 404); [done|].
  destruct (Z.eqb_spec statusCode 0);
    destruct ((statusCode =? 403) || (statusCode =? 429) || (statusCode =? 503));
    try done; destruct Hretry as [?|Ht]; try done; by rewrite Ht.
Qed.

Ltac both_handlers :=
  unfold OnError_handlers; apply List.Forall_cons; [|apply List.Forall_cons; [|apply List.Forall_nil]].

(** X17. Whatever the response and the error, neither [OnError] handler
    calls the supplier, rewrites the log it found, adds an address to the
    pool or removes more than one, un-marks a URL, or marks any URL other
    than the one of the failed request. *)
Theorem OnError_frame (r : colly.Response) (err : option string) (g : Globals) :
  Forall (fun OnError =>
    let g' := OnError r err g in
    calls (outside g') = calls (outside g)
    /\ supplier (outside g') = supplier (outside g)
    /\ (exists new, trace (outside g') = trace (outside g) ++ new)
    /\ sublist (proxies (proxyManager g')) (proxies (proxyManager g))
    /\ (length (proxies (proxyManager g)) <= S (length (proxies (proxyManager g'))))%nat
    /\ (forall other, IsVisited (storage g) other = true -> IsVisited (storage g') other = true)
    /\ (forall other, other <> colly.URL (colly.Request_ r) ->
          IsVisited (storage g') other = IsVisited (storage g) other))
  OnError_handlers.
Proof.
  both_handlers; apply handle_frame.
Qed.

(** X18. A 404 is final: with the store open on its bucket and a URL the
    store accepts as a key, each [OnError] handler leaves the URL visited, so
    that the list handler will skip it; it does so whatever the error text
    says, keeps the proxy in the pool and does not retry. *)
Theorem OnError_404_marks (r : colly.Response) (err : option string) (g : Globals) :
  colly.StatusCode r = 404 ->
  usable (storage g) ->
  colly.URL (colly.Request_ r) <> EmptyString ->
  Z.of_nat (String.length (colly.URL (colly.Request_ r))) <= bolt.MaxKeySize ->
  Z.of_nat (String.length (clock g)) <= bolt.MaxValueSize ->
  Forall (fun OnError =>
    let g' := OnError r err g in
    IsVisited (storage g') (colly.URL (colly.Request_ r)) = true
    /\ proxyManager g' = proxyManager g
    /\ EvRetry (colly.URL (colly.Request_ r))
       ∉ drop (length (trace (outside g))) (trace (outside g')))
  OnError_handlers.
Proof.
  intros H404 Huse Hkey Hklen Hvlen.
  destruct (MarkVisited_usable _ _ (clock g) Huse Hkey Hklen Hvlen) as (_ & Hmarked & _).
  assert (Hgen : forall case,
    case (colly.StatusCode r) err = Case404 ->
    let g' := handle case r err g in
    IsVisited (storage g') (colly.URL (colly.Request_ r)) = true
    /\ proxyManager g' = proxyManager g
    /\ EvRetry (colly.URL (colly.Request_ r))
       ∉ drop (length (trace (outside g))) (trace (outside g'))).
  { intros case Hcase g'.
    pose proof (handle_effects case r err g) as H. rewrite Hcase in H.
    destruct H as (Hpm & Hst & Hno). fold g' in Hpm, Hst, Hno.
    split; [by rewrite Hst|]. split; [exact Hpm|exact Hno]. }
  both_handlers; apply Hgen.
  - unfold setupCallbacks_case. by rewrite H404.
  - unfold setupErrorHandler_case. by rewrite H404.
Qed.

(** X19. A response with status 403, 429 or 503, or a failure whose text
    names a time-out, a refused connection or EOF (the status not being 404),
    makes each [OnError] handler leave the store alone, call [Retry] once and
    log what it returned, after its two log lines and the events of
    [RemoveProxy].  [RemoveProxy] is called on [r.Request.ProxyURL], and only
    when that string is not empty: a request that recorded no proxy address
    leaves the proxy manager exactly as it was, so that no address leaves the
    pool. *)
Theorem OnError_retries (r : colly.Response) (err : option string) (g : Globals) :
  colly.StatusCode r <> 404 ->
  blocking (colly.StatusCode r) = true \/ text_matches err = true ->
  Forall (fun OnError =>
    let g' := OnError r err g in
    let requestURL := colly.URL (colly.Request_ r) in
    let proxyURL := colly.ProxyURL (colly.Request_ r) in
    storage g' = storage g
    /\ (exists l,
          trace (outside g')
          = trace (outside g)
            ++ [EvLog (LogError requestURL (colly.StatusCode r) err proxyURL); EvLog l]
            ++ (if String.eqb proxyURL EmptyString then []
                else removal_events proxyURL (proxyManager g))
            ++ [EvRetry requestURL; EvLog (retry_line (colly.Request_ r))])
    /\ (proxyURL = EmptyString -> proxyManager g' = proxyManager g)
    /\ (proxyURL <> EmptyString ->
        proxyManager g'
        = pm (snd (RemoveProxy proxyURL (mkSt (proxyManager g) (outside g))))))
  OnError_handlers.
Proof.
  intros H404 Hretry.
  destruct (retried_case _ err H404 Hretry) as [H1 H2].
  assert (Hgen : forall case,
    outcome_of (case (colly.StatusCode r) err) = Retryable ->
    let g' := handle case r err g in
    let requestURL := colly.URL (colly.Request_ r) in
    let proxyURL := colly.ProxyURL (colly.Request_ r) in
    storage g' = storage g
    /\ (exists l,
          trace (outside g')
          = trace (outside g)
            ++ [EvLog (LogError requestURL (colly.StatusCode r) err proxyURL); EvLog l]
            ++ (if String.eqb proxyURL EmptyString then []
                else removal_events proxyURL (proxyManager g))
            ++ [EvRetry requestURL; EvLog (retry_line (colly.Request_ r))])
    /\ (proxyURL = EmptyString -> proxyManager g' = proxyManager g)
    /\ (proxyURL <> EmptyString ->
        proxyManager g'
        = pm (snd (RemoveProxy proxyURL (mkSt (proxyManager g) (outside g)))))).
  { intros case Hcase g' requestURL proxyURL.
    pose proof (handle_effects case r err g) as H. rewrite Hcase in H.
    destruct H as (Hst & Htrace & Hpm).
    fold g' in Hst, Htrace, Hpm. fold proxyURL requestURL in Htrace, Hpm.
    split; [exact Hst|]. split; [exact Htrace|]. split.
    - intros Hempty. rewrite Hpm, Hempty. reflexivity.
    - intros Hne. rewrite Hpm.
      destruct (String.eqb_spec proxyURL EmptyString); [done|reflexivity]. }
  both_handlers; [apply (Hgen setupCallbacks_case H1)|apply (Hgen setupErrorHandler_case H2)].
Qed.

(** ** [main.go]: [extractBrandFromURL] *)

Lemma HasPrefix_mono a b prefix :
  strings.HasPrefix a prefix = true -> strings.HasPrefix (a +:+ b) prefix = true.
Proof.
  intros [rest ->]%HasPrefix_app. rewrite app_assoc_string. apply HasPrefix_self.
Qed.

Lemma HasPrefix_empty prefix :
  prefix <> EmptyString -> strings.HasPrefix EmptyString prefix = false.
Proof. destruct prefix; [done|reflexivity]. Qed.

Lemma index_last {A} (l : list A) : l <> [] -> index l (len l - 1) = last l.
Proof.
  intros Hne. rewrite index_Some.
  - rewrite last_lookup. f_equal. unfold len. lia.
  - unfold len. destruct l; [done|]. simpl. lia.
Qed.

Lemma index_head {A} (x : A) (l : list A) : index (x :: l) 0 = Some x.
Proof. rewrite index_Some; [reflexivity|]. unfold len. simpl. lia. Qed.

(** The last piece of [strings.Split] is what follows the last separator. *)
Lemma Split_last s sep :
  exists lastPart,
    last (strings.Split s sep) = Some lastPart
    /\ has_byte sep lastPart = false
    /\ (s = lastPart \/ exists b, s = b +:+ String sep lastPart).
Proof.
  induction s as [|c s IH].
  - exists EmptyString. simpl. auto.
  - destruct IH as (lp & Hlast & Hfree & Hshape). simpl.
    destruct (Ascii.eqb_spec c sep) as [->|Hne].
    + exists lp. split; [|split; [done|right]].
      * destruct (strings.Split s sep); [done|exact Hlast].
      * destruct Hshape as [->|[b ->]]; [by exists EmptyString|].
        exists (String sep b). by rewrite app_cons.
    + destruct (strings.Split s sep) as [|piece pieces] eqn:Hsplit; [done|].
      destruct pieces as [|piece' pieces].
      * injection Hlast as <-. exists (String c piece). split; [done|].
        split; [simpl; rewrite Hfree; by destruct (Ascii.eqb_spec c sep)|].
        destruct Hshape as [->|[b ->]]; [by left|].
        exfalso. clear -Hsplit Hne.
        assert (Hlen : (1 < length (strings.Split (b +:+ String sep piece) sep))%nat).
        { clear. induction b as [|x b IH].
          - change (EmptyString +:+ String sep piece) with (String sep piece).
            simpl. rewrite Ascii.eqb_refl. simpl.
            destruct (strings.Split piece sep) eqn:E; simpl; [|lia].
            destruct piece; simpl in E; [done|].
            destruct (Ascii.eqb _ _); [done|]. by destruct (strings.Split piece sep).
          - rewrite app_cons. simpl. destruct (Ascii.eqb x sep); simpl; [lia|].
            destruct (strings.Split (b +:+ String sep piece) sep) as [|? [|? ?]];
              simpl in *; lia. }
        rewrite Hsplit in Hlen. simpl in Hlen. lia.
      * exists lp. split; [exact Hlast|]. split; [done|right].
        destruct Hshape as [->|[b ->]].
        -- exfalso. clear -Hsplit Hfree.
           revert piece piece' pieces Hsplit.
           induction lp as [|x lp IH]; intros piece piece' pieces Hsplit; [done|].
           simpl in Hfree, Hsplit. apply orb_false_iff in Hfree as [Hx Hlp].
           rewrite Hx in Hsplit.
           destruct (strings.Split lp sep) as [|q [|q' qs]] eqn:E; try done.
           by eapply IH.
        -- exists (String c b). by rewrite app_cons.
Qed.

(** The first piece of [SplitString] is what precedes the first occurrence
    of the separator. *)
Lemma SplitString_head s sep :
  sep <> EmptyString ->
  exists head rest after,
    SplitString s sep 0 = head :: rest
    /\ s = head +:+ after
    /\ strings.Contains head sep = false
    /\ (after = EmptyString \/ strings.HasPrefix after sep = true).
Proof.
  intros Hsep. induction s as [|c s IH].
  - exists EmptyString, [], EmptyString.
    split; [reflexivity|]. split; [reflexivity|]. split; [|by left].
    change (strings.Contains EmptyString sep) with (strings.HasPrefix EmptyString sep || false).
    by rewrite (HasPrefix_empty sep Hsep).
  - cbn [SplitString].
    destruct (strings.HasPrefix (String c s) sep) eqn:Hprefix.
    + exists EmptyString, (SplitString s sep (String.length sep - 1)), (String c s).
      split; [reflexivity|]. split; [reflexivity|]. split; [|by right].
      change (strings.Contains EmptyString sep) with (strings.HasPrefix EmptyString sep || false).
      by rewrite (HasPrefix_empty sep Hsep).
    + destruct IH as (head & rest & after & -> & -> & Hfree & Hafter).
      exists (String c head), rest, after. rewrite app_cons.
      split; [done|]. split; [done|]. split; [|exact Hafter].
      change (strings.Contains (String c head) sep)
        with (strings.HasPrefix (String c head) sep || strings.Contains head sep).
      rewrite Hfree, orb_false_r.
      destruct (strings.HasPrefix (String c head) sep) eqn:E; [|done].
      apply (HasPrefix_mono _ after) in E. rewrite app_cons in E. congruence.
Qed.

(** On a one-byte separator [SplitString] is [strings.Split]. *)
Lemma SplitString_one_byte s sep :
  SplitString s (String sep EmptyString) 0 = strings.Split s sep.
Proof.
  induction s as [|c s IH]; [reflexivity|].
  cbn [SplitString strings.Split]. unfold strings.HasPrefix. simpl.
  rewrite IH. destruct (Ascii.eqb_spec c sep) as [->|Hne].
  - destruct (ascii_dec sep sep); [|done]. by destruct s.
  - destruct (ascii_dec sep c); [by subst|done].
Qed.

Section HandlersFacts.
Context (ToLower Title : string -> string) (Marshal : crawl.Phone -> string + string).

Lemma extractBrandFromURL_parts url :
  exists lastPart head after,
    (url = lastPart \/ exists b, url = b +:+ String "/" lastPart)
    /\ has_byte "/" lastPart = false
    /\ lastPart = head +:+ after
    /\ strings.Contains head "-phones-" = false
    /\ (after = EmptyString \/ strings.HasPrefix after "-phones-" = true)
    /\ crawl.extractBrandFromURL ToLower Title url
       = Some (Title (ToLower (strings.ReplaceAll head "-" " "))).
Proof.
  destruct (Split_last url "/") as (lastPart & Hlast & Hfree & Hshape).
  destruct (SplitString_head lastPart "-phones-") as (head & rest & after & Hsplit & Hparts & Hhead & Hafter);
    [done|].
  exists lastPart, head, after.
  split; [exact Hshape|]. split; [exact Hfree|]. split; [exact Hparts|].
  split; [exact Hhead|]. split; [exact Hafter|].
  unfold crawl.extractBrandFromURL.
  assert (Hne : strings.Split url "/" <> []) by (intros E; rewrite E in Hlast; done).
  assert ((len (strings.Split url "/") >? 0) = true) as ->.
  { apply Z.gtb_lt. destruct (strings.Split url "/"); [done|]. unfold len. simpl. lia. }
  rewrite (index_last _ Hne), Hlast, Hsplit, index_head.
  assert ((len (head :: rest) >? 0) = true) as ->; [|done].
  apply Z.gtb_lt. unfold len. simpl. lia.
Qed.

(** X20. [extractBrandFromURL] never panics and never takes either of its
    two "Unknown" branches: the brand is always computed, from the text
    between the last slash of the URL and the first "-phones-" after it (all
    that follows the last slash when there is none), by replacing its
    hyphens with spaces and changing the case. *)
Theorem extractBrandFromURL_total (url : string) :
  exists before head after,
    url = before +:+ head +:+ after
    /\ (before = EmptyString \/ exists b, before = b +:+ "/")
    /\ has_byte "/" (head +:+ after) = false
    /\ strings.Contains head "-phones-" = false
    /\ (after = EmptyString \/ strings.HasPrefix after "-phones-" = true)
    /\ crawl.extractBrandFromURL ToLower Title url
       = Some (Title (ToLower (strings.ReplaceAll head "-" " "))).
Proof.
  destruct (extractBrandFromURL_parts url)
    as (lastPart & head & after & Hshape & Hfree & -> & Hhead & Hafter & Hres).
  destruct Hshape as [->|[b ->]].
  - exists EmptyString, head, after. repeat split; try done. by left.
  - exists (b +:+ "/"), head, after. repeat split; try done.
    + rewrite app_assoc_string. reflexivity.
    + right. by exists b.
Qed.

End HandlersFacts.

(** ** [main.go]: the [OnHTML] handlers *)

Section OnHTMLFacts.
Context (ToLower Title : string -> string) (Marshal : crawl.Phone -> string + string).

Lemma visits_app a b : crawl.visits (a ++ b) = crawl.visits a ++ crawl.visits b.
Proof. unfold crawl.visits. apply omap_app. Qed.

Lemma extractBrandFromURL_Some url :
  exists brand, crawl.extractBrandFromURL ToLower Title url = Some brand.
Proof.
  destruct (extractBrandFromURL_parts ToLower Title url) as (? & ? & ? & _ & _ & _ & _ & _ & H).
  by eexists.
Qed.

(** What [savePhone] leaves alone, and what it writes. *)
Lemma savePhone_effect phone c :
  let c' := crawl.savePhone Marshal phone c in
  crawl.storage c' = crawl.storage c
  /\ crawl.now c' = crawl.now c /\ crawl.ticks c' = crawl.ticks c
  /\ crawl.disk c' = crawl.disk c
  /\ crawl.visits (crawl.actions c') = crawl.visits (crawl.actions c)
  /\ crawl.writes c'
     = (crawl.writes c + match Marshal phone with inl _ => 0 | inr _ => 1 end)%nat
  /\ crawl.outputFile c'
     = crawl.outputFile c +:+
       match Marshal phone with
       | inl _ => EmptyString
       | inr data =>
           match crawl.disk c (crawl.writes c) with
           | crawl.WriteOK => data +:+ String strings.LF EmptyString
           | crawl.WriteShort n => substring 0 n (data +:+ String strings.LF EmptyString)
           end
       end.
Proof.
  unfold crawl.savePhone, crawl.Write.
  destruct (Marshal phone) as [err|data]; simpl.
  - rewrite visits_app, app_empty_r. simpl. rewrite app_nil_r. repeat split; lia.
  - destruct (crawl.disk c (crawl.writes c)); simpl;
      rewrite visits_app; simpl; rewrite app_nil_r; repeat split; lia.
Qed.

(** The handler on a detail page that is not marked yet. *)
Lemma OnHTML_specs_fresh e c :
  crawl.Path e <> "/makers.php3" ->
  crawl.id e = "specs-list" ->
  IsVisited (crawl.storage c) (crawl.RequestURL e) = false ->
  exists brand c1,
    crawl.extractBrandFromURL ToLower Title (crawl.RequestURL e) = Some brand
    /\ crawl.OnHTML_specs ToLower Title Marshal e c = Some c1
    /\ crawl.storage c1
       = snd (MarkVisited (crawl.storage c) (crawl.RequestURL e)
                (crawl.now c (S (crawl.ticks c))))
    /\ crawl.visits (crawl.actions c1) = crawl.visits (crawl.actions c)
    /\ crawl.now c1 = crawl.now c
    /\ crawl.disk c1 = crawl.disk c
    /\ let phone := crawl.build_phone e brand (crawl.now c (crawl.ticks c)) in
       crawl.writes c1
       = (crawl.writes c + match Marshal phone with inl _ => 0 | inr _ => 1 end)%nat
       /\ crawl.outputFile c1
          = crawl.outputFile c +:+
            match Marshal phone with
            | inl _ => EmptyString
            | inr data =>
                match crawl.disk c (crawl.writes c) with
                | crawl.WriteOK => data +:+ String strings.LF EmptyString
                | crawl.WriteShort n =>
                    substring 0 n (data +:+ String strings.LF EmptyString)
                end
            end.
Proof.
  intros Hpath Hid Hfresh.
  destruct (extractBrandFromURL_Some (crawl.RequestURL e)) as [brand Hbrand].
  exists brand. unfold crawl.OnHTML_specs.
  apply String.eqb_neq in Hpath. rewrite Hpath, Hid, Hfresh, Hbrand. simpl.
  set (c0 := crawl.mkState _ _ _ _ _ (S (crawl.ticks c)) _).
  set (phone := crawl.build_phone e brand (crawl.now c (crawl.ticks c))).
  pose proof (savePhone_effect phone c0) as (Hst & Hnow & Hticks & Hdisk & Hvis & Hwr & Hout).
  unfold crawl.time_Now. rewrite Hst, Hnow, Hticks. simpl.
  destruct (MarkVisited (crawl.storage c) (crawl.RequestURL e) (crawl.now c (S (crawl.ticks c))))
    as [[err|] s]; eexists; (split; [reflexivity|]); (split; [reflexivity|]); simpl;
    rewrite visits_app, Hvis, Hwr, Hout; simpl; rewrite app_nil_r; done.
Qed.

Lemma OnHTML_specs_visited e c :
  IsVisited (crawl.storage c) (crawl.RequestURL e) = true ->
  crawl.OnHTML_specs ToLower Title Marshal e c = Some c.
Proof.
  intros H. unfold crawl.OnHTML_specs. rewrite H.
  destruct (String.eqb _ _); [done|]. by destruct (negb _).
Qed.

(** The [li a] loop of the list handler: the store is only read. *)
Lemma makers_links links c :
  let c' := fold_left crawl.makers_link links c in
  crawl.storage c' = crawl.storage c
  /\ crawl.outputFile c' = crawl.outputFile c
  /\ crawl.writes c' = crawl.writes c
  /\ crawl.visits (crawl.actions c')
     = crawl.visits (crawl.actions c)
       ++ filter (fun phoneURL => IsVisited (crawl.storage c) phoneURL = false) links.
Proof.
  revert c. induction links as [|u links IH]; intros c; simpl.
  - by rewrite app_nil_r.
  - destruct (IH (crawl.makers_link c u)) as (Hst & Hout & Hwr & Hvis).
    rewrite Hst, Hout, Hwr, Hvis. unfold crawl.makers_link. rewrite filter_cons.
    destruct (IsVisited (crawl.storage c) u) eqn:Hu.
    + rewrite decide_False by done. simpl. rewrite visits_app. simpl. by rewrite app_nil_r.
    + rewrite decide_True by done. simpl. rewrite !visits_app. simpl.
      rewrite app_nil_r, <- app_assoc. done.
Qed.

Lemma makers_navs navs c :
  let c' := fold_left (crawl.makers_nav ToLower) navs c in
  crawl.storage c' = crawl.storage c
  /\ crawl.outputFile c' = crawl.outputFile c
  /\ crawl.writes c' = crawl.writes c
  /\ crawl.visits (crawl.actions c')
     = crawl.visits (crawl.actions c)
       ++ map crawl.href (filter (fun el => crawl.is_next ToLower el = true) navs).
Proof.
  revert c. induction navs as [|el navs IH]; intros c; simpl.
  - by rewrite app_nil_r.
  - destruct (IH (crawl.makers_nav ToLower c el)) as (Hst & Hout & Hwr & Hvis).
    rewrite Hst, Hout, Hwr, Hvis. unfold crawl.makers_nav. rewrite filter_cons.
    destruct (crawl.is_next ToLower el) eqn:Hel.
    + rewrite decide_True by done. simpl. rewrite !visits_app. simpl.
      rewrite app_nil_r, <- app_assoc. done.
    + rewrite decide_False by done. done.
Qed.

Lemma OnHTML_makers_effect links navs c :
  let c' := crawl.OnHTML_makers ToLower links navs c in
  crawl.storage c' = crawl.storage c
  /\ crawl.outputFile c' = crawl.outputFile c
  /\ crawl.visits (crawl.actions c')
     = crawl.visits (crawl.actions c)
       ++ filter (fun phoneURL => IsVisited (crawl.storage c) phoneURL = false) links
       ++ map crawl.href (filter (fun el => crawl.is_next ToLower el = true) navs).
Proof.
  unfold crawl.OnHTML_makers.
  destruct (makers_links links c) as (Hst1 & Hout1 & _ & Hvis1).
  destruct (makers_navs navs (fold_left crawl.makers_link links c)) as (Hst2 & Hout2 & _ & Hvis2).
  simpl. rewrite Hst2, Hout2, Hvis2, Hst1, Hout1, Hvis1, <- app_assoc. done.
Qed.

(** X21. The list handler only reads the store and writes nothing to the
    output file; the URLs it passes to [Visit] are exactly the links of the
    page that are not marked visited, in page order and as often as the
    page repeats them, followed by the targets of the page links whose
    lower-cased text contains "next" (these without a look at the store). *)
Theorem OnHTML_makers_visits (links : list string) (navs : list crawl.Anchor)
  (c : crawl.State) :
  let c' := crawl.OnHTML_makers ToLower links navs c in
  crawl.storage c' = crawl.storage c
  /\ crawl.outputFile c' = crawl.outputFile c
  /\ crawl.visits (crawl.actions c')
     = crawl.visits (crawl.actions c)
       ++ filter (fun phoneURL => IsVisited (crawl.storage c) phoneURL = false) links
       ++ map crawl.href (filter (fun el => crawl.is_next ToLower el = true) navs).
Proof.
  unfold crawl.OnHTML_makers.
  destruct (makers_links links c) as (Hst1 & Hout1 & _ & Hvis1).
  destruct (makers_navs navs (fold_left crawl.makers_link links c)) as (Hst2 & Hout2 & _ & Hvis2).
  simpl. rewrite Hst2, Hout2, Hvis2, Hst1, Hout1, Hvis1, <- app_assoc. done.
Qed.

(** X22. A detail page is scraped once: when the handler of the
    specification table runs on a page (not the brand list, [id] being
    "specs-list") with the store open on its bucket, a URL the store takes
    as a key and time stamps of admissible size, it returns without a panic,
    the URL is marked visited, and at most one [Write] was issued; a later
    run of the handler on that URL changes nothing, and a later run of the
    list handler passes the URL to [Visit] only as the target of a "next"
    link. *)
Theorem OnHTML_specs_once (e : crawl.Element) (c : crawl.State) :
  crawl.Path e <> "/makers.php3" ->
  crawl.id e = "specs-list" ->
  usable (crawl.storage c) ->
  crawl.RequestURL e <> EmptyString ->
  Z.of_nat (String.length (crawl.RequestURL e)) <= bolt.MaxKeySize ->
  (forall k, Z.of_nat (String.length (crawl.now c k)) <= bolt.MaxValueSize) ->
  exists c1,
    crawl.OnHTML_specs ToLower Title Marshal e c = Some c1
    /\ IsVisited (crawl.storage c1) (crawl.RequestURL e) = true
    /\ (crawl.writes c1 <= S (crawl.writes c))%nat
    /\ (forall e', crawl.RequestURL e' = crawl.RequestURL e ->
          crawl.OnHTML_specs ToLower Title Marshal e' c1 = Some c1)
    /\ (forall links navs,
          crawl.RequestURL e
            ∈ crawl.visits (crawl.actions (crawl.OnHTML_makers ToLower links navs c1)) ->
          crawl.RequestURL e ∈ crawl.visits (crawl.actions c1)
          \/ crawl.RequestURL e
               ∈ map crawl.href (filter (fun el => crawl.is_next ToLower el = true) navs)).
Proof.
  intros Hpath Hid Huse Hkey Hklen Hvlen.
  assert (Hafter : forall c1,
    IsVisited (crawl.storage c1) (crawl.RequestURL e) = true ->
    (forall e', crawl.RequestURL e' = crawl.RequestURL e ->
       crawl.OnHTML_specs ToLower Title Marshal e' c1 = Some c1)
    /\ (forall links navs,
          crawl.RequestURL e
            ∈ crawl.visits (crawl.actions (crawl.OnHTML_makers ToLower links navs c1)) ->
          crawl.RequestURL e ∈ crawl.visits (crawl.actions c1)
          \/ crawl.RequestURL e
               ∈ map crawl.href (filter (fun el => crawl.is_next ToLower el = true) navs))).
  { intros c1 Hmarked. split.
    - intros e' He'. apply OnHTML_specs_visited. by rewrite He'.
    - intros links navs.
      destruct (OnHTML_makers_effect links navs c1) as (_ & _ & ->).
      rewrite !elem_of_app, list_elem_of_filter.
      intros [?|[[Hfresh _]|?]]; [by left|congruence|by right]. }
  destruct (IsVisited (crawl.storage c) (crawl.RequestURL e)) eqn:Hseen.
  - exists c. split; [by apply OnHTML_specs_visited|]. split; [done|]. split; [lia|].
    by apply Hafter.
  - destruct (OnHTML_specs_fresh e c Hpath Hid Hseen)
      as (brand & c1 & _ & Hrun & Hst & _ & _ & _ & Hwr & _).
    destruct (MarkVisited_usable _ _ (crawl.now c (S (crawl.ticks c))) Huse Hkey Hklen (Hvlen _))
      as (_ & Hmarked & _).
    rewrite <- Hst in Hmarked.
    exists c1. split; [exact Hrun|]. split; [exact Hmarked|]. split.
    + rewrite Hwr. destruct (Marshal _); lia.
    + by apply Hafter.
Qed.

(** X23. The handler of the specification table marks the URL whether or
    not the record reached the file: on a page not marked yet the output
    file grows by the marshalled record and a line feed when [Write]
    succeeds, by the first bytes of it that got out when [Write] fails, and
    by nothing when [json.Marshal] fails; in all three cases the store is
    the result of [MarkVisited] on the URL, and nothing is passed to
    [Visit]. *)
Theorem OnHTML_specs_output (e : crawl.Element) (c : crawl.State) :
  crawl.Path e <> "/makers.php3" ->
  crawl.id e = "specs-list" ->
  IsVisited (crawl.storage c) (crawl.RequestURL e) = false ->
  exists brand c1,
    crawl.extractBrandFromURL ToLower Title (crawl.RequestURL e) = Some brand
    /\ crawl.OnHTML_specs ToLower Title Marshal e c = Some c1
    /\ crawl.storage c1
       = snd (MarkVisited (crawl.storage c) (crawl.RequestURL e)
                (crawl.now c (S (crawl.ticks c))))
    /\ crawl.visits (crawl.actions c1) = crawl.visits (crawl.actions c)
    /\ crawl.outputFile c1
       = crawl.outputFile c +:+
         match Marshal (crawl.build_phone e brand (crawl.now c (crawl.ticks c))) with
         | inl _ => EmptyString
         | inr data =>
             match crawl.disk c (crawl.writes c) with
             | crawl.WriteOK => data +:+ String strings.LF EmptyString
             | crawl.WriteShort n => substring 0 n (data +:+ String strings.LF EmptyString)
             end
         end.
Proof.
  intros Hpath Hid Hfresh.
  destruct (OnHTML_specs_fresh e c Hpath Hid Hfresh)
    as (brand & c1 & Hbrand & Hrun & Hst & Hvis & _ & _ & _ & Hout).
  exists brand, c1. done.
Qed.

End OnHTMLFacts.

(** ** The record the detail handler builds *)

Lemma specs_row_frame rows acc k :
  (forall r, r ∈ rows -> strings.TrimSpace (fst r) <> k) ->
  fold_left crawl.specs_row rows acc !! k = acc !! k.
Proof.
  revert acc. induction rows as [|row rows IH]; intros acc Hrows; [done|].
  simpl. rewrite IH by (intros r Hr; apply Hrows; by right).
  unfold crawl.specs_row. destruct (negb _); [|done].
  apply lookup_insert_ne. apply Hrows. by left.
Qed.

Lemma specs_row_trimmed rows acc k v :
  (forall k v, acc !! k = Some v ->
     k <> EmptyString /\ strings.TrimSpace k = k /\ strings.TrimSpace v = v) ->
  fold_left crawl.specs_row rows acc !! k = Some v ->
  k <> EmptyString /\ strings.TrimSpace k = k /\ strings.TrimSpace v = v.
Proof.
  revert acc. induction rows as [|row rows IH]; intros acc Hacc; [apply Hacc|].
  simpl. apply IH. intros k' v'. unfold crawl.specs_row.
  destruct (String.eqb_spec (strings.TrimSpace (fst row)) EmptyString) as [|Hne]; simpl;
    [apply Hacc|].
  destruct (decide (strings.TrimSpace (fst row) = k')) as [<-|Hk].
  - rewrite lookup_insert_eq. intros [= <-]. by rewrite !TrimSpace_idem.
  - rewrite lookup_insert_ne by done. apply Hacc.
Qed.

Lemma release_date_nonempty specs :
  crawl.release_date specs <> EmptyString
  /\ (crawl.release_date specs = "Unknown"
      \/ specs !! "Released" = Some (crawl.release_date specs)).
Proof.
  unfold crawl.release_date.
  destruct (specs !! "Released") as [v|]; simpl; [|split; [done|by left]].
  destruct (String.eqb_spec v EmptyString); [split; [done|by left]|].
  split; [done|by right].
Qed.

(** X24. The record written for a page is clean: the model name and every
    key and value of the specifications are trimmed, no key is empty, the
    release date is never empty ("Unknown" when the "Released" row is
    missing or blank); of several rows with the same trimmed key the last
    one gives the value, and a key no row has is absent. *)
Theorem build_phone_clean (e : crawl.Element) (brand crawledAt : string) :
  let phone := crawl.build_phone e brand crawledAt in
  strings.TrimSpace (crawl.ModelName phone) = crawl.ModelName phone
  /\ crawl.ReleaseDate phone <> EmptyString
  /\ (crawl.ReleaseDate phone = "Unknown"
      \/ crawl.Specs phone !! "Released" = Some (crawl.ReleaseDate phone))
  /\ (forall k v, crawl.Specs phone !! k = Some v ->
        k <> EmptyString /\ strings.TrimSpace k = k /\ strings.TrimSpace v = v)
  /\ (forall before row after,
        crawl.rows e = before ++ row :: after ->
        strings.TrimSpace (fst row) <> EmptyString ->
        (forall r, r ∈ after -> strings.TrimSpace (fst r) <> strings.TrimSpace (fst row)) ->
        crawl.Specs phone !! strings.TrimSpace (fst row)
        = Some (strings.TrimSpace (snd row)))
  /\ (forall k, (forall r, r ∈ crawl.rows e -> strings.TrimSpace (fst r) <> k) ->
        crawl.Specs phone !! k = None).
Proof.
  simpl. split; [apply TrimSpace_idem|].
  split; [apply release_date_nonempty|]. split; [apply release_date_nonempty|].
  split; [|split].
  - intros k v. apply specs_row_trimmed. intros k' v'. by rewrite lookup_empty.
  - intros before row after -> Hne Hlast.
    rewrite fold_left_app. simpl. rewrite specs_row_frame by done.
    unfold crawl.specs_row.
    destruct (String.eqb_spec (strings.TrimSpace (fst row)) EmptyString); [done|].
    simpl. apply lookup_insert_eq.
  - intros k Hk. by rewrite specs_row_frame.
Qed.

(** ** The three-stage variant *)

Lemma existsb_eqb (x : string) (l : list string) : existsb (String.eqb x) l = true <-> x ∈ l.
Proof.
  rewrite existsb_exists. split.
  - intros (y & Hin & ->%String.eqb_eq). by apply list_elem_of_In.
  - intros Hin. exists x. split; [by apply list_elem_of_In|apply String.eqb_refl].
Qed.

Lemma add_link_spec phoneLinks phoneURL :
  crawl.add_link phoneLinks phoneURL
  = if decide (phoneURL ∈ phoneLinks) then phoneLinks else phoneLinks ++ [phoneURL].
Proof.
  unfold crawl.add_link.
  destruct (existsb (String.eqb phoneURL) phoneLinks) eqn:E; simpl.
  - rewrite decide_True; [done|]. by apply existsb_eqb.
  - rewrite decide_False; [done|]. intros H%existsb_eqb. congruence.
Qed.

Lemma add_links links : forall phoneLinks,
  NoDup phoneLinks ->
  let phoneLinks' := fold_left crawl.add_link links phoneLinks in
  NoDup phoneLinks'
  /\ (exists new, phoneLinks' = phoneLinks ++ new)
  /\ (forall u, u ∈ phoneLinks' <-> u ∈ phoneLinks \/ u ∈ links).
Proof.
  induction links as [|x links IH]; intros phoneLinks Hnd; simpl.
  - split; [done|]. split; [exists []; by rewrite app_nil_r|].
    intros u. rewrite elem_of_nil. tauto.
  - rewrite add_link_spec. destruct (decide (x ∈ phoneLinks)) as [Hin|Hnotin].
    + destruct (IH phoneLinks Hnd) as (H1 & H2 & H3). split; [done|]. split; [done|].
      intros u. rewrite H3, elem_of_cons. split; [tauto|].
      intros [?|[->|?]]; tauto.
    + destruct (IH (phoneLinks ++ [x])) as (H1 & [new H2] & H3).
      { apply NoDup_app. split; [done|]. split; [|apply NoDup_singleton].
        intros y Hy ->%list_elem_of_singleton. done. }
      split; [done|]. split; [exists (x :: new); by rewrite H2, <- app_assoc|].
      intros u. rewrite H3, elem_of_app, list_elem_of_singleton, elem_of_cons. tauto.
Qed.

Lemma details_loop_sublist seen phoneLinks : forall i,
  sublist (crawl.details_loop seen i phoneLinks) phoneLinks
  /\ (forall u, u ∈ crawl.details_loop seen i phoneLinks ->
        exists k, (i <= k)%nat /\ IsVisited (seen k) u = false).
Proof.
  induction phoneLinks as [|x links IH]; intros i; simpl.
  - split; [done|]. by intros u Hu%elem_of_nil.
  - destruct (IH (S i)) as (Hsub & Hseen).
    destruct (IsVisited (seen i) x) eqn:Hx.
    + split; [by apply sublist_cons|]. intros u Hu.
      destruct (Hseen u Hu) as (k & Hk & Hfresh). exists k. split; [lia|done].
    + split; [by apply sublist_skip|]. intros u [->|Hu]%elem_of_cons.
      * exists i. split; [lia|done].
      * destruct (Hseen u Hu) as (k & Hk & Hfresh). exists k. split; [lia|done].
Qed.

(** X25. The link list of the three-stage variant never holds a URL twice:
    in whatever order the handlers of stage 2 come to add the links they
    find, the list they leave has no duplicate and holds exactly the links
    that were found. *)
Theorem collect_links_NoDup (found : list string) :
  NoDup (crawl.collect_links found)
  /\ (forall u, u ∈ crawl.collect_links found <-> u ∈ found).
Proof.
  destruct (add_links found [] NoDup_nil_2) as (Hnd & _ & Hin).
  split; [exact Hnd|]. intros u. unfold crawl.collect_links. rewrite Hin.
  split; [intros [[]%elem_of_nil|?]; done|by right].
Qed.

(** X26. Stage 3 requests no phone twice: whatever the handlers mark while
    the loop of [fetchPhoneDetails] runs over the list built in stage 2, the
    URLs it passes to [Visit] are pairwise different, each was found in
    stage 2, and each was unmarked in the store when the loop looked. *)
Theorem fetchPhoneDetails_visits_once (found : list string)
  (seen : nat -> BoltStorage) :
  let visited := crawl.details_loop seen 0 (crawl.collect_links found) in
  NoDup visited
  /\ (forall u, u ∈ visited -> u ∈ found /\ exists k, IsVisited (seen k) u = false).
Proof.
  destruct (add_links found [] NoDup_nil_2) as (Hnd & _ & Hin).
  destruct (details_loop_sublist seen (crawl.collect_links found) 0) as (Hsub & Hseen).
  simpl. split; [exact (sublist_NoDup _ _ Hnd Hsub)|].
  intros u Hu. split.
  - pose proof (elem_of_sublist _ _ _ Hu Hsub) as Hu'.
    apply Hin in Hu' as [[]%elem_of_nil|?]. done.
  - destruct (Hseen u Hu) as (k & _ & Hk). by exists k.
Qed.

(** ** Start-up of the pool *)

Lemma NewProxyManager_run u t s :
  let s0 := mkSt (mkProxyManager u t [] 0 false) (emit (EvLog LogInit) (world s)) in
  let s1 := snd (fetchProxies s0) in
  NewProxyManager u t s
  = (tt, mkSt (pm s1)
           (emit (EvLog (match fst (fetchProxies s0) with
                         | Some e => LogInitFailed e
                         | None => LogInitOK (len (proxies (pm s1)))
                         end)) (world s1))).
Proof.
  intros s0 s1. subst s1. unfold NewProxyManager.
  unfold bind at 1. simpl. unfold bind at 1. simpl.
  fold s0. unfold bind at 1. destruct (fetchProxies s0) as [[e|] s1]; reflexivity.
Qed.

(** X27. [NewProxyManager] always yields a manager and contacts the supplier
    exactly once: the fields are as given, the cursor is 0, [isRefreshing]
    is false, and the pool holds the parsed body of a readable 200 reply and
    is empty after any other reply; when the pool is empty after start-up,
    the first [GetProxy] sends the second request itself. *)
Theorem NewProxyManager_starts {Tail} (parseTail : string -> string -> string -> option Tail)
  (u : string) (t : Z) (s : St) :
  let s1 := snd (NewProxyManager u t s) in
  apiURL (pm s1) = u /\ minThreshold (pm s1) = t
  /\ currentIndex (pm s1) = 0 /\ isRefreshing (pm s1) = false
  /\ calls (world s1) = S (calls (world s))
  /\ proxies (pm s1)
     = match next_reply s with
       | GetResponse code (ReadOK body) => if code =? 200 then parseProxies body else []
       | _ => []
       end
  /\ (proxies (pm s1) = [] ->
      calls (world (snd (GetProxy parseTail s1))) = S (S (calls (world s)))).
Proof.
  intros s1. subst s1. rewrite NewProxyManager_run. simpl.
  set (s0 := mkSt (mkProxyManager u t [] 0 false) (emit (EvLog LogInit) (world s))).
  pose proof (fetchProxies_fetched s0) as Hfetched.
  pose proof (fetchProxies_calls s0) as Hcalls.
  change (next_reply s0) with (next_reply s) in Hfetched. unfold fetched in Hfetched.
  assert (Hpm : pm (snd (fetchProxies s0))
                = set_pool (match next_reply s with
                            | GetResponse code (ReadOK body) =>
                                if code =? 200 then parseProxies body else []
                            | _ => []
                            end) 0 (mkProxyManager u t [] 0 false)).
  { destruct (next_reply s) as [cause|code [body|cause]];
      [|destruct (code =? 200)..]; inversion Hfetched as [[He Hp]]; rewrite Hp; reflexivity. }
  match goal with
  | |- _ /\ _ /\ _ /\ _ /\ _ /\ _ /\ ?last => assert (Hlast : last)
  end.
  { clear Hpm Hfetched. intros Hempty.
    rewrite (GetProxy_empty parseTail) by exact Hempty. simpl.
    set (s2 := mkSt _ (emit (EvLog LogEmptyPool) _)).
    assert (Hbefore : calls (world s2) = S (calls (world s))) by exact Hcalls.
    pose proof (fetchProxies_calls s2) as Hcalls2. rewrite Hbefore in Hcalls2.
    destruct (fetchProxies s2) as [[e|] s3]; simpl in *; [exact Hcalls2|].
    destruct (len (proxies (pm s3)) =? 0); simpl; [exact Hcalls2|].
    unfold GetProxy_select, bind, self. rewrite low_water_pm.
    destruct (len (proxies (pm s3)) =? 0); simpl; [by rewrite low_water_calls|].
    destruct (index _ _); simpl; by rewrite low_water_calls. }
  split_and!; try exact Hlast; try exact Hcalls; rewrite Hpm; reflexivity.
Qed.

(** * The rest of the program at concrete states *)

Lemma MarkVisited_survives_restart_witness :
  bucketName fresh_store <> EmptyString
  /\ fst (MarkVisited fresh_store iphone_url "2026-01-01T00:00:00Z") = None
  /\ exists s2,
       NewBoltStorage (fun _ => bolt.Holds (bolt.file (db (Close marked_store))))
         "crawler.db" "visited_urls" = inr s2
       /\ IsVisited s2 iphone_url = true.
Proof.
  assert (Hname : bucketName fresh_store <> EmptyString) by discriminate.
  assert (Hok : fst (MarkVisited fresh_store iphone_url "2026-01-01T00:00:00Z") = None)
    by reflexivity.
  split; [exact Hname|]. split; [exact Hok|].
  destruct (MarkVisited_survives_restart fresh_store iphone_url "2026-01-01T00:00:00Z"
              (fun _ => bolt.Holds (bolt.file (db (Close marked_store)))) "crawler.db"
              Hname Hok eq_refl)
    as (s2 & Hopen & Hseen & _).
  exists s2. split; [exact Hopen|exact Hseen].
Defined.

Lemma MarkVisited_succeeds_iff_witness :
  Z.of_nat (String.length "2026-01-01T00:00:00Z") <= bolt.MaxValueSize
  /\ (fst (MarkVisited fresh_store iphone_url "2026-01-01T00:00:00Z") = None <->
      usable fresh_store /\ iphone_url <> EmptyString
      /\ Z.of_nat (String.length iphone_url) <= bolt.MaxKeySize).
Proof.
  assert (Hlen : Z.of_nat (String.length "2026-01-01T00:00:00Z") <= bolt.MaxValueSize)
    by (unfold bolt.MaxValueSize; simpl; lia).
  split; [exact Hlen|].
  exact (proj1 (MarkVisited_succeeds_iff fresh_store iphone_url "2026-01-01T00:00:00Z" Hlen)).
Defined.

Lemma GetStats_counts_witness :
  fst (MarkVisited fresh_store iphone_url "2026-01-01T00:00:00Z") = None
  /\ exists n,
       GetStats fresh_store = (n, None)
       /\ GetStats (snd (MarkVisited fresh_store iphone_url "2026-01-01T00:00:00Z"))
          = ((if IsVisited fresh_store iphone_url then n else n + 1), None)
       /\ 0 <= n.
Proof.
  assert (Hok : fst (MarkVisited fresh_store iphone_url "2026-01-01T00:00:00Z") = None)
    by reflexivity.
  split; [exact Hok|].
  exact (GetStats_counts fresh_store iphone_url "2026-01-01T00:00:00Z" Hok).
Defined.

Lemma GetProxy_does_not_block_witness :
  proxies (pm three_proxies) <> []
  /\ cursor_ok (pm three_proxies)
  /\ pool_fits (pm three_proxies)
  /\ calls (world (snd (GetProxy keep_rest three_proxies))) = calls (world three_proxies).
Proof.
  assert (Hne : proxies (pm three_proxies) <> []) by discriminate.
  assert (Hcursor : cursor_ok (pm three_proxies)).
  { split; [simpl; lia|]. intros _. unfold len. simpl. lia. }
  assert (Hfits : pool_fits (pm three_proxies)).
  { unfold pool_fits, MaxInt, len. simpl. lia. }
  split; [exact Hne|]. split; [exact Hcursor|]. split; [exact Hfits|].
  exact (proj1 (GetProxy_does_not_block keep_rest three_proxies Hne Hcursor Hfits)).
Defined.

Lemma GetProxy_never_panics_witness :
  supplier_fits (supplier (world empty_pool))
  /\ fst (GetProxy keep_rest
            (snd ((NewProxyManager "http://supplier/get" 2 ;;; run_all keep_rest short_run)
                    empty_pool)))
     <> Panicked.
Proof.
  assert (Hsup : supplier_fits (supplier (world empty_pool))).
  { intros k code body [= _ <-]. unfold MaxInt. simpl. lia. }
  split; [exact Hsup|].
  exact (proj2 (proj2 (GetProxy_never_panics keep_rest "http://supplier/get" 2 short_run
                         empty_pool Hsup))).
Defined.

Lemma fetchProxies_blank_body_witness :
  next_reply only_blank_lines
  = GetResponse 200 (ReadOK (" " +:+ String strings.LF "  "))
  /\ blank (" " +:+ String strings.LF "  ") = true
  /\ proxies (pm only_blank_lines) <> []
  /\ fst (fetchProxies only_blank_lines) = None
  /\ proxies (pm (snd (fetchProxies only_blank_lines))) = [].
Proof.
  assert (Hreply : next_reply only_blank_lines
                   = GetResponse 200 (ReadOK (" " +:+ String strings.LF "  ")))
    by reflexivity.
  assert (Hblank : blank (" " +:+ String strings.LF "  ") = true) by reflexivity.
  split; [exact Hreply|]. split; [exact Hblank|]. split; [discriminate|].
  destruct (fetchProxies_blank_body only_blank_lines _ Hreply Hblank) as (Herr & Hpool & _).
  split; [exact Herr|exact Hpool].
Defined.

Lemma asyncRefresh_never_skips_witness :
  isRefreshing (pm three_proxies) = false
  /\ Refresh.count Refresh.skipped
       (Refresh.goroutines (Refresh.run two_triggers (Refresh.idle three_proxies))) = 0%nat.
Proof.
  split; [reflexivity|].
  exact (proj1 (proj2 (proj2 (asyncRefresh_never_skips three_proxies two_triggers eq_refl)))).
Defined.

Lemma asyncRefresh_drains_witness :
  isRefreshing (pm three_proxies) = false
  /\ exists rest,
       Forall (fun a => a <> Refresh.Trigger) rest
       /\ Refresh.finished
            (Refresh.run (take 5 two_triggers ++ rest) (Refresh.idle three_proxies)) = true.
Proof.
  split; [reflexivity|].
  destruct (asyncRefresh_drains three_proxies (take 5 two_triggers) eq_refl)
    as (rest & Hfree & _ & Hfin & _).
  exists rest. split; [exact Hfree|exact Hfin].
Defined.

Lemma OnError_404_marks_witness :
  colly.StatusCode not_found = 404
  /\ usable (storage two_proxies)
  /\ colly.URL (colly.Request_ not_found) <> EmptyString
  /\ Z.of_nat (String.length (colly.URL (colly.Request_ not_found))) <= bolt.MaxKeySize
  /\ Z.of_nat (String.length (clock two_proxies)) <= bolt.MaxValueSize
  /\ Forall (fun OnError =>
       IsVisited (storage (OnError not_found (Some "timeout") two_proxies)) iphone_url = true)
     OnError_handlers.
Proof.
  assert (H404 : colly.StatusCode not_found = 404) by reflexivity.
  assert (Huse : usable (storage two_proxies)).
  { split; [reflexivity|]. exists ∅. reflexivity. }
  assert (Hkey : colly.URL (colly.Request_ not_found) <> EmptyString) by discriminate.
  assert (Hklen : Z.of_nat (String.length (colly.URL (colly.Request_ not_found)))
                  <= bolt.MaxKeySize)
    by (unfold bolt.MaxKeySize; simpl; lia).
  assert (Hvlen : Z.of_nat (String.length (clock two_proxies)) <= bolt.MaxValueSize)
    by (unfold bolt.MaxValueSize; simpl; lia).
  split; [exact H404|]. split; [exact Huse|]. split; [exact Hkey|].
  split; [exact Hklen|]. split; [exact Hvlen|].
  eapply Forall_impl;
    [exact (OnError_404_marks not_found (Some "timeout") two_proxies H404 Huse Hkey Hklen Hvlen)|].
  intros OnError H. exact (proj1 H).
Defined.

Lemma OnError_retries_witness :
  colly.StatusCode forbidden <> 404
  /\ (blocking (colly.StatusCode forbidden) = true \/ text_matches (Some "Forbidden") = true)
  /\ Forall (fun OnError =>
       proxyManager (OnError forbidden (Some "Forbidden") two_proxies)
       = proxyManager two_proxies)
     OnError_handlers.
Proof.
  assert (H404 : colly.StatusCode forbidden <> 404) by discriminate.
  assert (Hretry : blocking (colly.StatusCode forbidden) = true
                   \/ text_matches (Some "Forbidden") = true)
    by (left; reflexivity).
  split; [exact H404|]. split; [exact Hretry|].
  eapply Forall_impl;
    [exact (OnError_retries forbidden (Some "Forbidden") two_proxies H404 Hretry)|].
  intros OnError H. exact (proj1 (proj2 (proj2 H)) eq_refl).
Defined.

Lemma OnHTML_specs_once_witness :
  crawl.Path iphone_page <> "/makers.php3"
  /\ crawl.id iphone_page = "specs-list"
  /\ usable (crawl.storage crawl_start)
  /\ crawl.RequestURL iphone_page <> EmptyString
  /\ Z.of_nat (String.length (crawl.RequestURL iphone_page)) <= bolt.MaxKeySize
  /\ (forall k, Z.of_nat (String.length (crawl.now crawl_start k)) <= bolt.MaxValueSize)
  /\ exists c1,
       crawl.OnHTML_specs same_case same_case name_only iphone_page crawl_start = Some c1
       /\ IsVisited (crawl.storage c1) iphone_url = true.
Proof.
  assert (Hpath : crawl.Path iphone_page <> "/makers.php3") by discriminate.
  assert (Hid : crawl.id iphone_page = "specs-list") by reflexivity.
  assert (Huse : usable (crawl.storage crawl_start)).
  { split; [reflexivity|]. exists ∅. reflexivity. }
  assert (Hkey : crawl.RequestURL iphone_page <> EmptyString) by discriminate.
  assert (Hklen : Z.of_nat (String.length (crawl.RequestURL iphone_page)) <= bolt.MaxKeySize)
    by (unfold bolt.MaxKeySize; simpl; lia).
  assert (Hvlen : forall k,
            Z.of_nat (String.length (crawl.now crawl_start k)) <= bolt.MaxValueSize)
    by (intros k; unfold bolt.MaxValueSize; simpl; lia).
  split; [exact Hpath|]. split; [exact Hid|]. split; [exact Huse|]. split; [exact Hkey|].
  split; [exact Hklen|]. split; [exact Hvlen|].
  destruct (OnHTML_specs_once same_case same_case name_only iphone_page crawl_start
              Hpath Hid Huse Hkey Hklen Hvlen) as (c1 & Hrun & Hseen & _).
  exists c1. split; [exact Hrun|exact Hseen].
Defined.

Lemma OnHTML_specs_output_witness :
  crawl.Path iphone_page <> "/makers.php3"
  /\ crawl.id iphone_page = "specs-list"
  /\ IsVisited (crawl.storage crawl_start) (crawl.RequestURL iphone_page) = false
  /\ exists brand c1,
       crawl.extractBrandFromURL same_case same_case iphone_url = Some brand
       /\ crawl.OnHTML_specs same_case same_case name_only iphone_page crawl_start = Some c1
       /\ crawl.outputFile c1 = "Apple iPhone 15" +:+ String strings.LF EmptyString.
Proof.
  assert (Hpath : crawl.Path iphone_page <> "/makers.php3") by discriminate.
  assert (Hid : crawl.id iphone_page = "specs-list") by reflexivity.
  assert (Hfresh : IsVisited (crawl.storage crawl_start) (crawl.RequestURL iphone_page) = false)
    by reflexivity.
  split; [exact Hpath|]. split; [exact Hid|]. split; [exact Hfresh|].
  destruct (OnHTML_specs_output same_case same_case name_only iphone_page crawl_start
              Hpath Hid Hfresh) as (brand & c1 & Hbrand & Hrun & _ & _ & Hout).
  exists brand, c1. split; [exact Hbrand|]. split; [exact Hrun|]. exact Hout.
Defined.
